(** * pyudev.core: the registry context and the device enumerator

    A shallow embedding of [src/pyudev/core.py] (classes [Context] and
    [Enumerator]).  Python objects live in a heap indexed by object
    identity, the native library is a state machine reached through
    the [libudev] bindings, and every native call is appended to a
    trace.  Methods are computations in a state-and-exception monad
    over that world. *)

From Stdlib Require Import ZArith List String Ascii Bool Lia DecimalString.
From stdpp Require Import base option list gmap strings.

Local Open Scope string_scope.
Local Open Scope list_scope.

(** ** Strings *)

(** A Python 2 byte string ([str]) is a sequence of 8-bit characters. *)
Definition bytes : Type := string.

(** A unicode string is a sequence of code points. *)
Definition text : Type := list N.

(** The unicode literal with the given ASCII spelling, e.g. [u"block"]. *)
Definition u (s : string) : text := map N_of_ascii (list_ascii_of_string s).

(** [unicode(n)] for an integer: optional sign and decimal digits. *)
Definition text_of_Z (n : Z) : text := u (NilZero.string_of_int (Z.to_int n)).

(** The ASCII codec, one possible value of [sys.getfilesystemencoding()]. *)
Fixpoint ascii_encode (t : text) : option bytes :=
  match t with
  | [] => Some EmptyString
  | c :: t' =>
      if (c <? 128)%N
      then match ascii_encode t' with
           | Some s => Some (String (ascii_of_N c) s)
           | None => None
           end
      else None
  end.

Fixpoint ascii_decode (s : bytes) : option text :=
  match s with
  | EmptyString => Some []
  | String a s' =>
      if (N_of_ascii a <? 128)%N
      then match ascii_decode s' with
           | Some t => Some (N_of_ascii a :: t)
           | None => None
           end
      else None
  end.

(** ** Values, objects and exceptions *)

Definition handle : Type := nat.   (* a native pointer *)
Definition objref : Type := nat.   (* the identity of a Python instance *)

Inductive pyvalue : Type :=
| PyNone
| PyBool (b : bool)
| PyInt (n : Z)
| PyBytes (s : bytes)
| PyText (t : text)
| PyRef (r : objref)          (* an instance of Context or Enumerator *)
| PyDevice (syspath : bytes). (* a pyudev.Device, wrapping the native device at that sys path *)

(** Instance attributes; an attribute that was never assigned is [None]. *)
Inductive pyobject : Type :=
| ContextObj (as_parameter : option handle)
| EnumeratorObj (context : option pyvalue) (as_parameter : option handle).

(** The error taxonomy of the specification (section 7), with Python's
    [TypeError] and [StopIteration] kept apart. *)
Inductive exn : Type :=
| TypeError (msg : string)
| InvalidArgument
| EncodeError
| DecodeError
| ResolutionFailure
| StopIteration.

Inductive result (A : Type) : Type :=
| Ok (a : A)
| Raise (e : exn).
Arguments Ok {A} a.
Arguments Raise {A} e.

(** ** The native registry *)

Record device : Type := Device {
  dev_sys_path : bytes;
  dev_subsystem : bytes;
  dev_sys_name : bytes;
  dev_properties : list (bytes * bytes);
  dev_attributes : list (bytes * bytes);
  dev_tags : list bytes;
  dev_is_initialized : bool  (* false only while the registry marks it uninitialised *)
}.

Inductive kind : Type :=
| K_subsystem | K_sys_name | K_property | K_attribute | K_tag
| K_is_initialized | K_parent.

Inductive predicate : Type :=
| P_subsystem (name : bytes)
| P_sys_name (name : bytes)
| P_property (key value : bytes)
| P_attribute (key value : bytes)
| P_tag (name : bytes)
| P_is_initialized
| P_parent (syspath : bytes).

Definition kind_of (p : predicate) : kind :=
  match p with
  | P_subsystem _ => K_subsystem
  | P_sys_name _ => K_sys_name
  | P_property _ _ => K_property
  | P_attribute _ _ => K_attribute
  | P_tag _ => K_tag
  | P_is_initialized => K_is_initialized
  | P_parent _ => K_parent
  end.

Definition all_kinds : list kind :=
  [K_subsystem; K_sys_name; K_property; K_attribute; K_tag;
   K_is_initialized; K_parent].

#[global] Instance kind_eq_dec : EqDecision kind.
Proof. solve_decision. Defined.

#[global] Instance pyvalue_eq_dec : EqDecision pyvalue.
Proof. solve_decision. Defined.

#[global] Instance predicate_eq_dec : EqDecision predicate.
Proof. solve_decision. Defined.

(** A native enumeration object: its reference count, the connection it
    is bound to, the match list in the order the predicates were added,
    and the entry list left by the last scan. *)
Record udev_enumerate : Type := UdevEnumerate {
  en_refs : nat;
  en_udev : handle;
  en_filters : list predicate;
  en_devices : list (bytes * bytes)
}.

(** A list entry is a pointer into a singly-linked list: the entries
    from that node on; the null pointer is the empty list. *)
Abbreviation list_entry := (list (bytes * bytes)).

Inductive native_call : Type :=
| udev_new_call (h : handle)
| udev_unref_call (h : handle)
| enumerate_new_call (udev h : handle)
| enumerate_unref_call (h : handle)
| add_match_call (h : handle) (p : predicate)
| scan_devices_call (h : handle)
| get_list_entry_call (h : handle)
| list_entry_get_name_call
| list_entry_get_value_call
| list_entry_get_next_call
| device_new_from_syspath_call (udev : handle) (syspath : bytes).

#[global] Instance native_call_eq_dec : EqDecision native_call.
Proof. solve_decision. Defined.

(** ** The world *)

Record world : Type := World {
  registry : list device;                  (* the devices the system knows *)
  udevs : gmap handle nat;                 (* registry connections: reference counts *)
  enumerates : gmap handle udev_enumerate; (* native enumeration objects *)
  heap : gmap objref pyobject;             (* Python instances *)
  trace : list native_call                 (* native calls so far, oldest first *)
}.

Definition set_udevs (f : gmap handle nat → gmap handle nat) (w : world) : world :=
  World (registry w) (f (udevs w)) (enumerates w) (heap w) (trace w).
Definition set_enumerates
    (f : gmap handle udev_enumerate → gmap handle udev_enumerate) (w : world) : world :=
  World (registry w) (udevs w) (f (enumerates w)) (heap w) (trace w).
Definition set_heap (f : gmap objref pyobject → gmap objref pyobject) (w : world) : world :=
  World (registry w) (udevs w) (enumerates w) (f (heap w)) (trace w).
Definition log (c : native_call) (w : world) : world :=
  World (registry w) (udevs w) (enumerates w) (heap w) (trace w ++ [c]).

(** ** The monad of method bodies *)

Definition M (A : Type) : Type := world → result A * world.

Definition ret {A} (a : A) : M A := fun w => (Ok a, w).
Definition raise {A} (e : exn) : M A := fun w => (Raise e, w).
Definition bind {A B} (m : M A) (k : A → M B) : M B :=
  fun w => match m w with
           | (Ok a, w') => k a w'
           | (Raise e, w') => (Raise e, w')
           end.
Definition get : M world := fun w => (Ok w, w).
Definition modify (f : world → world) : M unit := fun w => (Ok tt, f w).

Declare Scope py_scope.
Delimit Scope py_scope with py.
Notation "'let*' x ':=' c 'in' k" := (bind c (fun x => k))
  (at level 10, x name, c at level 100, k at level 200) : py_scope.
Notation "c ';;' k" := (bind c (fun _ => k))
  (at level 100, k at level 200, right associativity) : py_scope.
Local Open Scope py_scope.

(** What the interpreter and its environment decide: the file system
    encoding ([sys.getfilesystemencoding()]) in both directions, and the
    text conversion of instances, which depends on their address. *)
Class Platform : Type := {
  fs_encode : text → option bytes;
  fs_decode : bytes → option text;
  object_text : pyvalue → text
}.

Definition ascii_platform : Platform :=
  {| fs_encode := ascii_encode;
     fs_decode := ascii_decode;
     object_text := fun _ => u"<object>" |}.

(** ** ctypes: passing instances to native functions *)

(** An instance is passed as its [_as_parameter_]; the declared argument
    type tells a registry connection from an enumeration object. *)
Definition as_udev (v : pyvalue) : M handle :=
  let* w := get in
  match v with
  | PyRef r =>
      match heap w !! r with
      | Some (ContextObj (Some h)) => ret h
      | _ => raise InvalidArgument
      end
  | _ => raise InvalidArgument
  end.

Definition as_enumerate (v : pyvalue) : M handle :=
  let* w := get in
  match v with
  | PyRef r =>
      match heap w !! r with
      | Some (EnumeratorObj _ (Some h)) => ret h
      | _ => raise InvalidArgument
      end
  | _ => raise InvalidArgument
  end.

Definition as_device (v : pyvalue) : M bytes :=
  match v with
  | PyDevice p => ret p
  | _ => raise InvalidArgument
  end.

(** ** The native library, as bound by [pyudev._libudev] *)

(** The device of the registry at a sys path, if there is one. *)
Definition device_at (reg : list device) (syspath : bytes) : option device :=
  find (fun d => bool_decide (dev_sys_path d = syspath)) reg.

(** [b] is [a], or lies below [a] in the sys path hierarchy. *)
Definition in_subtree (a b : bytes) : bool :=
  bool_decide (b = a) || String.prefix (a ++ "/") b.

Definition pair_eqb (kv kv' : bytes * bytes) : bool :=
  bool_decide (kv = kv').

(** Modelled from the spec: whether one predicate holds of a device
    (sections 3, 4.2 and 8).  Names and key-value pairs are compared
    for equality, the initialised-only predicate keeps every device
    the registry does not mark as uninitialised, a parent predicate
    keeps the parent and its subtree. *)
Definition matches (d : device) (p : predicate) : bool :=
  match p with
  | P_subsystem name => bool_decide (dev_subsystem d = name)
  | P_sys_name name => bool_decide (dev_sys_name d = name)
  | P_property k v => existsb (pair_eqb (k, v)) (dev_properties d)
  | P_attribute k v => existsb (pair_eqb (k, v)) (dev_attributes d)
  | P_tag name => existsb (fun t => bool_decide (t = name)) (dev_tags d)
  | P_is_initialized => dev_is_initialized d
  | P_parent a => in_subtree a (dev_sys_path d)
  end.

Definition of_kind (k : kind) (p : predicate) : bool :=
  bool_decide (kind_of p = k).

(** Modelled from the spec: the native scan, which is not part of the
    repository.  One match list per kind; a device passes a kind when
    that list is empty or one of its predicates holds, and it is kept
    when it passes every kind (section 3, boolean combination). *)
Definition passes_kind (fs : list predicate) (d : device) (k : kind) : bool :=
  match filter (fun p => of_kind k p = true) fs with
  | [] => true
  | ps => existsb (matches d) ps
  end.

Definition passes (fs : list predicate) (d : device) : bool :=
  forallb (passes_kind fs d) all_kinds.

Definition scan (reg : list device) (fs : list predicate) : list (bytes * bytes) :=
  map (fun d => (dev_sys_path d, EmptyString))
      (filter (fun d => passes fs d = true) reg).

Definition unref_enumerate (e : udev_enumerate) : udev_enumerate :=
  UdevEnumerate (pred (en_refs e)) (en_udev e) (en_filters e) (en_devices e).
Definition add_filter (p : predicate) (e : udev_enumerate) : udev_enumerate :=
  UdevEnumerate (en_refs e) (en_udev e) (en_filters e ++ [p]) (en_devices e).
Definition set_devices (l : list (bytes * bytes)) (e : udev_enumerate) : udev_enumerate :=
  UdevEnumerate (en_refs e) (en_udev e) (en_filters e) l.

Module libudev.

(** Modelled from the spec: the call interface of the native registry
    (section 6).  Handles are reference counted; a new handle starts
    with one reference and is never handed out again. *)
Definition udev_new : M handle :=
  let* w := get in
  let h := fresh (dom (udevs w)) in
  modify (set_udevs (insert h 1));;
  modify (log (udev_new_call h));;
  ret h.

Definition udev_unref (ctx : pyvalue) : M unit :=
  let* h := as_udev ctx in
  modify (set_udevs (alter pred h));;
  modify (log (udev_unref_call h)).

Definition udev_enumerate_new (ctx : pyvalue) : M handle :=
  let* hu := as_udev ctx in
  let* w := get in
  let h := fresh (dom (enumerates w)) in
  modify (set_enumerates (insert h (UdevEnumerate 1 hu [] [])));;
  modify (log (enumerate_new_call hu h));;
  ret h.

Definition udev_enumerate_unref (en : pyvalue) : M unit :=
  let* h := as_enumerate en in
  modify (set_enumerates (alter unref_enumerate h));;
  modify (log (enumerate_unref_call h)).

Definition add_match (en : pyvalue) (p : predicate) : M unit :=
  let* h := as_enumerate en in
  modify (set_enumerates (alter (add_filter p) h));;
  modify (log (add_match_call h p)).

Definition udev_enumerate_add_match_subsystem (en : pyvalue) (name : bytes) : M unit :=
  add_match en (P_subsystem name).
Definition udev_enumerate_add_match_sysname (en : pyvalue) (name : bytes) : M unit :=
  add_match en (P_sys_name name).
Definition udev_enumerate_add_match_property (en : pyvalue) (k v : bytes) : M unit :=
  add_match en (P_property k v).
Definition udev_enumerate_add_match_sysattr (en : pyvalue) (k v : bytes) : M unit :=
  add_match en (P_attribute k v).
Definition udev_enumerate_add_match_tag (en : pyvalue) (name : bytes) : M unit :=
  add_match en (P_tag name).
Definition udev_enumerate_add_match_is_initialized (en : pyvalue) : M unit :=
  add_match en P_is_initialized.
Definition udev_enumerate_add_match_parent (en parent : pyvalue) : M unit :=
  let* h := as_enumerate en in
  let* p := as_device parent in
  modify (set_enumerates (alter (add_filter (P_parent p)) h));;
  modify (log (add_match_call h (P_parent p))).

Definition udev_enumerate_scan_devices (en : pyvalue) : M unit :=
  let* h := as_enumerate en in
  let* w := get in
  modify (set_enumerates
            (alter (fun e => set_devices (scan (registry w) (en_filters e)) e) h));;
  modify (log (scan_devices_call h)).

Definition udev_enumerate_get_list_entry (en : pyvalue) : M list_entry :=
  let* h := as_enumerate en in
  let* w := get in
  modify (log (get_list_entry_call h));;
  ret (match enumerates w !! h with
       | Some e => en_devices e
       | None => []
       end).

Definition udev_list_entry_get_name (entry : bytes * bytes) : M bytes :=
  modify (log list_entry_get_name_call);; ret (fst entry).
Definition udev_list_entry_get_value (entry : bytes * bytes) : M bytes :=
  modify (log list_entry_get_value_call);; ret (snd entry).
Definition udev_list_entry_get_next (entry : list_entry) : M list_entry :=
  modify (log list_entry_get_next_call);; ret (tail entry).

Definition udev_device_new_from_syspath (ctx : pyvalue) (syspath : bytes)
    : M (option bytes) :=
  let* hu := as_udev ctx in
  let* w := get in
  modify (log (device_new_from_syspath_call hu syspath));;
  ret (dev_sys_path <$> device_at (registry w) syspath).

End libudev.

(** ** [pyudev._util] and [pyudev.device] *)

(** The state of a [udev_list_iterate] generator: not yet advanced past
    the entry it holds, or suspended after yielding that entry. *)
Inductive list_iter : Type :=
| LI_start (entry : list_entry)
| LI_yielded (entry : list_entry).

Module util.
Section with_platform.
Context `{Platform}.

(** Modelled from the spec: [ensure_byte_string] of [pyudev._util]
    (section 4.2).  Byte strings pass through unchanged, text is
    encoded, a value of another kind is an invalid argument. *)
Definition ensure_byte_string (value : pyvalue) : M bytes :=
  match value with
  | PyBytes s => ret s
  | PyText t =>
      match fs_encode t with
      | Some s => ret s
      | None => raise EncodeError
      end
  | _ => raise InvalidArgument
  end.

(** Modelled from the spec: [ensure_unicode_string] of [pyudev._util],
    the decoding rule of native string outputs (section 4.1). *)
Definition ensure_unicode_string (value : bytes) : M text :=
  match fs_decode value with
  | Some t => ret t
  | None => raise DecodeError
  end.

(** Modelled from the spec: [property_value_to_bytes] of
    [pyudev._util] (sections 3 and 4.2).  Booleans become the tokens
    1 and 0, integers their decimal text, byte strings pass through,
    everything else goes through its text representation. *)
Definition property_value_to_bytes (value : pyvalue) : M bytes :=
  match value with
  | PyBool b => ensure_byte_string (PyText (text_of_Z (Z.b2z b)))
  | PyInt n => ensure_byte_string (PyText (text_of_Z n))
  | PyBytes s => ret s
  | PyText t => ensure_byte_string (PyText t)
  | PyNone => ensure_byte_string (PyText (u"None"))
  | PyRef _ | PyDevice _ => ensure_byte_string (PyText (object_text value))
  end.

(** Modelled from the spec: [udev_list_iterate] of [pyudev._util]
    (section 4.4), one resumption of the generator.  [None] is the
    end of the list. *)
Definition visit (entry : list_entry) : M (option ((text * bytes) * list_iter)) :=
  match entry with
  | [] => ret None
  | e :: _ =>
      let* name := libudev.udev_list_entry_get_name e in
      let* value := libudev.udev_list_entry_get_value e in
      let* name := ensure_unicode_string name in
      ret (Some ((name, value), LI_yielded entry))
  end.

Definition udev_list_iterate_next (it : list_iter)
    : M (option ((text * bytes) * list_iter)) :=
  match it with
  | LI_start entry => visit entry
  | LI_yielded entry =>
      let* entry' := libudev.udev_list_entry_get_next entry in
      visit entry'
  end.

(** Modelled from the spec: [Device.from_sys_path] of [pyudev.device],
    the device resolver (sections 2 and 7). *)
Definition Device_from_sys_path (context : pyvalue) (sys_path : text) : M pyvalue :=
  let* b := ensure_byte_string (PyText sys_path) in
  let* d := libudev.udev_device_new_from_syspath context b in
  match d with
  | Some p => ret (PyDevice p)
  | None => raise ResolutionFailure
  end.

End with_platform.
End util.

(** ** Instances: allocation and attributes *)

Definition alloc (o : pyobject) : M objref :=
  let* w := get in
  let r := fresh (dom (heap w)) in
  modify (set_heap (insert r o));;
  ret r.

Definition set_as_parameter (h : handle) (o : pyobject) : pyobject :=
  match o with
  | ContextObj _ => ContextObj (Some h)
  | EnumeratorObj c _ => EnumeratorObj c (Some h)
  end.

Definition set_context (c : pyvalue) (o : pyobject) : pyobject :=
  match o with
  | ContextObj p => ContextObj p
  | EnumeratorObj _ p => EnumeratorObj (Some c) p
  end.

Definition setattr (self : objref) (f : pyobject → pyobject) : M unit :=
  modify (set_heap (alter f self)).

(** [self.context]; reading an attribute that was never set fails. *)
Definition getattr_context (self : objref) : M pyvalue :=
  let* w := get in
  match heap w !! self with
  | Some (EnumeratorObj (Some c) _) => ret c
  | _ => raise InvalidArgument
  end.

(** [isinstance(v, Context)] *)
Definition is_Context (w : world) (v : pyvalue) : bool :=
  match v with
  | PyRef r =>
      match heap w !! r with
      | Some (ContextObj _) => true
      | _ => false
      end
  | _ => false
  end.

Definition isinstance_Context (v : pyvalue) : M bool :=
  let* w := get in
  ret (is_Context w v).

(** Keyword arguments: a dictionary with byte-string keys, listed in
    its iteration order. *)
Abbreviation kwargs := (list (bytes * pyvalue)).

Definition dict_get (k : bytes) (d : kwargs) : option pyvalue :=
  snd <$> find (fun kv => bool_decide (fst kv = k)) d.

Definition dict_del (k : bytes) (d : kwargs) : kwargs :=
  filter (fun kv => fst kv ≠ k) d.

(** [d.pop(k, dflt)]: the value and the dictionary left. *)
Definition dict_pop (k : bytes) (dflt : pyvalue) (d : kwargs) : pyvalue * kwargs :=
  (default dflt (dict_get k d), dict_del k d).

Definition is_not_None (v : pyvalue) : bool :=
  match v with
  | PyNone => false
  | _ => true
  end.

(** [for x in l: body(x)] *)
Fixpoint for_each {A} (l : list A) (body : A → M unit) : M unit :=
  match l with
  | [] => ret tt
  | x :: l' => body x;; for_each l' body
  end.

(** [if c: body], the value of [body] dropped. *)
Definition when {A} (c : bool) (body : M A) : M unit :=
  if c then body;; ret tt else ret tt.

(** The state of the generator that [Enumerator.__iter__] returns. *)
Inductive generator : Type :=
| GenCreated (self : objref)
| GenSuspended (self : objref) (it : list_iter)
| GenFinished.

(** ** The classes of [pyudev.core] *)

Module Enumerator.
Section with_platform.
Context `{Platform}.

Definition __init__ (self : objref) (context : pyvalue) : M unit :=
  let* ok := isinstance_Context context in
  if negb ok then raise (TypeError "Invalid context object")
  else
    setattr self (set_context context);;
    let* h := libudev.udev_enumerate_new context in
    setattr self (set_as_parameter h).

Definition __del__ (self : objref) : M unit :=
  libudev.udev_enumerate_unref (PyRef self).

(** [Enumerator(context)]: a new instance, initialised. *)
Definition new (context : pyvalue) : M objref :=
  let* self := alloc (EnumeratorObj None None) in
  __init__ self context;;
  ret self.

Definition match_subsystem (self : objref) (subsystem : pyvalue) : M pyvalue :=
  let* b := util.ensure_byte_string subsystem in
  libudev.udev_enumerate_add_match_subsystem (PyRef self) b;;
  ret (PyRef self).

Definition match_sys_name (self : objref) (sys_name : pyvalue) : M pyvalue :=
  let* b := util.ensure_byte_string sys_name in
  libudev.udev_enumerate_add_match_sysname (PyRef self) b;;
  ret (PyRef self).

Definition match_property (self : objref) (property value : pyvalue) : M pyvalue :=
  let* k := util.ensure_byte_string property in
  let* v := util.property_value_to_bytes value in
  libudev.udev_enumerate_add_match_property (PyRef self) k v;;
  ret (PyRef self).

Definition match_attribute (self : objref) (attribute value : pyvalue) : M pyvalue :=
  let* k := util.ensure_byte_string attribute in
  let* v := util.property_value_to_bytes value in
  libudev.udev_enumerate_add_match_sysattr (PyRef self) k v;;
  ret (PyRef self).

Definition match_tag (self : objref) (tag : pyvalue) : M pyvalue :=
  let* b := util.ensure_byte_string tag in
  libudev.udev_enumerate_add_match_tag (PyRef self) b;;
  ret (PyRef self).

Definition match_is_initialized (self : objref) : M pyvalue :=
  libudev.udev_enumerate_add_match_is_initialized (PyRef self);;
  ret (PyRef self).

Definition match_parent (self : objref) (parent : pyvalue) : M pyvalue :=
  libudev.udev_enumerate_add_match_parent (PyRef self) parent;;
  ret (PyRef self).

Definition match_ (self : objref) (kw : kwargs) : M pyvalue :=
  let '(subsystem, kw) := dict_pop "subsystem" PyNone kw in
  when (is_not_None subsystem) (match_subsystem self subsystem);;
  let '(sys_name, kw) := dict_pop "sys_name" PyNone kw in
  when (is_not_None sys_name) (match_sys_name self sys_name);;
  let '(tag, kw) := dict_pop "tag" PyNone kw in
  when (is_not_None tag) (match_tag self tag);;
  let '(parent, kw) := dict_pop "parent" PyNone kw in
  when (is_not_None parent) (match_parent self parent);;
  for_each kw (fun '(property, value) =>
    match_property self (PyBytes property) value;; ret tt);;
  ret (PyRef self).

(** [__iter__] is a generator function: calling it runs none of its
    body. *)
Definition __iter__ (self : objref) : M generator :=
  ret (GenCreated self).

(** The body of the [for] loop, from the next entry to the next
    [yield]. *)
Definition loop (self : objref) (it : list_iter) : M (option pyvalue * generator) :=
  let* x := util.udev_list_iterate_next it in
  match x with
  | None => ret (None, GenFinished)
  | Some ((name, _), it') =>
      let* context := getattr_context self in
      let* d := util.Device_from_sys_path context name in
      ret (Some d, GenSuspended self it')
  end.

(** One [next()] on the generator: the value yielded, or [None] when
    the generator returns, and the state it is left in.  A generator
    that raises is finished. *)
Definition next (g : generator) : M (option pyvalue * generator) :=
  match g with
  | GenCreated self =>
      libudev.udev_enumerate_scan_devices (PyRef self);;
      let* entry := libudev.udev_enumerate_get_list_entry (PyRef self) in
      loop self (LI_start entry)
  | GenSuspended self it => loop self it
  | GenFinished => ret (None, GenFinished)
  end.

End with_platform.
End Enumerator.

Module Context.
Section with_platform.
Context `{Platform}.

Definition __init__ (self : objref) : M unit :=
  let* h := libudev.udev_new in
  setattr self (set_as_parameter h).

Definition __del__ (self : objref) : M unit :=
  libudev.udev_unref (PyRef self).

(** [Context()] *)
Definition new : M objref :=
  let* self := alloc (ContextObj None) in
  __init__ self;;
  ret self.

Definition list_devices (self : objref) (kw : kwargs) : M pyvalue :=
  let* e := Enumerator.new (PyRef self) in
  Enumerator.match_ e kw.

End with_platform.
End Context.

(** ** Reading [Enumerator.match] *)

Definition recognized : list bytes := ["subsystem"; "sys_name"; "tag"; "parent"].

(** The keyword arguments left for [match_property]. *)
Definition properties_of (kw : kwargs) : kwargs :=
  filter (fun kv => fst kv ∉ recognized) kw.

(** A keyword handed to a method whenever it is present. *)
Definition forwarded {A} (kw : kwargs) (k : bytes) (method : pyvalue → M A) : M unit :=
  match dict_get k kw with
  | Some v => method v;; ret tt
  | None => ret tt
  end.

(** A keyword handed to a method when it is present with a value other
    than [None]. *)
Definition routed {A} (kw : kwargs) (k : bytes) (method : pyvalue → M A) : M unit :=
  match dict_get k kw with
  | Some v => when (is_not_None v) (method v)
  | None => ret tt
  end.

Section routing.
Context `{Platform}.

Definition forward_properties (self : objref) (kw : kwargs) : M unit :=
  for_each (properties_of kw) (fun '(property, value) =>
    Enumerator.match_property self (PyBytes property) value;; ret tt).

(** The routing in the words of the specification (section 4.2):
    each recognized keyword goes to its method, in this order, every
    other keyword to the property filter. *)
Definition match_forwarding (self : objref) (kw : kwargs) : M pyvalue :=
  forwarded kw "subsystem" (Enumerator.match_subsystem self);;
  forwarded kw "sys_name" (Enumerator.match_sys_name self);;
  forwarded kw "tag" (Enumerator.match_tag self);;
  forwarded kw "parent" (Enumerator.match_parent self);;
  forward_properties self kw;;
  ret (PyRef self).

(** The same routing, a recognized keyword given as [None] being
    dropped. *)
Definition match_routing (self : objref) (kw : kwargs) : M pyvalue :=
  routed kw "subsystem" (Enumerator.match_subsystem self);;
  routed kw "sys_name" (Enumerator.match_sys_name self);;
  routed kw "tag" (Enumerator.match_tag self);;
  routed kw "parent" (Enumerator.match_parent self);;
  forward_properties self kw;;
  ret (PyRef self).

End routing.

(** ** Iteration *)

(** [list(itertools.islice(g, n))]: at most [n] values of the generator
    and the state it is left in. *)
Fixpoint take `{Platform} (n : nat) (g : generator) : M (list pyvalue * generator) :=
  match n with
  | O => ret ([], g)
  | S n' =>
      let* x := Enumerator.next g in
      match x with
      | (None, g') => ret ([], g')
      | (Some d, g') =>
          let* r := take n' g' in
          ret (d :: fst r, snd r)
      end
  end.

Definition is_scan_call (c : native_call) : bool :=
  match c with
  | scan_devices_call _ | get_list_entry_call _ => true
  | _ => false
  end.

(** The scans and list-head retrievals of a trace, in order. *)
Definition scan_calls (t : list native_call) : list native_call :=
  List.filter is_scan_call t.

(** A call of [__iter__] that itself scans and then retrieves the list
    head. *)
Definition iter_call_scans (self : objref) (w : world) : Prop :=
  ∃ h rest,
    trace (snd (Enumerator.__iter__ self w))
    = trace w ++ scan_devices_call h :: get_list_entry_call h :: rest.

(** ** The filter operations as data *)

Inductive filter_op : Type :=
| Op_match (kw : kwargs)
| Op_match_subsystem (subsystem : pyvalue)
| Op_match_sys_name (sys_name : pyvalue)
| Op_match_property (property value : pyvalue)
| Op_match_attribute (attribute value : pyvalue)
| Op_match_tag (tag : pyvalue)
| Op_match_is_initialized
| Op_match_parent (parent : pyvalue).

Definition call_filter `{Platform} (self : objref) (op : filter_op) : M pyvalue :=
  match op with
  | Op_match kw => Enumerator.match_ self kw
  | Op_match_subsystem v => Enumerator.match_subsystem self v
  | Op_match_sys_name v => Enumerator.match_sys_name self v
  | Op_match_property k v => Enumerator.match_property self k v
  | Op_match_attribute k v => Enumerator.match_attribute self k v
  | Op_match_tag v => Enumerator.match_tag self v
  | Op_match_is_initialized => Enumerator.match_is_initialized self
  | Op_match_parent v => Enumerator.match_parent self v
  end.

(** A method call on a value: only an instance has the methods. *)
Definition call_method `{Platform} (v : pyvalue) (op : filter_op) : M pyvalue :=
  match v with
  | PyRef r => call_filter r op
  | _ => raise InvalidArgument
  end.

(** A string argument the filters accept. *)
Definition string_ok `{Platform} (v : pyvalue) : bool :=
  match v with
  | PyBytes _ => true
  | PyText t => bool_decide (is_Some (fs_encode t))
  | _ => false
  end.

(** A property or attribute value the filters accept. *)
Definition value_ok `{Platform} (v : pyvalue) : bool :=
  match v with
  | PyBool b => bool_decide (is_Some (fs_encode (text_of_Z (Z.b2z b))))
  | PyInt n => bool_decide (is_Some (fs_encode (text_of_Z n)))
  | PyBytes _ => true
  | PyText t => bool_decide (is_Some (fs_encode t))
  | PyNone => bool_decide (is_Some (fs_encode (u"None")))
  | PyRef _ | PyDevice _ => bool_decide (is_Some (fs_encode (object_text v)))
  end.

Definition is_device (v : pyvalue) : bool :=
  match v with
  | PyDevice _ => true
  | _ => false
  end.

(** A keyword argument [match] accepts: [None] or a string for
    [subsystem], [sys_name] and [tag], [None] or a device for
    [parent], a property value otherwise. *)
Definition keyword_ok `{Platform} (kv : bytes * pyvalue) : bool :=
  if bool_decide (fst kv ∈ ["subsystem"; "sys_name"; "tag"])
  then negb (is_not_None (snd kv)) || string_ok (snd kv)
  else if bool_decide (fst kv = "parent")
       then negb (is_not_None (snd kv)) || is_device (snd kv)
       else value_ok (snd kv).

(** The arguments of a filter operation are acceptable. *)
Definition args_ok `{Platform} (op : filter_op) : bool :=
  match op with
  | Op_match kw => forallb keyword_ok kw
  | Op_match_subsystem v | Op_match_sys_name v | Op_match_tag v => string_ok v
  | Op_match_property k v | Op_match_attribute k v => string_ok k && value_ok v
  | Op_match_is_initialized => true
  | Op_match_parent v => is_device v
  end.

(** [r] is an initialised Enumerator whose native handle is [h]. *)
Definition en_owns (w : world) (r : objref) (h : handle) : Prop :=
  ∃ c, heap w !! r = Some (EnumeratorObj c (Some h)).

(** [r] is an initialised Context whose native handle is [h]. *)
Definition ctx_owns (w : world) (r : objref) (h : handle) : Prop :=
  heap w !! r = Some (ContextObj (Some h)).

(** ** [Context.list_devices] in the words of the specification *)

(** Construct a new Enumerator bound to the Context, apply the filters
    to it, return that Enumerator (section 4.1). *)
Definition list_devices_spec `{Platform} (c : objref) (kw : kwargs) : M pyvalue :=
  let* e := Enumerator.new (PyRef c) in
  Enumerator.match_ e kw;;
  ret (PyRef e).

(** ** Logical values of property and attribute arguments *)

(** [denotes v t]: the value [v] stands for the text [t].  A boolean
    stands for 1 or 0, an integer for its decimal text, a byte string
    for the text it is the encoding of. *)
Inductive denotes `{Platform} : pyvalue → text → Prop :=
| denotes_bool b : denotes (PyBool b) (text_of_Z (Z.b2z b))
| denotes_int n : denotes (PyInt n) (text_of_Z n)
| denotes_text t : denotes (PyText t) t
| denotes_bytes s t : fs_encode t = Some s → denotes (PyBytes s) t.

(** The key and value of the last predicate handed to the native
    layer, if it is a property or attribute predicate. *)
Definition handed (t : list native_call) : option (bytes * bytes) :=
  match last t with
  | Some (add_match_call _ (P_property k v)) => Some (k, v)
  | Some (add_match_call _ (P_attribute k v)) => Some (k, v)
  | _ => None
  end.

(** ** Example worlds *)

Definition example_registry : list device :=
  [ Device "/sys/devices/sda" "block" "sda" [("ID_TYPE", "disk")] [] [] true;
    Device "/sys/devices/sda/sda1" "block" "sda1" [("DEVTYPE", "partition")] [] [] true;
    Device "/sys/devices/sr0" "block" "sr0" [("DEVTYPE", "disk"); ("ID_TYPE", "cd")] [] [] true;
    Device "/sys/devices/eth0" "net" "eth0" [("ID_TYPE", "disk")] [] [] false;
    Device "/sys/devices/loop0" "block" "loop0" [] [] [] true ].

(** Nothing constructed yet. *)
Definition world_init : world := World example_registry ∅ ∅ ∅ [].

(** After [c = Context()]; the instance is object 0. *)
Definition world_ctx : world := snd (Context.new world_init).

(** After [e = Enumerator(c)]; the instance is object 1. *)
Definition world_enum : world :=
  snd (Enumerator.new (PyRef 0) world_ctx).

(** A computation that, run on an initialised Enumerator, returns
    normally and leaves the instances as they are. *)
Definition succeeds_on {A} (self : objref) (h : handle) (m : M A) : Prop :=
  ∀ w, en_owns w self h → ∃ a w', m w = (Ok a, w') ∧ heap w' = heap w.

(** ** Reading the scan *)

(** The match list holds a predicate of kind [k]. *)
Definition has_kind (fs : list predicate) (k : kind) : Prop :=
  ∃ p, p ∈ fs ∧ kind_of p = k.

(** Some predicate of kind [k] in the match list holds of [d]. *)
Definition some_matches (fs : list predicate) (d : device) (k : kind) : Prop :=
  ∃ p, p ∈ fs ∧ kind_of p = k ∧ matches d p = true.

(** OR within a kind, AND across kinds. *)
Definition combined (fs : list predicate) (d : device) : Prop :=
  ∀ k, has_kind fs k → some_matches fs d k.

(** A sys path survives decoding and encoding again. *)
Definition roundtrips `{Platform} (p : bytes) : bool :=
  match fs_decode p with
  | Some t => bool_decide (fs_encode t = Some p)
  | None => false
  end.

(** The devices a completed iteration yields. *)
Definition yielded (fs : list predicate) (reg : list device) : list pyvalue :=
  map (fun d => PyDevice (dev_sys_path d)) (filter (fun d => passes fs d = true) reg).

(** Two worlds that differ in their traces only. *)
Definition quiet (w w' : world) : Prop :=
  registry w' = registry w ∧ udevs w' = udevs w
  ∧ enumerates w' = enumerates w ∧ heap w' = heap w.

(** The entry list of a scan that kept the devices [ds]. *)
Definition entries (ds : list device) : list (bytes * bytes) :=
  map (fun d => (dev_sys_path d, EmptyString)) ds.

(** The entries a list iterator has still to visit. *)
Definition pending (it : list_iter) : list (bytes * bytes) :=
  match it with
  | LI_start l => l
  | LI_yielded l => tail l
  end.

(** The world after the native layer appended [p] to the match list of
    the enumeration object [h]. *)
Definition added (p : predicate) (h : handle) (w : world) : world :=
  log (add_match_call h p) (set_enumerates (alter (add_filter p) h) w).

(** The example of the class documentation, as a condition on a device. *)
Definition block_disk (d : device) : Prop :=
  dev_subsystem d = "block"
  ∧ (("ID_TYPE", "disk") ∈ dev_properties d ∨ ("DEVTYPE", "disk") ∈ dev_properties d).

#[global] Instance block_disk_dec d : Decision (block_disk d).
Proof. unfold block_disk. apply _. Defined.

(** ** Frames *)

Definition is_match_call (c : native_call) : bool :=
  match c with
  | add_match_call _ _ => true
  | _ => false
  end.

Definition is_walk_call (c : native_call) : bool :=
  match c with
  | list_entry_get_name_call | list_entry_get_value_call
  | list_entry_get_next_call | device_new_from_syspath_call _ _ => true
  | _ => false
  end.

(** The calls that acquire or release a native handle. *)
Definition is_lifecycle_call (c : native_call) : bool :=
  match c with
  | udev_new_call _ | udev_unref_call _
  | enumerate_new_call _ _ | enumerate_unref_call _ => true
  | _ => false
  end.

(** The reference count of an enumeration object, if it exists. *)
Definition refs_of (w : world) (h : handle) : option nat :=
  en_refs <$> enumerates w !! h.

(** [w'] comes from [w] by native calls that all satisfy [P] and that
    left the instances, the registry and every reference count alone. *)
Definition steady (P : native_call → bool) (w w' : world) : Prop :=
  heap w' = heap w ∧ udevs w' = udevs w ∧ registry w' = registry w
  ∧ (∀ h, refs_of w' h = refs_of w h)
  ∧ ∃ t, trace w' = trace w ++ t ∧ forallb P t = true.

(** A computation all of whose runs are related by [R]. *)
Definition frame {A} (R : world → world → Prop) (m : M A) : Prop :=
  ∀ w, R w (snd (m w)).

(** The body of the generator has begun to run. *)
Definition started (g : generator) : bool :=
  match g with
  | GenCreated _ => false
  | _ => true
  end.

(** [w'] comes from [w] by one scan of the enumeration object [h], one
    retrieval of its list head, and then calls that walk the list. *)
Definition scanned (h : handle) (w w' : world) : Prop :=
  heap w' = heap w
  ∧ ∃ rest,
      trace w' = trace w ++ scan_devices_call h :: get_list_entry_call h :: rest
      ∧ forallb is_walk_call rest = true.

(** ** Lifetimes *)

(** Run [m] and ignore an exception, as the interpreter does for
    [__del__]. *)
Definition try_ {A} (m : M A) : M unit :=
  fun w => (Ok tt, snd (m w)).

(** The collector destroys the instance [r]: [__del__] runs once, then
    the instance is gone. *)
Definition finalize (r : objref) : M unit :=
  let* w := get in
  match heap w !! r with
  | Some (ContextObj _) => try_ (Context.__del__ r)
  | Some (EnumeratorObj _ _) => try_ (Enumerator.__del__ r)
  | None => ret tt
  end;;
  modify (set_heap (delete r)).

(** Some Enumerator keeps the instance [r] alive through its [context]
    attribute. *)
Definition referenced (w : world) (r : objref) : Prop :=
  ∃ e p, heap w !! e = Some (EnumeratorObj (Some (PyRef r)) p).

Definition set_registry (reg : list device) (w : world) : world :=
  World reg (udevs w) (enumerates w) (heap w) (trace w).

(** What a program and its environment can do, one step at a time. *)
Inductive step `{Platform} : world → world → Prop :=
| step_Context w :
    step w (snd (Context.new w))
| step_Enumerator w arg :
    step w (snd (Enumerator.new arg w))
| step_list_devices w c kw :
    step w (snd (Context.list_devices c kw w))
| step_filter w self op :
    step w (snd (call_filter self op w))
| step_next w g :
    step w (snd (Enumerator.next g w))
| step_finalize w r :
    ¬ referenced w r → step w (snd (finalize r w))
| step_registry w reg :
    step w (set_registry reg w).

(** Before anything was constructed. *)
Definition initial (w : world) : Prop :=
  udevs w = ∅ ∧ enumerates w = ∅ ∧ heap w = ∅ ∧ trace w = [].

Definition reachable `{Platform} (w : world) : Prop :=
  ∃ w0, initial w0 ∧ rtc step w0 w.

(** How many calls of a trace satisfy [P]. *)
Definition count (P : native_call → bool) (t : list native_call) : nat :=
  length (List.filter P t).

Definition acquires_udev (h : handle) (c : native_call) : bool :=
  match c with
  | udev_new_call h' => bool_decide (h' = h)
  | _ => false
  end.

Definition releases_udev (h : handle) (c : native_call) : bool :=
  match c with
  | udev_unref_call h' => bool_decide (h' = h)
  | _ => false
  end.

Definition acquires_enumerate (h : handle) (c : native_call) : bool :=
  match c with
  | enumerate_new_call _ h' => bool_decide (h' = h)
  | _ => false
  end.

Definition releases_enumerate (h : handle) (c : native_call) : bool :=
  match c with
  | enumerate_unref_call h' => bool_decide (h' = h)
  | _ => false
  end.

(** The books of one kind of native handle: [refs] is its reference
    count, [owns] relates an instance to the handle it holds, [acq] and
    [rel] count the native calls that acquired and released it.  A
    handle that is held has one reference, was acquired once and never
    released, and has one holder; a handle that is no longer held has
    no reference left and was released once; an unknown handle was
    never touched. *)
Definition ledger (refs : handle → option nat) (owns : objref → handle → Prop)
    (acq rel : handle → nat) : Prop :=
  (∀ r h, owns r h → refs h = Some 1 ∧ acq h = 1 ∧ rel h = 0)
  ∧ (∀ r r' h, owns r h → owns r' h → r = r')
  ∧ (∀ h n, refs h = Some n → (∀ r, ¬ owns r h) → n = 0 ∧ acq h = 1 ∧ rel h = 1)
  ∧ (∀ h, refs h = None → acq h = 0 ∧ rel h = 0).

Definition udev_ledger (w : world) : Prop :=
  ledger (fun h => udevs w !! h) (ctx_owns w)
    (fun h => count (acquires_udev h) (trace w))
    (fun h => count (releases_udev h) (trace w)).

Definition enumerate_ledger (w : world) : Prop :=
  ledger (refs_of w) (en_owns w)
    (fun h => count (acquires_enumerate h) (trace w))
    (fun h => count (releases_enumerate h) (trace w)).

Definition accounted (w : world) : Prop :=
  udev_ledger w ∧ enumerate_ledger w.

(** Every Context instance has its native handle. *)
Definition contexts_initialised (w : world) : Prop :=
  ∀ r p, heap w !! r = Some (ContextObj p) → is_Some p.

(** What holds of every world a program can reach. *)
Definition sound (w : world) : Prop :=
  accounted w ∧ contexts_initialised w.

Definition is_iteration_call (c : native_call) : bool :=
  is_scan_call c || is_walk_call c.

(** ** What the filters hand to the native layer *)

(** The bytes [ensure_byte_string] gives for a value, if any. *)
Definition bytes_of `{Platform} (v : pyvalue) : option bytes :=
  match v with
  | PyBytes s => Some s
  | PyText t => fs_encode t
  | _ => None
  end.

(** The bytes [property_value_to_bytes] gives for a value, if any. *)
Definition value_bytes `{Platform} (v : pyvalue) : option bytes :=
  match v with
  | PyBool b => fs_encode (text_of_Z (Z.b2z b))
  | PyInt n => fs_encode (text_of_Z n)
  | PyBytes s => Some s
  | PyText t => fs_encode t
  | PyNone => fs_encode (u"None")
  | PyRef _ | PyDevice _ => fs_encode (object_text v)
  end.

(** The predicate a single-purpose filter adds, if its arguments are
    accepted. *)
Definition predicate_of `{Platform} (op : filter_op) : option predicate :=
  match op with
  | Op_match _ => None
  | Op_match_subsystem v => P_subsystem <$> bytes_of v
  | Op_match_sys_name v => P_sys_name <$> bytes_of v
  | Op_match_property k v =>
      match bytes_of k, value_bytes v with
      | Some kb, Some vb => Some (P_property kb vb)
      | _, _ => None
      end
  | Op_match_attribute k v =>
      match bytes_of k, value_bytes v with
      | Some kb, Some vb => Some (P_attribute kb vb)
      | _, _ => None
      end
  | Op_match_tag v => P_tag <$> bytes_of v
  | Op_match_is_initialized => Some P_is_initialized
  | Op_match_parent v =>
      match v with
      | PyDevice p => Some (P_parent p)
      | _ => None
      end
  end.

Definition is_single (op : filter_op) : bool :=
  match op with
  | Op_match _ => false
  | _ => true
  end.

(** The world after the native layer appended the predicates [ps], in
    this order, to the match list of [h]. *)
Definition adds (ps : list predicate) (h : handle) (w : world) : world :=
  fold_left (fun w0 p => added p h w0) ps w.

(** The predicates a recognized keyword of [match] contributes. *)
Definition routed_filters `{Platform} (kw : kwargs) (k : bytes)
    (method : pyvalue → filter_op) : list predicate :=
  match dict_get k kw with
  | Some v =>
      if is_not_None v
      then match predicate_of (method v) with
           | Some p => [p]
           | None => []
           end
      else []
  | None => []
  end.

(** The predicates the other keywords of [match] contribute. *)
Definition property_filters `{Platform} (kw : kwargs) : list predicate :=
  omap (fun kv => predicate_of (Op_match_property (PyBytes (fst kv)) (snd kv)))
       (properties_of kw).

(** The predicates a call of [match] with acceptable keywords adds, in
    the order it adds them. *)
Definition match_filters `{Platform} (kw : kwargs) : list predicate :=
  routed_filters kw "subsystem" Op_match_subsystem
  ++ routed_filters kw "sys_name" Op_match_sys_name
  ++ routed_filters kw "tag" Op_match_tag
  ++ routed_filters kw "parent" Op_match_parent
  ++ property_filters kw.

(** ** Frames of the match lists *)

(** From [w] to [w'] every enumeration object kept its match list as a
    prefix, its entry list, its reference count and its connection;
    only the enumeration object of [self] may have changed at all; the
    instances, the registry and the connections are as they were. *)
Definition only_appends (self : objref) (w w' : world) : Prop :=
  heap w' = heap w ∧ registry w' = registry w ∧ udevs w' = udevs w
  ∧ (∀ h, ¬ en_owns w self h → enumerates w' !! h = enumerates w !! h)
  ∧ (∀ h e, enumerates w !! h = Some e →
       ∃ e' ps, enumerates w' !! h = Some e'
                ∧ en_filters e' = en_filters e ++ ps
                ∧ en_devices e' = en_devices e
                ∧ en_refs e' = en_refs e ∧ en_udev e' = en_udev e).

(** From [w] to [w'] every enumeration object kept its match list, its
    reference count and its connection. *)
Definition keeps_filters (w w' : world) : Prop :=
  ∀ h e, enumerates w !! h = Some e →
    ∃ e', enumerates w' !! h = Some e'
          ∧ en_filters e' = en_filters e
          ∧ en_refs e' = en_refs e ∧ en_udev e' = en_udev e.

(** ** Iterating a value *)

Definition is_resolver_call (c : native_call) : bool :=
  match c with
  | device_new_from_syspath_call _ _ => true
  | _ => false
  end.

(** [list(itertools.islice(v, n))] for a value [v]: only an instance
    can be iterated. *)
Definition islice `{Platform} (v : pyvalue) (n : nat) : M (list pyvalue * generator) :=
  match v with
  | PyRef r => let* g := Enumerator.__iter__ r in take n g
  | _ => raise (TypeError "object is not iterable")
  end.

(** ** Enumerators and their Contexts *)

(** Every Enumerator that has its [context] attribute refers to a
    Context holding a native handle, and the enumeration object of the
    Enumerator, if it has one, is bound to that very handle. *)
Definition bound (w : world) : Prop :=
  ∀ e c p, heap w !! e = Some (EnumeratorObj (Some c) p) →
    ∃ r hu, c = PyRef r ∧ ctx_owns w r hu
            ∧ ∀ h, p = Some h → ∃ en, enumerates w !! h = Some en ∧ en_udev en = hu.

(** The enumeration objects of [w] are still there in [w'], bound to
    the same connections. *)
Definition keeps_connections (w w' : world) : Prop :=
  ∀ h en, enumerates w !! h = Some en →
    ∃ en', enumerates w' !! h = Some en' ∧ en_udev en' = en_udev en.

(** An Enumerator that has its native handle has its [context]
    attribute: [__init__] assigns the attributes in this order. *)
Definition context_first (w : world) : Prop :=
  ∀ e c h, heap w !! e = Some (EnumeratorObj c (Some h)) → is_Some c.

(** ** Lemmas on the monad and on dictionaries *)

Lemma bind_ret_l {A B} (a : A) (k : A → M B) w : bind (ret a) k w = k a w.
Proof. reflexivity. Qed.

Lemma bind_ext {A B} (m : M A) (k k' : A → M B) w :
  (∀ a w', k a w' = k' a w') → bind m k w = bind m k' w.
Proof. intros E. unfold bind. destruct (m w) as [[a|e] w']; auto. Qed.

Lemma dict_get_del_ne k k' (d : kwargs) :
  k ≠ k' → dict_get k (dict_del k' d) = dict_get k d.
Proof.
  intros Hne. unfold dict_get, dict_del. f_equal.
  induction d as [|[k0 v0] d IH]; [done|].
  rewrite filter_cons. simpl.
  destruct (decide (k0 ≠ k')) as [Hk|Hk]; simpl.
  - case_bool_decide; [done|]. apply IH.
  - rewrite IH. case_bool_decide; [|done]. subst. destruct Hk. congruence.
Qed.

Lemma recognized_elem k :
  k ∈ recognized ↔ k = "subsystem" ∨ k = "sys_name" ∨ k = "tag" ∨ k = "parent".
Proof.
  unfold recognized. rewrite !elem_of_cons, elem_of_nil. tauto.
Qed.

Lemma dict_del_recognized (d : kwargs) :
  dict_del "parent" (dict_del "tag" (dict_del "sys_name" (dict_del "subsystem" d)))
  = properties_of d.
Proof.
  unfold dict_del, properties_of.
  induction d as [|[k0 v0] d IH]; [done|].
  rewrite (filter_cons (λ kv, kv.1 ∉ recognized)). simpl.
  destruct (decide (k0 ∉ recognized)) as [Hk|Hk].
  - rewrite recognized_elem in Hk.
    rewrite !filter_cons_True by (simpl; intros ->; tauto).
    by rewrite IH.
  - apply dec_stable in Hk. rewrite recognized_elem in Hk.
    rewrite <- IH.
    destruct Hk as [ -> | [ -> | [ -> | -> ] ] ];
      rewrite ?filter_cons_True by done;
      by rewrite filter_cons_False by (simpl; tauto).
Qed.

Lemma when_routed {A} (kw : kwargs) k (method : pyvalue → M A) w :
  when (is_not_None (default PyNone (dict_get k kw)))
       (method (default PyNone (dict_get k kw))) w
  = routed kw k method w.
Proof. unfold routed. destruct (dict_get k kw); reflexivity. Qed.

Lemma bind_cong {A B} (m m' : M A) (k k' : A → M B) w :
  (∀ w0, m w0 = m' w0) → (∀ a w', k a w' = k' a w') → bind m k w = bind m' k' w.
Proof. intros Em Ek. unfold bind. rewrite Em. destruct (m' w) as [[a|e] w']; auto. Qed.

Section routing_facts.
Context `{Platform}.

Lemma match_routing_eq self (kw : kwargs) w :
  Enumerator.match_ self kw w = match_routing self kw w.
Proof.
  unfold Enumerator.match_, match_routing, dict_pop. cbn beta iota.
  apply bind_cong; [intros; apply when_routed|intros _ ?].
  apply bind_cong;
    [intros; rewrite !dict_get_del_ne by done; apply when_routed|intros _ ?].
  apply bind_cong;
    [intros; rewrite !dict_get_del_ne by done; apply when_routed|intros _ ?].
  apply bind_cong;
    [intros; rewrite !dict_get_del_ne by done; apply when_routed|intros _ ?].
  unfold forward_properties. by rewrite dict_del_recognized.
Qed.

End routing_facts.

Lemma dict_get_None k (d : kwargs) : k ∉ d.*1 → dict_get k d = None.
Proof.
  unfold dict_get. induction d as [|[k0 v0] d IH]; [done|].
  simpl. rewrite not_elem_of_cons. intros [Hne Hd].
  case_bool_decide; [congruence|]. by apply IH.
Qed.

Lemma dict_get_app (k : bytes) (d1 d2 : kwargs) :
  dict_get k (d1 ++ d2)
  = match dict_get k d1 with Some v => Some v | None => dict_get k d2 end.
Proof.
  unfold dict_get. induction d1 as [|[k0 v0] d1 IH]; [done|].
  simpl. case_bool_decide; [done|]. apply IH.
Qed.

Lemma dict_get_elided (k k' : bytes) (d1 d2 : kwargs) :
  k ≠ k' → dict_get k' (d1 ++ (k, PyNone) :: d2) = dict_get k' (d1 ++ d2).
Proof.
  intros Hne. rewrite !dict_get_app. destruct (dict_get k' d1); [done|].
  unfold dict_get. simpl. by rewrite bool_decide_eq_false_2.
Qed.

Lemma routed_None_elided {A} (k k' : bytes) (d1 d2 : kwargs) (method : pyvalue → M A) w :
  k ∉ (d1 ++ d2).*1 →
  routed (d1 ++ (k, PyNone) :: d2) k' method w = routed (d1 ++ d2) k' method w.
Proof.
  intros Hk. unfold routed. destruct (decide (k = k')) as [<-|Hne].
  - rewrite (dict_get_None k (d1 ++ d2)) by done.
    rewrite dict_get_app, dict_get_None.
    + unfold dict_get. simpl. by rewrite bool_decide_eq_true_2.
    + rewrite fmap_app, elem_of_app in Hk. tauto.
  - by rewrite dict_get_elided.
Qed.

Lemma properties_of_elided (k : bytes) (d1 d2 : kwargs) :
  k ∈ recognized →
  properties_of (d1 ++ (k, PyNone) :: d2) = properties_of (d1 ++ d2).
Proof.
  intros Hk. unfold properties_of.
  rewrite !filter_app. f_equal. by rewrite filter_cons_False by (simpl; tauto).
Qed.

Lemma bind_inv {A B} (m : M A) (k : A → M B) w r w' :
  bind m k w = (Ok r, w') → ∃ a w0, m w = (Ok a, w0) ∧ k a w0 = (Ok r, w').
Proof.
  unfold bind. destruct (m w) as [[a|e] w0]; intros E; [eauto|done].
Qed.

Section match_facts.
Context `{Platform}.

Lemma match_None_elided self (k : bytes) (d1 d2 : kwargs) w :
  k ∈ recognized → k ∉ (d1 ++ d2).*1 →
  Enumerator.match_ self (d1 ++ (k, PyNone) :: d2) w
  = Enumerator.match_ self (d1 ++ d2) w.
Proof.
  intros Hk Hfresh. rewrite !match_routing_eq. unfold match_routing.
  repeat (apply bind_cong; [intros; by apply routed_None_elided|intros _ ?]).
  unfold forward_properties. by rewrite properties_of_elided.
Qed.

Lemma match_returns_self self (kw : kwargs) w v w' :
  Enumerator.match_ self kw w = (Ok v, w') → v = PyRef self.
Proof.
  rewrite match_routing_eq. unfold match_routing. intros E.
  repeat (apply bind_inv in E as (? & ? & _ & E)).
  unfold ret in E. by simplify_eq.
Qed.

Lemma list_devices_eq c (kw : kwargs) w :
  Context.list_devices c kw w = list_devices_spec c kw w.
Proof.
  unfold Context.list_devices, list_devices_spec.
  apply bind_ext. intros e w0. unfold bind, ret.
  destruct (Enumerator.match_ e kw w0) as [[v|x] w1] eqn:E; [|done].
  by rewrite (match_returns_self _ _ _ _ _ E).
Qed.

End match_facts.

(** ** Construction *)

Lemma is_Context_alloc w o arg :
  (∀ p, o ≠ ContextObj p) →
  is_Context (set_heap (insert (fresh (dom (heap w))) o) w) arg = is_Context w arg.
Proof.
  intros Ho. destruct arg; try reflexivity. simpl.
  destruct (decide (r = fresh (dom (heap w)))) as [->|Hne].
  - rewrite lookup_insert_eq.
    assert (heap w !! fresh (dom (heap w)) = None) as ->.
    { apply not_elem_of_dom. apply is_fresh. }
    destruct o; [by destruct (Ho as_parameter)|done].
  - by rewrite lookup_insert_ne.
Qed.

Lemma Enumerator_init_rejects self arg w :
  is_Context w arg = false →
  Enumerator.__init__ self arg w = (Raise (TypeError "Invalid context object"), w).
Proof.
  intros Hc. unfold Enumerator.__init__, isinstance_Context, bind, get, ret.
  by rewrite Hc.
Qed.

Lemma Enumerator_new_rejects arg w :
  is_Context w arg = false →
  Enumerator.new arg w
  = (Raise (TypeError "Invalid context object"),
     set_heap (insert (fresh (dom (heap w))) (EnumeratorObj None None)) w).
Proof.
  intros Hc. unfold Enumerator.new, alloc.
  unfold bind at 1. unfold bind at 1. simpl.
  unfold bind at 1. rewrite Enumerator_init_rejects; [done|].
  by rewrite is_Context_alloc.
Qed.

(** ** Normalisation of property and attribute values *)

Section value_facts.
Context `{Platform}.

Lemma denotes_normal v t w :
  denotes v t →
  util.property_value_to_bytes v w = util.ensure_byte_string (PyText t) w.
Proof.
  destruct 1 as [b|n|t|s t Hs]; try reflexivity.
  simpl. by rewrite Hs.
Qed.

Lemma match_property_normal self k v t w :
  denotes v t →
  Enumerator.match_property self k v w = Enumerator.match_property self k (PyText t) w.
Proof.
  intros Hd. unfold Enumerator.match_property.
  apply bind_ext. intros kb w0.
  apply bind_cong; [|done]. intros w1.
  by rewrite (denotes_normal v t), (denotes_normal (PyText t) t) by (done || constructor).
Qed.

Lemma match_attribute_normal self k v t w :
  denotes v t →
  Enumerator.match_attribute self k v w = Enumerator.match_attribute self k (PyText t) w.
Proof.
  intros Hd. unfold Enumerator.match_attribute.
  apply bind_ext. intros kb w0.
  apply bind_cong; [|done]. intros w1.
  by rewrite (denotes_normal v t), (denotes_normal (PyText t) t) by (done || constructor).
Qed.

Lemma handed_same self k v w :
  handed (trace (snd (Enumerator.match_property self k v w)))
  = handed (trace (snd (Enumerator.match_attribute self k v w))).
Proof.
  unfold Enumerator.match_property, Enumerator.match_attribute.
  unfold libudev.udev_enumerate_add_match_property,
    libudev.udev_enumerate_add_match_sysattr, libudev.add_match.
  unfold bind.
  destruct (util.ensure_byte_string k w) as [[kb|e] w0]; [|done].
  destruct (util.property_value_to_bytes v w0) as [[vb|e] w1]; [|done].
  destruct (as_enumerate (PyRef self) w1) as [[h|e] w2]; [|done].
  simpl. unfold handed. by rewrite !last_snoc.
Qed.

End value_facts.

(** ** The filter operations return the instance *)

Lemma as_enumerate_owns w self h :
  en_owns w self h → as_enumerate (PyRef self) w = (Ok h, w).
Proof. intros [c Hc]. unfold as_enumerate, bind, get. simpl. by rewrite Hc. Qed.

Lemma add_match_owns w self h p :
  en_owns w self h →
  libudev.add_match (PyRef self) p w
  = (Ok tt, log (add_match_call h p) (set_enumerates (alter (add_filter p) h) w)).
Proof.
  intros Ho. unfold libudev.add_match. unfold bind at 1.
  by rewrite (as_enumerate_owns _ _ _ Ho).
Qed.

Lemma succeeds_ret {A} self h (a : A) : succeeds_on self h (ret a).
Proof. intros w _. by exists a, w. Qed.

Lemma succeeds_bind {A B} self h (m : M A) (k : A → M B) :
  succeeds_on self h m → (∀ a, succeeds_on self h (k a)) →
  succeeds_on self h (bind m k).
Proof.
  intros Hm Hk w Ho. destruct (Hm w Ho) as (a & w0 & Em & Eh).
  assert (en_owns w0 self h) as Ho0 by (unfold en_owns; by rewrite Eh).
  destruct (Hk a w0 Ho0) as (b & w1 & Ek & Eh1).
  exists b, w1. unfold bind. rewrite Em, Ek. split; [done|congruence].
Qed.

Lemma succeeds_add_match self h p : succeeds_on self h (libudev.add_match (PyRef self) p).
Proof. intros w Ho. rewrite (add_match_owns _ _ _ _ Ho). by eexists _, _. Qed.

Lemma succeeds_when {A} self h c (m : M A) :
  (c = true → succeeds_on self h m) → succeeds_on self h (when c m).
Proof.
  intros Hm. unfold when. destruct c; [|apply succeeds_ret].
  apply succeeds_bind; [by apply Hm|intros; apply succeeds_ret].
Qed.

Lemma succeeds_for_each {A} self h (l : list A) (body : A → M unit) :
  (∀ x, x ∈ l → succeeds_on self h (body x)) → succeeds_on self h (for_each l body).
Proof.
  induction l as [|x l IH]; intros Hb; simpl; [apply succeeds_ret|].
  apply succeeds_bind; [apply Hb; left|intros _].
  apply IH. intros y Hy. apply Hb. by right.
Qed.

Lemma dict_get_Some k v (d : kwargs) : dict_get k d = Some v → (k, v) ∈ d.
Proof.
  unfold dict_get. induction d as [|[k0 v0] d IH]; [done|]. simpl.
  case_bool_decide; simpl.
  - intros ?. simplify_eq/=. left.
  - intros ?. right. by apply IH.
Qed.

Section filter_facts.
Context `{Platform}.

Lemma succeeds_ensure_byte_string self h v :
  string_ok v = true → succeeds_on self h (util.ensure_byte_string v).
Proof.
  intros Hv w _. destruct v; try done; simpl.
  - by eexists _, _.
  - apply bool_decide_eq_true in Hv as [s Hs]. rewrite Hs. by eexists _, _.
Qed.

Lemma succeeds_property_value_to_bytes self h v :
  value_ok v = true → succeeds_on self h (util.property_value_to_bytes v).
Proof.
  intros Hv w _. destruct v; simpl in *;
    try (apply bool_decide_eq_true in Hv as [s Hs]; rewrite Hs);
    by eexists _, _.
Qed.

Lemma succeeds_match_parent self h v :
  is_device v = true → succeeds_on self h (Enumerator.match_parent self v).
Proof.
  intros Hv w Ho. destruct v; try done.
  unfold Enumerator.match_parent, libudev.udev_enumerate_add_match_parent.
  unfold bind. rewrite (as_enumerate_owns _ _ _ Ho). simpl. by eexists _, _.
Qed.

Ltac succeeds_step :=
  first
    [ apply succeeds_ret
    | apply succeeds_add_match
    | by apply succeeds_ensure_byte_string
    | by apply succeeds_property_value_to_bytes
    | by apply succeeds_match_parent
    | apply succeeds_bind; [|intros ?] ].

Lemma succeeds_single self h op :
  (∀ kw, op ≠ Op_match kw) → args_ok op = true →
  succeeds_on self h (call_filter self op).
Proof.
  intros Hop Hok. destruct op; simpl in Hok |- *;
    try (apply andb_true_iff in Hok as [Hk Hv]);
    [by destruct (Hop kw)|..];
    unfold Enumerator.match_subsystem, Enumerator.match_sys_name,
      Enumerator.match_property, Enumerator.match_attribute,
      Enumerator.match_tag, Enumerator.match_is_initialized,
      libudev.udev_enumerate_add_match_subsystem,
      libudev.udev_enumerate_add_match_sysname,
      libudev.udev_enumerate_add_match_property,
      libudev.udev_enumerate_add_match_sysattr,
      libudev.udev_enumerate_add_match_tag,
      libudev.udev_enumerate_add_match_is_initialized;
    repeat succeeds_step.
Qed.

Lemma succeeds_routed {A} self h (kw : kwargs) k (method : pyvalue → M A) :
  (∀ v, (k, v) ∈ kw → is_not_None v = true → succeeds_on self h (method v)) →
  succeeds_on self h (routed kw k method).
Proof.
  intros Hm. unfold routed. destruct (dict_get k kw) as [v|] eqn:E.
  - apply succeeds_when. intros Hv. apply Hm; [by apply dict_get_Some|done].
  - apply succeeds_ret.
Qed.

Lemma keyword_ok_string (kw : kwargs) k v :
  forallb keyword_ok kw = true → (k, v) ∈ kw →
  k ∈ ["subsystem"; "sys_name"; "tag"] → is_not_None v = true → string_ok v = true.
Proof.
  intros Hall Hin Hk Hv. rewrite forallb_forall in Hall.
  specialize (Hall (k, v)). rewrite <- list_elem_of_In in Hall.
  specialize (Hall Hin). unfold keyword_ok in Hall. cbn [fst snd] in Hall.
  rewrite bool_decide_eq_true_2 in Hall by done. by rewrite Hv in Hall.
Qed.

Lemma keyword_ok_parent (kw : kwargs) v :
  forallb keyword_ok kw = true → ("parent", v) ∈ kw →
  is_not_None v = true → is_device v = true.
Proof.
  intros Hall Hin Hv. rewrite forallb_forall in Hall.
  specialize (Hall ("parent", v)). rewrite <- list_elem_of_In in Hall.
  specialize (Hall Hin). unfold keyword_ok in Hall. cbn [fst snd] in Hall.
  rewrite bool_decide_eq_false_2 in Hall.
  - rewrite bool_decide_eq_true_2 in Hall by done. by rewrite Hv in Hall.
  - rewrite !elem_of_cons, elem_of_nil. intros [?|[?|[?|[]]]]; discriminate.
Qed.

Lemma keyword_ok_property (kw : kwargs) k v :
  forallb keyword_ok kw = true → (k, v) ∈ properties_of kw → value_ok v = true.
Proof.
  intros Hall Hin. apply list_elem_of_filter in Hin as [Hk Hin]. simpl in Hk.
  rewrite recognized_elem in Hk.
  rewrite forallb_forall in Hall.
  specialize (Hall (k, v)). rewrite <- list_elem_of_In in Hall.
  specialize (Hall Hin). unfold keyword_ok in Hall. cbn [fst snd] in Hall.
  rewrite bool_decide_eq_false_2 in Hall.
  - rewrite bool_decide_eq_false_2 in Hall; [done|tauto].
  - rewrite !elem_of_cons, elem_of_nil. tauto.
Qed.

Lemma succeeds_match self h (kw : kwargs) :
  forallb keyword_ok kw = true → succeeds_on self h (Enumerator.match_ self kw).
Proof.
  intros Hall.
  assert (succeeds_on self h (match_routing self kw)) as Hr.
  { unfold match_routing.
    apply succeeds_bind; [|intros _].
    { apply succeeds_routed. intros v Hin Hv.
      apply (succeeds_single self h (Op_match_subsystem v)); [done|].
      apply (keyword_ok_string kw "subsystem"); [done..| |done].
      rewrite !elem_of_cons; tauto. }
    apply succeeds_bind; [|intros _].
    { apply succeeds_routed. intros v Hin Hv.
      apply (succeeds_single self h (Op_match_sys_name v)); [done|].
      apply (keyword_ok_string kw "sys_name"); [done..| |done].
      rewrite !elem_of_cons; tauto. }
    apply succeeds_bind; [|intros _].
    { apply succeeds_routed. intros v Hin Hv.
      apply (succeeds_single self h (Op_match_tag v)); [done|].
      apply (keyword_ok_string kw "tag"); [done..| |done].
      rewrite !elem_of_cons; tauto. }
    apply succeeds_bind; [|intros _].
    { apply succeeds_routed. intros v Hin Hv.
      apply (succeeds_single self h (Op_match_parent v)); [done|].
      by apply (keyword_ok_parent kw). }
    apply succeeds_bind; [|intros _; apply succeeds_ret].
    unfold forward_properties. apply succeeds_for_each.
    intros [k v] Hin. apply succeeds_bind; [|intros _; apply succeeds_ret].
    apply (succeeds_single self h (Op_match_property (PyBytes k) v)); [done|].
    simpl. by apply (keyword_ok_property kw k). }
  intros w Ho. rewrite match_routing_eq. by apply Hr.
Qed.

Lemma succeeds_call_filter self h op :
  args_ok op = true → succeeds_on self h (call_filter self op).
Proof.
  intros Hok. destruct op;
    try (apply succeeds_single; [intros; discriminate|done]).
  by apply succeeds_match.
Qed.

Lemma call_filter_returns_self self op w v w' :
  call_filter self op w = (Ok v, w') → v = PyRef self.
Proof.
  destruct op; simpl; [apply match_returns_self|..];
    intros E;
    repeat (apply bind_inv in E as (? & ? & _ & E));
    unfold ret in E; by simplify_eq.
Qed.

Lemma call_filter_chain self op op' w :
  bind (call_filter self op) (fun v => call_method v op') w
  = bind (call_filter self op) (fun _ => call_filter self op') w.
Proof.
  unfold bind. destruct (call_filter self op w) as [[v|e] w0] eqn:E; [|done].
  by rewrite (call_filter_returns_self _ _ _ _ _ E).
Qed.

End filter_facts.

(** ** The boolean combination of predicates *)

Lemma all_kinds_complete k : k ∈ all_kinds.
Proof. unfold all_kinds. destruct k; rewrite !elem_of_cons; tauto. Qed.

Lemma passes_kind_combined fs d k :
  passes_kind fs d k = true ↔ (has_kind fs k → some_matches fs d k).
Proof.
  unfold passes_kind, has_kind, some_matches.
  destruct (filter (λ p, of_kind k p = true) fs) as [|p0 ps] eqn:E.
  - split; [|done]. intros _ (p & Hp & Hk). exfalso.
    assert (p ∈ filter (λ p, of_kind k p = true) fs) as Hin.
    { apply list_elem_of_filter. split; [|done].
      unfold of_kind. by apply bool_decide_eq_true. }
    rewrite E in Hin. by apply elem_of_nil in Hin.
  - rewrite <- E. rewrite existsb_exists. split.
    + intros (p & Hin & Hm) _. apply list_elem_of_In in Hin.
      apply list_elem_of_filter in Hin as [Hk Hin].
      unfold of_kind in Hk. apply bool_decide_eq_true in Hk. eauto.
    + intros Hc. destruct Hc as (p & Hin & Hk & Hm).
      { exists p0. assert (p0 ∈ filter (λ p, of_kind k p = true) fs) as Hin0
          by (rewrite E; left).
        apply list_elem_of_filter in Hin0 as [Hk0 Hin0].
        unfold of_kind in Hk0. apply bool_decide_eq_true in Hk0. done. }
      exists p. split; [|done]. apply list_elem_of_In.
      apply list_elem_of_filter. split; [|done].
      unfold of_kind. by apply bool_decide_eq_true.
Qed.

Lemma passes_combined fs d : passes fs d = true ↔ combined fs d.
Proof.
  unfold passes, combined. rewrite forallb_forall. split.
  - intros Hall k. apply passes_kind_combined. apply Hall.
    apply list_elem_of_In, all_kinds_complete.
  - intros Hc k _. apply passes_kind_combined, Hc.
Qed.

Lemma existsb_pair_eqb kv (l : list (bytes * bytes)) :
  existsb (pair_eqb kv) l = true ↔ kv ∈ l.
Proof.
  rewrite existsb_exists. split.
  - intros (x & Hin & He). unfold pair_eqb in He.
    apply bool_decide_eq_true in He. subst. by apply list_elem_of_In.
  - intros Hin. exists kv. split; [by apply list_elem_of_In|].
    unfold pair_eqb. by apply bool_decide_eq_true.
Qed.

(** The example of the class documentation. *)
Lemma passes_block_disk d :
  passes [P_subsystem "block"; P_property "ID_TYPE" "disk";
          P_property "DEVTYPE" "disk"] d = true
  ↔ dev_subsystem d = "block"
    ∧ (("ID_TYPE", "disk") ∈ dev_properties d ∨ ("DEVTYPE", "disk") ∈ dev_properties d).
Proof.
  unfold passes, all_kinds, passes_kind, of_kind. simpl.
  rewrite !andb_true_r, andb_true_iff, !orb_false_r, orb_true_iff.
  rewrite bool_decide_eq_true, !existsb_pair_eqb. done.
Qed.

(** ** A completed iteration *)

Lemma quiet_refl w : quiet w w.
Proof. by repeat split. Qed.

Lemma quiet_trans w1 w2 w3 : quiet w1 w2 → quiet w2 w3 → quiet w1 w3.
Proof. unfold quiet. intros (?&?&?&?) (?&?&?&?). repeat split; congruence. Qed.

Lemma quiet_log c w : quiet w (log c w).
Proof. by repeat split. Qed.

Lemma as_udev_owns w c hu : ctx_owns w c hu → as_udev (PyRef c) w = (Ok hu, w).
Proof. intros Hc. unfold as_udev, bind, get. simpl. by rewrite Hc. Qed.

Lemma getattr_context_set w self v p :
  heap w !! self = Some (EnumeratorObj (Some v) p) → getattr_context self w = (Ok v, w).
Proof. intros Hs. unfold getattr_context, bind, get. by rewrite Hs. Qed.

Lemma device_at_path reg d :
  d ∈ reg → dev_sys_path <$> device_at reg (dev_sys_path d) = Some (dev_sys_path d).
Proof.
  unfold device_at. induction reg as [|d0 reg IH]; [by intros ?%elem_of_nil|].
  intros Hin. simpl. case_bool_decide as Hd; simpl; [by rewrite Hd|].
  apply elem_of_cons in Hin as [->|Hin]; [done|]. by apply IH.
Qed.

Lemma scan_devices_owns w self h :
  en_owns w self h →
  libudev.udev_enumerate_scan_devices (PyRef self) w
  = (Ok tt,
     log (scan_devices_call h)
       (set_enumerates
          (alter (λ e, set_devices (scan (registry w) (en_filters e)) e) h) w)).
Proof.
  intros Ho. unfold libudev.udev_enumerate_scan_devices, bind.
  by rewrite (as_enumerate_owns _ _ _ Ho).
Qed.

Lemma get_list_entry_owns w self h :
  en_owns w self h →
  libudev.udev_enumerate_get_list_entry (PyRef self) w
  = (Ok (match enumerates w !! h with
         | Some e => en_devices e
         | None => []
         end),
     log (get_list_entry_call h) w).
Proof.
  intros Ho. unfold libudev.udev_enumerate_get_list_entry, bind.
  by rewrite (as_enumerate_owns _ _ _ Ho).
Qed.

Section iteration_facts.
Context `{Platform}.

Lemma roundtrips_inv p :
  roundtrips p = true → ∃ t, fs_decode p = Some t ∧ fs_encode t = Some p.
Proof.
  unfold roundtrips. destruct (fs_decode p) as [t|]; [|done].
  intros Ht%bool_decide_eq_true. eauto.
Qed.

Lemma Device_from_sys_path_found c hu t d w :
  ctx_owns w c hu → d ∈ registry w → fs_encode t = Some (dev_sys_path d) →
  util.Device_from_sys_path (PyRef c) t w
  = (Ok (PyDevice (dev_sys_path d)),
     log (device_new_from_syspath_call hu (dev_sys_path d)) w).
Proof.
  intros Hc Hd Ht. unfold util.Device_from_sys_path. simpl. rewrite Ht.
  rewrite bind_ret_l. unfold libudev.udev_device_new_from_syspath.
  unfold bind at 1. unfold bind at 1. rewrite (as_udev_owns _ _ _ Hc).
  unfold bind, get, modify. simpl. by rewrite device_at_path.
Qed.

(** One pass of the loop body over an entry of a device of the registry. *)
Lemma loop_yields self c p hu it d (ds : list device) w :
  heap w !! self = Some (EnumeratorObj (Some (PyRef c)) p) →
  ctx_owns w c hu → d ∈ registry w → roundtrips (dev_sys_path d) = true →
  pending it = entries (d :: ds) →
  ∃ w', Enumerator.loop self it w
        = (Ok (Some (PyDevice (dev_sys_path d)),
               GenSuspended self (LI_yielded (entries (d :: ds)))), w')
        ∧ quiet w w'.
Proof.
  intros Hs Hc Hd (t & Hdec & Henc)%roundtrips_inv Hp.
  assert (∃ w0, quiet w w0 ∧ ∀ A (k : _ → M A),
            bind (util.udev_list_iterate_next it) k w
            = bind (util.visit (entries (d :: ds))) k w0) as (w0 & Hq0 & E).
  { destruct it as [l|l]; simpl in Hp; subst.
    - exists w. split; [apply quiet_refl|done].
    - exists (log list_entry_get_next_call w). split; [apply quiet_log|].
      intros A k. simpl. unfold libudev.udev_list_entry_get_next.
      unfold bind, modify, ret. cbv beta iota. by rewrite Hp. }
  unfold Enumerator.loop. rewrite E. clear E.
  change (entries (d :: ds)) with ((dev_sys_path d, EmptyString) :: entries ds).
  unfold util.visit, libudev.udev_list_entry_get_name,
    libudev.udev_list_entry_get_value, util.ensure_unicode_string.
  unfold bind, modify, ret. cbv beta iota. cbn [fst snd]. rewrite Hdec.
  cbv beta iota.
  set (w1 := log list_entry_get_value_call (log list_entry_get_name_call w0)).
  assert (quiet w w1) as Hq1.
  { eapply quiet_trans; [done|]. eapply quiet_trans; apply quiet_log. }
  destruct Hq1 as (Hreg & Hu & He & Hh).
  rewrite (getattr_context_set w1 self (PyRef c) p) by congruence.
  rewrite (Device_from_sys_path_found c hu t d w1); [| |by rewrite Hreg|done].
  2:{ unfold ctx_owns. by rewrite Hh. }
  eexists. split; [reflexivity|].
  eapply quiet_trans; [|apply quiet_log]. by repeat split.
Qed.

Lemma loop_ends self it w :
  pending it = [] →
  ∃ w', Enumerator.loop self it w = (Ok (None, GenFinished), w') ∧ quiet w w'.
Proof.
  intros Hp. destruct it as [l|l]; simpl in Hp; subst.
  - exists w. split; [done|apply quiet_refl].
  - exists (log list_entry_get_next_call w). split; [|apply quiet_log].
    unfold Enumerator.loop. simpl. unfold bind, modify. simpl. by rewrite Hp.
Qed.

Lemma take_suspended self c p hu (ds : list device) :
  ∀ it n w,
    heap w !! self = Some (EnumeratorObj (Some (PyRef c)) p) →
    ctx_owns w c hu →
    Forall (λ d, d ∈ registry w ∧ roundtrips (dev_sys_path d) = true) ds →
    pending it = entries ds → length ds < n →
    ∃ w', take n (GenSuspended self it) w
          = (Ok (map (λ d, PyDevice (dev_sys_path d)) ds, GenFinished), w')
          ∧ quiet w w'.
Proof.
  induction ds as [|d ds IH]; intros it n w Hs Hc Hall Hp Hn.
  - destruct n as [|n]; [simpl in Hn; lia|].
    destruct (loop_ends self it w Hp) as (w' & E & Hq).
    exists w'. split; [|done]. simpl. unfold bind. by rewrite E.
  - destruct n as [|n]; [simpl in Hn; lia|].
    apply Forall_cons in Hall as [[Hd Hr] Hall].
    destruct (loop_yields self c p hu it d ds w Hs Hc Hd Hr Hp) as (w1 & E & Hq).
    pose proof Hq as (Hreg & Hu & He & Hh).
    destruct (IH (LI_yielded (entries (d :: ds))) n w1) as (w' & E' & Hq').
    + by rewrite Hh.
    + unfold ctx_owns. by rewrite Hh.
    + by rewrite Hreg.
    + done.
    + simpl in Hn. lia.
    + exists w'. split; [|by eapply quiet_trans].
      simpl. unfold bind at 1. rewrite E. unfold bind. by rewrite E'.
Qed.

Lemma take_created self c h hu e n w :
  heap w !! self = Some (EnumeratorObj (Some (PyRef c)) (Some h)) →
  ctx_owns w c hu → enumerates w !! h = Some e →
  forallb (λ d, roundtrips (dev_sys_path d)) (registry w) = true →
  length (registry w) < n →
  ∃ w', take n (GenCreated self) w
        = (Ok (yielded (en_filters e) (registry w), GenFinished), w')
        ∧ registry w' = registry w ∧ heap w' = heap w ∧ udevs w' = udevs w.
Proof.
  intros Hs Hc He Hall Hn.
  destruct n as [|n]; [lia|].
  set (ds := filter (λ d, passes (en_filters e) d = true) (registry w)).
  set (w1 := log (get_list_entry_call h) (log (scan_devices_call h)
               (set_enumerates
                  (alter (λ e0, set_devices (scan (registry w) (en_filters e0)) e0) h) w))).
  assert (take (S n) (GenCreated self) w
          = take (S n) (GenSuspended self (LI_start (entries ds))) w1) as ->.
  { assert (en_owns w self h) as Ho by by eexists.
    simpl. unfold bind at 1 2 3. rewrite (scan_devices_owns _ _ _ Ho).
    rewrite (get_list_entry_owns _ self h) by (by eexists).
    cbn [enumerates set_enumerates log]. rewrite lookup_alter_eq, He.
    reflexivity. }
  destruct (take_suspended self c (Some h) hu ds (LI_start (entries ds)) (S n) w1)
    as (w' & E & Hq).
  - done.
  - done.
  - apply Forall_forall. intros d Hd. subst ds.
    apply list_elem_of_filter in Hd as [_ Hd]. split; [done|].
    rewrite forallb_forall in Hall. apply Hall. by apply list_elem_of_In.
  - done.
  - assert (length ds ≤ length (registry w))%nat by apply length_filter. lia.
  - exists w'. split; [done|]. destruct Hq as (-> & -> & _ & ->). done.
Qed.

Lemma match_subsystem_bytes self h b w :
  en_owns w self h →
  Enumerator.match_subsystem self (PyBytes b) w
  = (Ok (PyRef self), added (P_subsystem b) h w).
Proof.
  intros Ho. unfold Enumerator.match_subsystem,
    libudev.udev_enumerate_add_match_subsystem. simpl.
  rewrite bind_ret_l. unfold bind. by rewrite (add_match_owns _ _ _ _ Ho).
Qed.

Lemma match_property_bytes self h k v w :
  en_owns w self h →
  Enumerator.match_property self (PyBytes k) (PyBytes v) w
  = (Ok (PyRef self), added (P_property k v) h w).
Proof.
  intros Ho. unfold Enumerator.match_property,
    libudev.udev_enumerate_add_match_property. simpl.
  rewrite !bind_ret_l. unfold bind. by rewrite (add_match_owns _ _ _ _ Ho).
Qed.

Lemma added_enumerates p h e w :
  enumerates w !! h = Some e → enumerates (added p h w) !! h = Some (add_filter p e).
Proof. intros He. simpl. by rewrite lookup_alter_eq, He. Qed.

Lemma yielded_block_disk reg :
  yielded [P_subsystem "block"; P_property "ID_TYPE" "disk";
           P_property "DEVTYPE" "disk"] reg
  = map (λ d, PyDevice (dev_sys_path d)) (filter block_disk reg).
Proof.
  unfold yielded. f_equal. apply list_filter_iff. intros d.
  apply passes_block_disk.
Qed.

Lemma take_block_disk self c h hu e n w :
  heap w !! self = Some (EnumeratorObj (Some (PyRef c)) (Some h)) →
  ctx_owns w c hu → enumerates w !! h = Some e → en_filters e = [] →
  forallb (λ d, roundtrips (dev_sys_path d)) (registry w) = true →
  length (registry w) < n →
  ∃ w', (Enumerator.match_subsystem self (PyBytes "block");;
         Enumerator.match_property self (PyBytes "ID_TYPE") (PyBytes "disk");;
         Enumerator.match_property self (PyBytes "DEVTYPE") (PyBytes "disk");;
         let* g := Enumerator.__iter__ self in take n g) w
        = (Ok (map (λ d, PyDevice (dev_sys_path d)) (filter block_disk (registry w)),
               GenFinished), w').
Proof.
  intros Hs Hc He Hfs Hall Hn.
  assert (∀ w0, heap w0 = heap w → en_owns w0 self h) as Ho.
  { intros w0 E. exists (Some (PyRef c)). by rewrite E. }
  unfold bind at 1. rewrite (match_subsystem_bytes self h) by by apply Ho.
  unfold bind at 1. rewrite (match_property_bytes self h) by by apply Ho.
  unfold bind at 1. rewrite (match_property_bytes self h) by by apply Ho.
  unfold Enumerator.__iter__. rewrite bind_ret_l.
  set (w3 := added _ h (added _ h (added _ h w))).
  destruct (take_created self c h hu
              (add_filter (P_property "DEVTYPE" "disk")
                 (add_filter (P_property "ID_TYPE" "disk")
                    (add_filter (P_subsystem "block") e))) n w3)
    as (w' & E & _); try done.
  - subst w3. by do 3 apply added_enumerates.
  - exists w'. rewrite E. simpl. rewrite Hfs. simpl.
    by rewrite yielded_block_disk.
Qed.

End iteration_facts.

(** ** Frames of the operations *)

Lemma steady_refl P w : steady P w w.
Proof.
  do 4 (split; [done|]). exists []. by rewrite app_nil_r.
Qed.

Lemma steady_trans P w1 w2 w3 : steady P w1 w2 → steady P w2 w3 → steady P w1 w3.
Proof.
  intros (Hh & Hu & Hr & He & t & Ht & HP) (Hh' & Hu' & Hr' & He' & t' & Ht' & HP').
  split; [congruence|]. split; [congruence|]. split; [congruence|]. split.
  - intros h. by rewrite He', He.
  - exists (t ++ t'). split.
    + by rewrite Ht', Ht, app_assoc.
    + by rewrite forallb_app, HP, HP'.
Qed.

Lemma steady_weaken (P Q : native_call → bool) w w' :
  (∀ c, P c = true → Q c = true) → steady P w w' → steady Q w w'.
Proof.
  intros HPQ (Hh & Hu & Hr & He & t & Ht & HP). do 4 (split; [done|]).
  exists t. split; [done|]. rewrite forallb_forall in *. auto.
Qed.

Lemma steady_log (P : native_call → bool) c w : P c = true → steady P w (log c w).
Proof.
  intros Hc. do 4 (split; [done|]). exists [c]. split; [done|]. simpl. by rewrite Hc.
Qed.

Lemma frame_ret {A} P (a : A) : frame (steady P) (ret a).
Proof. intros w. apply steady_refl. Qed.

Lemma frame_raise {A} P e : frame (steady P) (raise (A := A) e).
Proof. intros w. apply steady_refl. Qed.

Lemma frame_bind {A B} P (m : M A) (k : A → M B) :
  frame (steady P) m → (∀ a, frame (steady P) (k a)) → frame (steady P) (bind m k).
Proof.
  intros Hm Hk w. unfold bind. specialize (Hm w).
  destruct (m w) as [[a|e] w0]; [|done].
  eapply steady_trans; [exact Hm|apply Hk].
Qed.

Lemma frame_get_bind {A} P (k : world → M A) :
  (∀ w0, frame (steady P) (k w0)) → frame (steady P) (bind get k).
Proof. intros Hk w. unfold bind, get. apply Hk. Qed.

Lemma frame_log (P : native_call → bool) c :
  P c = true → frame (steady P) (modify (log c)).
Proof. intros Hc w. by apply steady_log. Qed.

Lemma frame_weaken {A} (P Q : native_call → bool) (m : M A) :
  (∀ c, P c = true → Q c = true) → frame (steady P) m → frame (steady Q) m.
Proof. intros HPQ Hm w. eapply steady_weaken; [exact HPQ|apply Hm]. Qed.

Lemma frame_as_enumerate P v : frame (steady P) (as_enumerate v).
Proof.
  intros w. unfold as_enumerate, bind, get.
  destruct v; try apply steady_refl.
  destruct (heap w !! r) as [[?|? [?|]]|]; apply steady_refl.
Qed.

Lemma frame_as_udev P v : frame (steady P) (as_udev v).
Proof.
  intros w. unfold as_udev, bind, get.
  destruct v; try apply steady_refl.
  destruct (heap w !! r) as [[[?|]|? ?]|]; apply steady_refl.
Qed.

Lemma frame_as_device P v : frame (steady P) (as_device v).
Proof. intros w. destruct v; apply steady_refl. Qed.

Lemma frame_getattr_context P self : frame (steady P) (getattr_context self).
Proof.
  intros w. unfold getattr_context, bind, get.
  destruct (heap w !! self) as [[?|[?|] ?]|]; apply steady_refl.
Qed.

Lemma refs_of_alter f h w h' :
  (∀ e, en_refs (f e) = en_refs e) →
  refs_of (set_enumerates (alter f h) w) h' = refs_of w h'.
Proof.
  intros Hf. unfold refs_of. simpl.
  destruct (decide (h = h')) as [->|Hne].
  - rewrite lookup_alter_eq. destruct (enumerates w !! h'); simpl; [|done].
    by rewrite Hf.
  - by rewrite lookup_alter_ne.
Qed.

Lemma frame_alter_enumerate P f h :
  (∀ e, en_refs (f e) = en_refs e) →
  frame (steady P) (modify (set_enumerates (alter f h))).
Proof.
  intros Hf w. do 3 (split; [done|]). split.
  - intros h'. by apply refs_of_alter.
  - exists []. by rewrite app_nil_r.
Qed.

Lemma frame_when {A} P c (m : M A) :
  frame (steady P) m → frame (steady P) (when c m).
Proof.
  intros Hm. unfold when. destruct c; [|apply frame_ret].
  apply frame_bind; [done|intros; apply frame_ret].
Qed.

Lemma frame_for_each {A} P (l : list A) (body : A → M unit) :
  (∀ x, frame (steady P) (body x)) → frame (steady P) (for_each l body).
Proof.
  intros Hb. induction l as [|x l IH]; simpl; [apply frame_ret|].
  apply frame_bind; [apply Hb|by intros].
Qed.

Lemma frame_bind_post {A B} P (Q : A → Prop) (m : M A) (k : A → M B) :
  frame (steady P) m →
  (∀ w a w', m w = (Ok a, w') → Q a) →
  (∀ a, Q a → frame (steady P) (k a)) →
  frame (steady P) (bind m k).
Proof.
  intros Hm HQ Hk w. unfold bind. specialize (Hm w). specialize (HQ w).
  destruct (m w) as [[a|e] w0]; [|done].
  eapply steady_trans; [exact Hm|]. apply Hk. by eapply HQ.
Qed.

Lemma frame_add_match en p : frame (steady is_match_call) (libudev.add_match en p).
Proof.
  unfold libudev.add_match. apply frame_bind; [apply frame_as_enumerate|intros h].
  apply frame_bind; [by apply frame_alter_enumerate|intros _].
  by apply frame_log.
Qed.

Lemma frame_add_match_parent en parent :
  frame (steady is_match_call) (libudev.udev_enumerate_add_match_parent en parent).
Proof.
  unfold libudev.udev_enumerate_add_match_parent.
  apply frame_bind; [apply frame_as_enumerate|intros h].
  apply frame_bind; [apply frame_as_device|intros p].
  apply frame_bind; [by apply frame_alter_enumerate|intros _].
  by apply frame_log.
Qed.

Lemma frame_scan_devices en :
  frame (steady is_scan_call) (libudev.udev_enumerate_scan_devices en).
Proof.
  unfold libudev.udev_enumerate_scan_devices.
  apply frame_bind; [apply frame_as_enumerate|intros h].
  apply frame_get_bind. intros w0.
  apply frame_bind; [by apply frame_alter_enumerate|intros _].
  by apply frame_log.
Qed.

Lemma frame_get_list_entry en :
  frame (steady is_scan_call) (libudev.udev_enumerate_get_list_entry en).
Proof.
  unfold libudev.udev_enumerate_get_list_entry.
  apply frame_bind; [apply frame_as_enumerate|intros h].
  apply frame_get_bind. intros w0.
  apply frame_bind; [by apply frame_log|intros _]. apply frame_ret.
Qed.

Lemma frame_device_new_from_syspath ctx p :
  frame (steady is_walk_call) (libudev.udev_device_new_from_syspath ctx p).
Proof.
  unfold libudev.udev_device_new_from_syspath.
  apply frame_bind; [apply frame_as_udev|intros h].
  apply frame_get_bind. intros w0.
  apply frame_bind; [by apply frame_log|intros _]. apply frame_ret.
Qed.

Section frame_facts.
Context `{Platform}.

Lemma frame_ensure_byte_string P v : frame (steady P) (util.ensure_byte_string v).
Proof.
  intros w. destruct v; simpl; try apply steady_refl.
  destruct (fs_encode t); apply steady_refl.
Qed.

Lemma frame_property_value_to_bytes P v :
  frame (steady P) (util.property_value_to_bytes v).
Proof.
  destruct v; cbv beta iota delta [util.property_value_to_bytes];
    try apply frame_ensure_byte_string. apply frame_ret.
Qed.

Lemma frame_ensure_unicode_string P s : frame (steady P) (util.ensure_unicode_string s).
Proof.
  intros w. unfold util.ensure_unicode_string.
  destruct (fs_decode s); apply steady_refl.
Qed.

Ltac frame_step :=
  first
    [ apply frame_ret
    | apply frame_raise
    | apply frame_add_match
    | apply frame_add_match_parent
    | apply frame_ensure_byte_string
    | apply frame_property_value_to_bytes
    | apply frame_ensure_unicode_string
    | apply frame_device_new_from_syspath
    | apply frame_getattr_context
    | by apply frame_log
    | apply frame_bind; [|intros ?] ].

Lemma frame_call_single self op :
  (∀ kw, op ≠ Op_match kw) → frame (steady is_match_call) (call_filter self op).
Proof.
  intros Hop. destruct op; simpl; [by destruct (Hop kw)|..];
    unfold Enumerator.match_subsystem, Enumerator.match_sys_name,
      Enumerator.match_property, Enumerator.match_attribute,
      Enumerator.match_tag, Enumerator.match_is_initialized,
      Enumerator.match_parent,
      libudev.udev_enumerate_add_match_subsystem,
      libudev.udev_enumerate_add_match_sysname,
      libudev.udev_enumerate_add_match_property,
      libudev.udev_enumerate_add_match_sysattr,
      libudev.udev_enumerate_add_match_tag,
      libudev.udev_enumerate_add_match_is_initialized;
    repeat frame_step.
Qed.

Lemma frame_match self (kw : kwargs) :
  frame (steady is_match_call) (Enumerator.match_ self kw).
Proof.
  unfold Enumerator.match_, dict_pop. cbv beta iota.
  apply frame_bind;
    [apply frame_when, (frame_call_single self (Op_match_subsystem _)); done|intros _].
  apply frame_bind;
    [apply frame_when, (frame_call_single self (Op_match_sys_name _)); done|intros _].
  apply frame_bind;
    [apply frame_when, (frame_call_single self (Op_match_tag _)); done|intros _].
  apply frame_bind;
    [apply frame_when, (frame_call_single self (Op_match_parent _)); done|intros _].
  apply frame_bind; [|intros _; apply frame_ret].
  apply frame_for_each. intros [k v].
  apply frame_bind; [|intros _; apply frame_ret].
  by apply (frame_call_single self (Op_match_property _ _)).
Qed.

Lemma frame_call_filter self op :
  frame (steady is_match_call) (call_filter self op).
Proof.
  destruct op; try (by apply frame_call_single). apply frame_match.
Qed.

Lemma frame_visit entry : frame (steady is_walk_call) (util.visit entry).
Proof.
  destruct entry as [|e0 entry]; simpl; [apply frame_ret|].
  unfold libudev.udev_list_entry_get_name, libudev.udev_list_entry_get_value.
  repeat frame_step.
Qed.

Lemma frame_loop self it : frame (steady is_walk_call) (Enumerator.loop self it).
Proof.
  unfold Enumerator.loop. apply frame_bind.
  - destruct it; simpl; [apply frame_visit|].
    unfold libudev.udev_list_entry_get_next.
    apply frame_bind; [|intros ?; apply frame_visit]. repeat frame_step.
  - intros [[[name value] it']|]; [|apply frame_ret].
    unfold util.Device_from_sys_path.
    apply frame_bind; [apply frame_getattr_context|intros ctx].
    apply frame_bind; [|intros ?; apply frame_ret].
    apply frame_bind; [apply frame_ensure_byte_string|intros b].
    apply frame_bind; [apply frame_device_new_from_syspath|intros [p|]];
      [apply frame_ret|apply frame_raise].
Qed.

Lemma loop_started self it w x g w' :
  Enumerator.loop self it w = (Ok (x, g), w') → started g = true.
Proof.
  unfold Enumerator.loop. intros (y & w0 & _ & E)%bind_inv.
  destruct y as [[[name value] it']|].
  - apply bind_inv in E as (ctx & w1 & _ & E).
    apply bind_inv in E as (d & w2 & _ & E). unfold ret in E. by simplify_eq.
  - unfold ret in E. by simplify_eq.
Qed.

Lemma next_started g w x g' w' :
  Enumerator.next g w = (Ok (x, g'), w') → started g' = true.
Proof.
  destruct g as [self|self it|]; simpl.
  - intros (? & ? & _ & E)%bind_inv. apply bind_inv in E as (? & ? & _ & E).
    by eapply loop_started.
  - apply loop_started.
  - unfold ret. intros ?. by simplify_eq.
Qed.

Lemma frame_next_started g :
  started g = true → frame (steady is_walk_call) (Enumerator.next g).
Proof.
  destruct g as [self|self it|]; [done|intros _..]; simpl.
  - apply frame_loop.
  - apply frame_ret.
Qed.

Lemma frame_take_started n :
  ∀ g, started g = true → frame (steady is_walk_call) (take n g).
Proof.
  induction n as [|n IH]; intros g Hg; simpl; [apply frame_ret|].
  apply (frame_bind_post _ (λ r, started (snd r) = true)).
  - by apply frame_next_started.
  - intros w [x g'] w' E. simpl. by eapply next_started.
  - intros [[d|] g'] Hg'; simpl in Hg'; [|apply frame_ret].
    apply frame_bind; [by apply IH|intros ?; apply frame_ret].
Qed.

End frame_facts.

(** ** Construction, case by case *)

Lemma Context_new_world w :
  Context.new w
  = (Ok (fresh (dom (heap w))),
     World (registry w) (<[fresh (dom (udevs w)) := 1]> (udevs w)) (enumerates w)
       (<[fresh (dom (heap w)) := ContextObj (Some (fresh (dom (udevs w))))]> (heap w))
       (trace w ++ [udev_new_call (fresh (dom (udevs w)))])).
Proof.
  unfold Context.new, Context.__init__, alloc, libudev.udev_new, setattr.
  unfold bind, get, modify, ret, set_heap, set_udevs, log. simpl.
  by rewrite alter_insert_eq.
Qed.

Lemma Enumerator_new_invalid c w :
  heap w !! c = Some (ContextObj None) →
  Enumerator.new (PyRef c) w
  = (Raise InvalidArgument,
     set_heap (insert (fresh (dom (heap w))) (EnumeratorObj (Some (PyRef c)) None)) w).
Proof.
  intros Hc. set (r := fresh (dom (heap w))).
  assert (c ≠ r) as Hne.
  { intros ->. assert (heap w !! r = None) as E; [|congruence].
    apply not_elem_of_dom, is_fresh. }
  unfold Enumerator.new, Enumerator.__init__, alloc, isinstance_Context,
    libudev.udev_enumerate_new, as_udev, setattr.
  unfold bind, get, modify, ret, set_heap, set_enumerates, log. simpl. fold r.
  rewrite lookup_insert_ne by done. rewrite Hc. simpl.
  rewrite alter_insert_eq. simpl.
  rewrite lookup_insert_ne by done. by rewrite Hc.
Qed.

Lemma Enumerator_new_world c hu w :
  ctx_owns w c hu →
  Enumerator.new (PyRef c) w
  = (Ok (fresh (dom (heap w))),
     World (registry w) (udevs w)
       (<[fresh (dom (enumerates w)) := UdevEnumerate 1 hu [] []]> (enumerates w))
       (<[fresh (dom (heap w)) :=
            EnumeratorObj (Some (PyRef c)) (Some (fresh (dom (enumerates w))))]> (heap w))
       (trace w ++ [enumerate_new_call hu (fresh (dom (enumerates w)))])).
Proof.
  intros Hc. unfold ctx_owns in Hc. set (r := fresh (dom (heap w))).
  assert (c ≠ r) as Hne.
  { intros ->. assert (heap w !! r = None) as E; [|congruence].
    apply not_elem_of_dom, is_fresh. }
  unfold Enumerator.new, Enumerator.__init__, alloc, isinstance_Context,
    libudev.udev_enumerate_new, as_udev, setattr.
  unfold bind, get, modify, ret, set_heap, set_enumerates, log. simpl. fold r.
  rewrite lookup_insert_ne by done. rewrite Hc. simpl.
  rewrite alter_insert_eq. simpl.
  rewrite lookup_insert_ne by done. rewrite Hc. simpl.
  by rewrite alter_insert_eq.
Qed.

(** The three ways a construction can go. *)
Lemma Enumerator_new_cases arg w :
  (is_Context w arg = false
   ∧ Enumerator.new arg w
     = (Raise (TypeError "Invalid context object"),
        set_heap (insert (fresh (dom (heap w))) (EnumeratorObj None None)) w))
  ∨ (∃ c, arg = PyRef c ∧ heap w !! c = Some (ContextObj None)
      ∧ Enumerator.new arg w
        = (Raise InvalidArgument,
           set_heap (insert (fresh (dom (heap w)))
                       (EnumeratorObj (Some (PyRef c)) None)) w))
  ∨ (∃ c hu, arg = PyRef c ∧ ctx_owns w c hu
      ∧ Enumerator.new arg w
        = (Ok (fresh (dom (heap w))),
           World (registry w) (udevs w)
             (<[fresh (dom (enumerates w)) := UdevEnumerate 1 hu [] []]> (enumerates w))
             (<[fresh (dom (heap w)) :=
                  EnumeratorObj (Some (PyRef c)) (Some (fresh (dom (enumerates w))))]>
                (heap w))
             (trace w ++ [enumerate_new_call hu (fresh (dom (enumerates w)))]))).
Proof.
  destruct (is_Context w arg) eqn:Hc.
  - right. destruct arg as [| | | | |c|]; try done. simpl in Hc.
    destruct (heap w !! c) as [[[hu|]|]|] eqn:E; try done.
    + right. exists c, hu. split; [done|]. split; [done|].
      by apply Enumerator_new_world.
    + left. exists c. split; [done|]. split; [done|].
      by apply Enumerator_new_invalid.
  - left. split; [done|]. by apply Enumerator_new_rejects.
Qed.

Lemma Enumerator_new_no_scan arg w :
  scan_calls (trace (snd (Enumerator.new arg w))) = scan_calls (trace w).
Proof.
  destruct (Enumerator_new_cases arg w)
    as [[_ ->]|[(c & _ & _ & ->)|(c & hu & _ & _ & ->)]]; try done.
  simpl. unfold scan_calls. rewrite List.filter_app. simpl. by rewrite app_nil_r.
Qed.

Lemma walk_no_scan t : forallb is_walk_call t = true → scan_calls t = [].
Proof.
  induction t as [|c t IH]; [done|]. simpl. intros [Hc Ht]%andb_true_iff.
  destruct c; try done; by apply IH.
Qed.

Lemma scanned_scan_calls h w w' :
  scanned h w w' →
  scan_calls (trace w')
  = scan_calls (trace w) ++ [scan_devices_call h; get_list_entry_call h].
Proof.
  intros (_ & rest & -> & Hw). unfold scan_calls.
  rewrite List.filter_app. simpl. f_equal. f_equal. f_equal.
  by apply walk_no_scan.
Qed.

Lemma scanned_owns h w w' self h' :
  scanned h w w' → en_owns w self h' → en_owns w' self h'.
Proof. intros (Hh & _) Ho. unfold en_owns. by rewrite Hh. Qed.

Section scan_facts.
Context `{Platform}.

Lemma next_created_loop self h w :
  en_owns w self h →
  Enumerator.next (GenCreated self) w
  = Enumerator.loop self
      (LI_start (match enumerates
                         (log (scan_devices_call h)
                            (set_enumerates
                               (alter (λ e, set_devices (scan (registry w) (en_filters e)) e) h)
                               w)) !! h with
                 | Some e => en_devices e
                 | None => []
                 end))
      (log (get_list_entry_call h)
         (log (scan_devices_call h)
            (set_enumerates
               (alter (λ e, set_devices (scan (registry w) (en_filters e)) e) h) w))).
Proof.
  intros Ho. simpl. unfold bind at 1. rewrite (scan_devices_owns _ _ _ Ho).
  cbv beta iota.
  unfold bind at 1. by rewrite (get_list_entry_owns _ self h) by done.
Qed.

Lemma scanned_steady h w w1 w2 :
  scanned h w w1 → steady is_walk_call w1 w2 → scanned h w w2.
Proof.
  intros (Hh & t1 & Ht1 & Hw1) (Hh' & _ & _ & _ & t2 & Ht2 & Hw2).
  split; [congruence|]. exists (t1 ++ t2). split.
  - rewrite Ht2, Ht1. by rewrite <- app_assoc.
  - by rewrite forallb_app, Hw1, Hw2.
Qed.

Lemma next_created_scanned self h w :
  en_owns w self h → scanned h w (snd (Enumerator.next (GenCreated self) w)).
Proof.
  intros Ho. rewrite (next_created_loop self h w Ho).
  eapply scanned_steady; [|apply frame_loop].
  split; [done|]. exists []. split; [|done]. simpl. by rewrite <- !app_assoc.
Qed.

Lemma take_created_scanned self h n w :
  en_owns w self h → 0 < n → scanned h w (snd (take n (GenCreated self) w)).
Proof.
  intros Ho Hn. destruct n as [|n]; [lia|].
  pose proof (next_created_scanned self h w Ho) as Hs.
  cbn [take]. unfold bind at 1.
  destruct (Enumerator.next (GenCreated self) w) as [[[[d|] g']|e] w1] eqn:E;
    simpl in Hs; try done.
  apply next_started in E.
  eapply scanned_steady; [exact Hs|].
  apply (frame_bind _ (take n g') (λ r, ret (d :: r.1, r.2))).
  - by apply frame_take_started.
  - intros r. apply frame_ret.
Qed.

End scan_facts.

(** ** The books of native handles *)

Lemma count_app P t t' : count P (t ++ t') = count P t + count P t'.
Proof. unfold count. by rewrite List.filter_app, length_app. Qed.

Lemma count_snoc P t c : count P (t ++ [c]) = count P t + (if P c then 1 else 0).
Proof. rewrite count_app. unfold count. simpl. by destruct (P c). Qed.

Lemma count_none (P Q : native_call → bool) t :
  forallb P t = true → (∀ c, P c = true → Q c = false) → count Q t = 0.
Proof.
  intros Ht HPQ. unfold count. induction t as [|c t IH]; [done|].
  simpl in *. apply andb_true_iff in Ht as [Hc Ht].
  rewrite (HPQ c Hc). by apply IH.
Qed.

Section ledger_facts.
Variables (refs refs' : handle → option nat).
Variables (owns owns' : objref → handle → Prop).
Variables (acq acq' rel rel' : handle → nat).
Hypothesis books : ledger refs owns acq rel.

(** Nothing that the books record changed. *)
Lemma ledger_same :
  (∀ h, refs' h = refs h) → (∀ r h, owns' r h ↔ owns r h) →
  (∀ h, acq' h = acq h) → (∀ h, rel' h = rel h) →
  ledger refs' owns' acq' rel'.
Proof.
  destruct books as (Hlive & Huniq & Hdead & Hnone).
  intros Er Eo Ea El. split; [|split; [|split]].
  - intros r h Hr%Eo. rewrite Er, Ea, El. by eapply Hlive.
  - intros r r' h Hr Hr'. apply Eo in Hr, Hr'. by eapply Huniq.
  - intros h n Hn Hno. rewrite Er in Hn. rewrite Ea, El.
    apply Hdead; [done|]. intros r Hr. apply (Hno r). by apply Eo.
  - intros h Hn. rewrite Er in Hn. rewrite Ea, El. by apply Hnone.
Qed.

(** The instance [r0], which held nothing, acquires the new handle [h0]. *)
Lemma ledger_acquire r0 h0 :
  refs h0 = None → (∀ h, ¬ owns r0 h) →
  (∀ h, refs' h = if decide (h = h0) then Some 1 else refs h) →
  (∀ r h, owns' r h ↔ (r = r0 ∧ h = h0) ∨ owns r h) →
  (∀ h, acq' h = if decide (h = h0) then S (acq h) else acq h) →
  (∀ h, rel' h = rel h) →
  ledger refs' owns' acq' rel'.
Proof.
  destruct books as (Hlive & Huniq & Hdead & Hnone).
  intros Hnew Hr0 Er Eo Ea El.
  assert (∀ r h, owns r h → h ≠ h0) as Hold.
  { intros r h Hr ->. destruct (Hlive r h0 Hr) as (E & _). congruence. }
  split; [|split; [|split]].
  - intros r h [[-> ->]|Hr]%Eo.
    + rewrite Er, Ea, El. rewrite !decide_True by done.
      destruct (Hnone h0 Hnew) as [-> ->]. done.
    + rewrite Er, Ea, El. rewrite !decide_False by by eapply Hold.
      by eapply Hlive.
  - intros r r' h [[-> ->]|Hr]%Eo [[-> E]|Hr']%Eo; try done.
    + by destruct (Hold r' h0 Hr').
    + subst. by destruct (Hold r h0 Hr).
    + by eapply Huniq.
  - intros h n Hn Hno. rewrite Er in Hn. rewrite Ea, El.
    destruct (decide (h = h0)) as [->|Hne].
    + destruct (Hno r0). apply Eo. by left.
    + apply Hdead; [done|]. intros r Hr. apply (Hno r), Eo. by right.
  - intros h Hn. rewrite Er in Hn. rewrite Ea, El.
    destruct (decide (h = h0)); [done|]. by apply Hnone.
Qed.

(** The instance [r0] gives up the handle [h0] it held. *)
Lemma ledger_release r0 h0 :
  owns r0 h0 → (∀ h, owns r0 h → h = h0) →
  (∀ h, refs' h = if decide (h = h0) then Nat.pred <$> refs h else refs h) →
  (∀ r h, owns' r h ↔ owns r h ∧ r ≠ r0) →
  (∀ h, acq' h = acq h) →
  (∀ h, rel' h = if decide (h = h0) then S (rel h) else rel h) →
  ledger refs' owns' acq' rel'.
Proof.
  destruct books as (Hlive & Huniq & Hdead & Hnone).
  intros Hr0 Hfun Er Eo Ea El.
  assert (∀ r h, owns r h → r ≠ r0 → h ≠ h0) as Hother.
  { intros r h Hr Hne ->. apply Hne. by eapply Huniq. }
  split; [|split; [|split]].
  - intros r h [Hr Hne]%Eo. rewrite Er, Ea, El.
    rewrite !decide_False by by eapply Hother. by eapply Hlive.
  - intros r r' h [Hr _]%Eo [Hr' _]%Eo. by eapply Huniq.
  - intros h n Hn Hno. rewrite Er in Hn. rewrite Ea, El.
    destruct (decide (h = h0)) as [->|Hne].
    + destruct (Hlive r0 h0 Hr0) as (E & -> & ->). rewrite E in Hn.
      simpl in Hn. by simplify_eq.
    + apply Hdead; [done|]. intros r Hr.
      destruct (decide (r = r0)) as [->|Hr'].
      * by apply Hne, Hfun.
      * apply (Hno r), Eo. done.
  - intros h Hn. rewrite Er in Hn. rewrite Ea, El.
    destruct (decide (h = h0)) as [->|Hne]; [|by apply Hnone].
    destruct (Hlive r0 h0 Hr0) as (E & _). rewrite E in Hn. done.
Qed.

End ledger_facts.

Lemma lifecycle_free c h :
  is_lifecycle_call c = false →
  acquires_udev h c = false ∧ releases_udev h c = false
  ∧ acquires_enumerate h c = false ∧ releases_enumerate h c = false.
Proof. by destruct c. Qed.

Lemma count_steady (P Q : native_call → bool) w w' :
  steady P w w' → (∀ c, P c = true → Q c = false) →
  count Q (trace w') = count Q (trace w).
Proof.
  intros (_ & _ & _ & _ & t & -> & Ht) HPQ.
  rewrite count_app, (count_none P Q t) by done. lia.
Qed.

Lemma accounted_steady P w w' :
  (∀ c, P c = true → is_lifecycle_call c = false) →
  steady P w w' → accounted w → accounted w'.
Proof.
  intros HP Hs [Hu He]. pose proof Hs as (Hh & Hud & _ & Hrefs & _).
  split.
  - eapply ledger_same; [exact Hu|..].
    + intros h. by rewrite Hud.
    + intros r h. unfold ctx_owns. by rewrite Hh.
    + intros h. apply (count_steady P); [done|].
      intros c Hc. by apply lifecycle_free, HP.
    + intros h. apply (count_steady P); [done|].
      intros c Hc. by apply lifecycle_free, HP.
  - eapply ledger_same; [exact He|..].
    + done.
    + intros r h. unfold en_owns. by rewrite Hh.
    + intros h. apply (count_steady P); [done|].
      intros c Hc. by apply lifecycle_free, HP.
    + intros h. apply (count_steady P); [done|].
      intros c Hc. by apply lifecycle_free, HP.
Qed.

Lemma ctx_owns_insert w w' r0 o r h :
  heap w !! r0 = None → heap w' = <[r0 := o]> (heap w) →
  ctx_owns w' r h ↔ (r = r0 ∧ o = ContextObj (Some h)) ∨ ctx_owns w r h.
Proof.
  intros Hr0 Hh. unfold ctx_owns. rewrite Hh.
  destruct (decide (r = r0)) as [->|Hne].
  - rewrite lookup_insert_eq, Hr0. split.
    + intros ?. left. split; [done|congruence].
    + intros [[_ ->]|?]; done.
  - rewrite lookup_insert_ne by done. split; [by right|].
    by intros [[? _]|?].
Qed.

Lemma en_owns_insert w w' r0 o r h :
  heap w !! r0 = None → heap w' = <[r0 := o]> (heap w) →
  en_owns w' r h ↔ (r = r0 ∧ ∃ c, o = EnumeratorObj c (Some h)) ∨ en_owns w r h.
Proof.
  intros Hr0 Hh. unfold en_owns. rewrite Hh.
  destruct (decide (r = r0)) as [->|Hne].
  - rewrite lookup_insert_eq, Hr0. split.
    + intros [c Hc]. left. split; [done|]. exists c. congruence.
    + intros [[_ [c ->]]|[c ?]]; [by exists c|done].
  - rewrite lookup_insert_ne by done. split; [by right|].
    by intros [[? _]|?].
Qed.

Lemma ctx_owns_delete w w' r0 r h :
  heap w' = delete r0 (heap w) →
  ctx_owns w' r h ↔ ctx_owns w r h ∧ r ≠ r0.
Proof.
  intros Hh. unfold ctx_owns. rewrite Hh.
  destruct (decide (r = r0)) as [->|Hne].
  - rewrite lookup_delete_eq. split; [done|]. by intros [_ ?].
  - rewrite lookup_delete_ne by done. split; [done|]. by intros [? _].
Qed.

Lemma en_owns_delete w w' r0 r h :
  heap w' = delete r0 (heap w) →
  en_owns w' r h ↔ en_owns w r h ∧ r ≠ r0.
Proof.
  intros Hh. unfold en_owns. rewrite Hh.
  destruct (decide (r = r0)) as [->|Hne].
  - rewrite lookup_delete_eq. split; [by intros [? ?]|]. by intros [_ ?].
  - rewrite lookup_delete_ne by done. split; [done|]. by intros [? _].
Qed.

Lemma fresh_heap w : heap w !! fresh (dom (heap w)) = None.
Proof. apply not_elem_of_dom, is_fresh. Qed.

Lemma accounted_Context_new w : accounted w → accounted (snd (Context.new w)).
Proof.
  intros [Hu He]. rewrite Context_new_world. simpl.
  set (r0 := fresh (dom (heap w))). set (h0 := fresh (dom (udevs w))).
  pose proof (fresh_heap w) as Hr0. fold r0 in Hr0.
  split.
  - eapply (ledger_acquire _ _ _ _ _ _ _ _ Hu r0 h0).
    + apply not_elem_of_dom, is_fresh.
    + intros h Hh. unfold ctx_owns in Hh. congruence.
    + intros h. simpl. destruct (decide (h = h0)) as [->|Hne].
      * by rewrite lookup_insert_eq.
      * by rewrite lookup_insert_ne.
    + intros r h. rewrite (ctx_owns_insert w _ r0 (ContextObj (Some h0))) by done.
      split; (intros [[-> E]|?]; [left|by right]); split; congruence.
    + intros h. simpl. rewrite count_snoc. simpl.
      destruct (decide (h = h0)) as [->|Hne].
      * rewrite bool_decide_eq_true_2 by done. lia.
      * rewrite bool_decide_eq_false_2 by done. lia.
    + intros h. simpl. rewrite count_snoc. simpl. lia.
  - eapply (ledger_same _ _ _ _ _ _ _ _ He).
    + done.
    + intros r h. rewrite (en_owns_insert w _ r0 (ContextObj (Some h0))) by done.
      split; [|by right]. by intros [[_ [c ?]]|?].
    + intros h. simpl. rewrite count_snoc. simpl. lia.
    + intros h. simpl. rewrite count_snoc. simpl. lia.
Qed.

Lemma accounted_alloc_bare w o :
  (∀ h, o ≠ ContextObj (Some h)) → (∀ c h, o ≠ EnumeratorObj c (Some h)) →
  accounted w → accounted (set_heap (insert (fresh (dom (heap w))) o) w).
Proof.
  intros Hc He [Lu Le]. pose proof (fresh_heap w) as Hr0. split.
  - eapply (ledger_same _ _ _ _ _ _ _ _ Lu); try done.
    intros r h. rewrite (ctx_owns_insert w _ _ o) by done.
    split; [|by right]. intros [[_ ->]|?]; [by destruct (Hc h)|done].
  - eapply (ledger_same _ _ _ _ _ _ _ _ Le); try done.
    intros r h. rewrite (en_owns_insert w _ _ o) by done.
    split; [|by right]. intros [[_ [c ->]]|?]; [by destruct (He c h)|done].
Qed.

Lemma accounted_delete_bare w r :
  (∀ h, ¬ ctx_owns w r h) → (∀ h, ¬ en_owns w r h) →
  accounted w → accounted (set_heap (delete r) w).
Proof.
  intros Hc He [Lu Le]. split.
  - eapply (ledger_same _ _ _ _ _ _ _ _ Lu); try done.
    intros r' h. rewrite (ctx_owns_delete w _ r) by done.
    split; [by intros [? _]|]. intros Ho. split; [done|].
    intros ->. by apply (Hc h).
  - eapply (ledger_same _ _ _ _ _ _ _ _ Le); try done.
    intros r' h. rewrite (en_owns_delete w _ r) by done.
    split; [by intros [? _]|]. intros Ho. split; [done|].
    intros ->. by apply (He h).
Qed.

Lemma accounted_Enumerator_new arg w :
  accounted w → accounted (snd (Enumerator.new arg w)).
Proof.
  intros Hacc.
  destruct (Enumerator_new_cases arg w)
    as [[_ ->]|[(c & _ & _ & ->)|(c & hu & _ & Hc & ->)]].
  - by apply accounted_alloc_bare.
  - by apply accounted_alloc_bare.
  - destruct Hacc as [Lu Le]. simpl.
    set (r0 := fresh (dom (heap w))). set (h0 := fresh (dom (enumerates w))).
    pose proof (fresh_heap w) as Hr0. fold r0 in Hr0.
    split.
    + eapply (ledger_same _ _ _ _ _ _ _ _ Lu).
      * done.
      * intros r h.
        rewrite (ctx_owns_insert w _ r0 (EnumeratorObj (Some (PyRef c)) (Some h0)))
          by done.
        split; [|by right]. by intros [[_ ?]|?].
      * intros h. simpl. rewrite count_snoc. simpl. lia.
      * intros h. simpl. rewrite count_snoc. simpl. lia.
    + eapply (ledger_acquire _ _ _ _ _ _ _ _ Le r0 h0).
      * unfold refs_of.
        assert (enumerates w !! h0 = None) as ->; [|done].
        apply not_elem_of_dom, is_fresh.
      * intros h [c' Hh]. congruence.
      * intros h. unfold refs_of. simpl.
        destruct (decide (h = h0)) as [->|Hne].
        -- by rewrite lookup_insert_eq.
        -- by rewrite lookup_insert_ne.
      * intros r h.
        rewrite (en_owns_insert w _ r0 (EnumeratorObj (Some (PyRef c)) (Some h0)))
          by done.
        split.
        -- intros [[-> [c' E]]|?]; [left|by right]. split; congruence.
        -- intros [[-> ->]|?]; [left|by right]. split; [done|by eexists].
      * intros h. simpl. rewrite count_snoc. simpl.
        destruct (decide (h = h0)) as [->|Hne].
        -- rewrite bool_decide_eq_true_2 by done. lia.
        -- rewrite bool_decide_eq_false_2 by done. lia.
      * intros h. simpl. rewrite count_snoc. simpl. lia.
Qed.

(** The ways a destruction can go. *)
Lemma finalize_cases r w :
  ((∀ h, ¬ ctx_owns w r h) ∧ (∀ h, ¬ en_owns w r h)
   ∧ finalize r w = (Ok tt, set_heap (delete r) w))
  ∨ (∃ h, ctx_owns w r h
      ∧ finalize r w
        = (Ok tt, set_heap (delete r)
                    (log (udev_unref_call h) (set_udevs (alter Nat.pred h) w))))
  ∨ (∃ h, en_owns w r h
      ∧ finalize r w
        = (Ok tt, set_heap (delete r)
                    (log (enumerate_unref_call h)
                       (set_enumerates (alter unref_enumerate h) w)))).
Proof.
  unfold ctx_owns, en_owns.
  assert (∀ m : M unit,
            (heap w !! r = None → m = ret tt) →
            (∀ p, heap w !! r = Some (ContextObj p) → m = try_ (Context.__del__ r)) →
            (∀ c p, heap w !! r = Some (EnumeratorObj c p)
                    → m = try_ (Enumerator.__del__ r)) →
            finalize r w = (Ok tt, set_heap (delete r) (snd (m w)))) as Hfin.
  { intros m Hn Hc He. unfold finalize, bind, get.
    destruct (heap w !! r) as [[p|c p]|].
    - by rewrite (Hc p).
    - by rewrite (He c p).
    - by rewrite Hn. }
  destruct (heap w !! r) as [[[h|]|c [h|]]|] eqn:E.
  - right. left. exists h. split; [done|].
    rewrite (Hfin (try_ (Context.__del__ r))) by done.
    unfold try_, Context.__del__, libudev.udev_unref, bind.
    by rewrite (as_udev_owns w r h) by done.
  - left. split; [done|]. split; [by intros h [? ?]|].
    rewrite (Hfin (try_ (Context.__del__ r))) by done.
    unfold try_, Context.__del__, libudev.udev_unref, as_udev, bind, get.
    cbv beta iota. by rewrite E.
  - right. right. exists h. split; [by exists c|].
    rewrite (Hfin (try_ (Enumerator.__del__ r))) by done.
    unfold try_, Enumerator.__del__, libudev.udev_enumerate_unref, bind.
    by rewrite (as_enumerate_owns w r h) by by exists c.
  - left. split; [done|]. split; [by intros h [? ?]|].
    rewrite (Hfin (try_ (Enumerator.__del__ r))) by done.
    unfold try_, Enumerator.__del__, libudev.udev_enumerate_unref,
      as_enumerate, bind, get.
    cbv beta iota. by rewrite E.
  - left. split; [done|]. split; [by intros h [? ?]|].
    by rewrite (Hfin (ret tt)).
Qed.

Lemma accounted_finalize r w : accounted w → accounted (snd (finalize r w)).
Proof.
  intros Hacc.
  destruct (finalize_cases r w)
    as [(Hc & He & ->)|[(h0 & Hc & ->)|(h0 & He & ->)]].
  - by apply accounted_delete_bare.
  - destruct Hacc as [Lu Le]. split.
    + eapply (ledger_release _ _ _ _ _ _ _ _ Lu r h0 Hc).
      * intros h Hh. unfold ctx_owns in *. congruence.
      * intros h. simpl. destruct (decide (h = h0)) as [->|Hne].
        -- by rewrite lookup_alter_eq.
        -- by rewrite lookup_alter_ne.
      * intros r' h. by apply ctx_owns_delete.
      * intros h. simpl. rewrite count_snoc. simpl. lia.
      * intros h. simpl. rewrite count_snoc. simpl.
        destruct (decide (h = h0)) as [->|Hne].
        -- rewrite bool_decide_eq_true_2 by done. lia.
        -- rewrite bool_decide_eq_false_2 by done. lia.
    + eapply (ledger_same _ _ _ _ _ _ _ _ Le).
      * done.
      * intros r' h. rewrite (en_owns_delete w _ r) by done.
        split; [by intros [? _]|]. intros Ho. split; [done|].
        intros ->. destruct Ho as [c Ho]. unfold ctx_owns in Hc. congruence.
      * intros h. simpl. rewrite count_snoc. simpl. lia.
      * intros h. simpl. rewrite count_snoc. simpl. lia.
  - destruct Hacc as [Lu Le]. split.
    + eapply (ledger_same _ _ _ _ _ _ _ _ Lu).
      * done.
      * intros r' h. rewrite (ctx_owns_delete w _ r) by done.
        split; [by intros [? _]|]. intros Ho. split; [done|].
        intros ->. destruct He as [c He]. unfold ctx_owns in Ho. congruence.
      * intros h. simpl. rewrite count_snoc. simpl. lia.
      * intros h. simpl. rewrite count_snoc. simpl. lia.
    + eapply (ledger_release _ _ _ _ _ _ _ _ Le r h0 He).
      * intros h [c Hh]. destruct He as [c' He]. congruence.
      * intros h. unfold refs_of. simpl.
        destruct (decide (h = h0)) as [->|Hne].
        -- rewrite lookup_alter_eq. by destruct (enumerates w !! h0).
        -- by rewrite lookup_alter_ne.
      * intros r' h. by apply en_owns_delete.
      * intros h. simpl. rewrite count_snoc. simpl. lia.
      * intros h. simpl. rewrite count_snoc. simpl.
        destruct (decide (h = h0)) as [->|Hne].
        -- rewrite bool_decide_eq_true_2 by done. lia.
        -- rewrite bool_decide_eq_false_2 by done. lia.
Qed.

(** ** The invariant *)

Lemma contexts_initialised_insert w w' r0 o :
  heap w' = <[r0 := o]> (heap w) → o ≠ ContextObj None →
  contexts_initialised w → contexts_initialised w'.
Proof.
  intros Hh Ho Hw r p. rewrite Hh.
  destruct (decide (r = r0)) as [->|Hne].
  - rewrite lookup_insert_eq. intros [= ->]. destruct p; [done|by destruct Ho].
  - rewrite lookup_insert_ne by done. apply Hw.
Qed.

Lemma contexts_initialised_delete w w' r0 :
  heap w' = delete r0 (heap w) → contexts_initialised w → contexts_initialised w'.
Proof.
  intros Hh Hw r p. rewrite Hh. intros [_ Hr]%lookup_delete_Some. by eapply Hw.
Qed.

Lemma sound_steady P w w' :
  (∀ c, P c = true → is_lifecycle_call c = false) →
  steady P w w' → sound w → sound w'.
Proof.
  intros HP Hs [Ha Hc]. split; [by eapply accounted_steady|].
  destruct Hs as (Hh & _). intros r p. rewrite Hh. apply Hc.
Qed.

Lemma sound_initial w : initial w → sound w.
Proof.
  intros (Hu & He & Hh & Ht). split; [split|].
  - unfold udev_ledger. rewrite Hu, Ht.
    split; [|split; [|split]]; unfold ctx_owns; rewrite ?Hh; try done.
  - unfold enumerate_ledger, refs_of. rewrite He, Ht.
    split; [|split; [|split]]; unfold en_owns; rewrite ?Hh; try done.
    + by intros r h [c ?].
    + by intros r r' h [c ?].
  - intros r p. by rewrite Hh.
Qed.

Lemma sound_Context_new w : sound w → sound (snd (Context.new w)).
Proof.
  intros [Ha Hc]. split; [by apply accounted_Context_new|].
  rewrite Context_new_world. by eapply contexts_initialised_insert.
Qed.

Lemma sound_Enumerator_new arg w : sound w → sound (snd (Enumerator.new arg w)).
Proof.
  intros [Ha Hc]. split; [by apply accounted_Enumerator_new|].
  destruct (Enumerator_new_cases arg w)
    as [[_ ->]|[(c & _ & _ & ->)|(c & hu & _ & _ & ->)]];
    by eapply contexts_initialised_insert.
Qed.

Lemma sound_finalize r w : sound w → sound (snd (finalize r w)).
Proof.
  intros [Ha Hc]. split; [by apply accounted_finalize|].
  destruct (finalize_cases r w) as [(_ & _ & ->)|[(h & _ & ->)|(h & _ & ->)]];
    by eapply contexts_initialised_delete.
Qed.

Section invariant.
Context `{Platform}.

Lemma frame_next g : frame (steady is_iteration_call) (Enumerator.next g).
Proof.
  assert (∀ c, is_walk_call c = true → is_iteration_call c = true) as Hw
    by (intros c Hc; unfold is_iteration_call; rewrite Hc; apply orb_true_r).
  assert (∀ c, is_scan_call c = true → is_iteration_call c = true) as Hs
    by (intros c Hc; unfold is_iteration_call; by rewrite Hc).
  destruct g as [self|self it|]; simpl.
  - apply frame_bind;
      [by apply (frame_weaken is_scan_call), frame_scan_devices|intros _].
    apply frame_bind;
      [by apply (frame_weaken is_scan_call), frame_get_list_entry|intros entry].
    by apply (frame_weaken is_walk_call), frame_loop.
  - by apply (frame_weaken is_walk_call), frame_loop.
  - apply frame_ret.
Qed.

Lemma sound_step w w' : step w w' → sound w → sound w'.
Proof.
  destruct 1 as [w|w arg|w c kw|w self op|w g|w r _|w reg]; intros Hw.
  - by apply sound_Context_new.
  - by apply sound_Enumerator_new.
  - unfold Context.list_devices, bind.
    pose proof (sound_Enumerator_new (PyRef c) w Hw) as Hn.
    destruct (Enumerator.new (PyRef c) w) as [[e|x] w1]; [|done].
    eapply (sound_steady is_match_call); [|apply frame_match|done].
    by intros [].
  - eapply (sound_steady is_match_call); [|apply frame_call_filter|done].
    by intros [].
  - eapply (sound_steady is_iteration_call); [|apply frame_next|done].
    by intros [].
  - by apply sound_finalize.
  - exact Hw.
Qed.

Lemma sound_reachable w : reachable w → sound w.
Proof.
  intros (w0 & Hi & Hsteps). apply sound_initial in Hi.
  induction Hsteps as [|w1 w2 w3 Hs _ IH]; [done|].
  apply IH. by eapply sound_step.
Qed.

End invariant.

(** ** Destruction *)

Lemma finalize_Context w r h :
  ctx_owns w r h → udevs w !! h = Some 1 →
  count (releases_udev h) (trace w) = 0 →
  udevs (snd (finalize r w)) !! h = Some 0
  ∧ count (releases_udev h) (trace (snd (finalize r w))) = 1
  ∧ heap (snd (finalize r w)) !! r = None.
Proof.
  intros Ho Hu Hc.
  destruct (finalize_cases r w) as [(Hn & _)|[(h' & Ho' & ->)|(h' & [c Ho'] & _)]].
  - by destruct (Hn h).
  - assert (h' = h) as -> by (unfold ctx_owns in *; congruence).
    simpl. rewrite lookup_alter_eq, Hu, count_snoc, Hc, lookup_delete_eq. simpl.
    by rewrite bool_decide_eq_true_2.
  - unfold ctx_owns in Ho. congruence.
Qed.

Lemma finalize_Enumerator w r h :
  en_owns w r h → refs_of w h = Some 1 →
  count (releases_enumerate h) (trace w) = 0 →
  refs_of (snd (finalize r w)) h = Some 0
  ∧ count (releases_enumerate h) (trace (snd (finalize r w))) = 1
  ∧ heap (snd (finalize r w)) !! r = None
  ∧ udevs (snd (finalize r w)) = udevs w
  ∧ (∀ hu, count (releases_udev hu) (trace (snd (finalize r w)))
           = count (releases_udev hu) (trace w))
  ∧ (∀ c hu, ctx_owns w c hu → ctx_owns (snd (finalize r w)) c hu).
Proof.
  intros [c Ho] Hu Hc.
  destruct (finalize_cases r w) as [(_ & Hn & _)|[(h' & Ho' & _)|(h' & [c' Ho'] & ->)]].
  - destruct (Hn h). by exists c.
  - unfold ctx_owns in Ho'. congruence.
  - assert (h' = h) as -> by congruence.
    unfold refs_of in *. simpl.
    rewrite lookup_alter_eq, count_snoc, Hc, lookup_delete_eq. simpl.
    rewrite bool_decide_eq_true_2 by done.
    destruct (enumerates w !! h) as [e|]; [|done]. simpl in *.
    injection Hu as ->. repeat split; try done.
    + intros hu. rewrite count_snoc. simpl. lia.
    + intros c0 hu Hc0. unfold ctx_owns in *. simpl.
      rewrite lookup_delete_ne; [done|]. intros ->. congruence.
Qed.

Lemma reachable_world_enum : reachable (H := ascii_platform) world_enum.
Proof.
  exists world_init. split; [by repeat split|].
  apply (rtc_l _ _ world_ctx); [exact (step_Context world_init)|].
  apply (rtc_l _ _ world_enum); [exact (step_Enumerator world_ctx (PyRef 0))|].
  apply rtc_refl.
Qed.

(** ** What [list_devices] constructs *)

Lemma Enumerator_new_bound c hu w :
  ctx_owns w c hu →
  ∃ h w1,
    Enumerator.new (PyRef c) w = (Ok (fresh (dom (heap w))), w1)
    ∧ heap w1 !! fresh (dom (heap w)) = Some (EnumeratorObj (Some (PyRef c)) (Some h))
    ∧ enumerates w !! h = None
    ∧ enumerates w1 !! h = Some (UdevEnumerate 1 hu [] []).
Proof.
  intros Hc. exists (fresh (dom (enumerates w))). eexists.
  split; [by apply Enumerator_new_world|]. simpl.
  rewrite !lookup_insert_eq. split; [done|]. split; [|done].
  apply not_elem_of_dom, is_fresh.
Qed.

Lemma Enumerator_new_fresh arg w e w1 :
  Enumerator.new arg w = (Ok e, w1) → e = fresh (dom (heap w)).
Proof.
  destruct (Enumerator_new_cases arg w)
    as [[_ ->]|[(c & _ & _ & ->)|(c & hu & _ & _ & ->)]]; intros E; by simplify_eq.
Qed.

Lemma list_devices_returns_new `{Platform} c (kw : kwargs) w v w' :
  Context.list_devices c kw w = (Ok v, w') → v = PyRef (fresh (dom (heap w))).
Proof.
  unfold Context.list_devices. intros (e & w1 & En & Em)%bind_inv.
  apply Enumerator_new_fresh in En as ->. by apply match_returns_self in Em.
Qed.

(** ** Frames for an arbitrary preorder *)

Section frame_rel.
Variable R : world → world → Prop.
Hypothesis R_refl : ∀ w, R w w.
Hypothesis R_trans : ∀ w1 w2 w3, R w1 w2 → R w2 w3 → R w1 w3.

Lemma rel_ret {A} (a : A) : frame R (ret a).
Proof. intros w. apply R_refl. Qed.

Lemma rel_raise {A} e : frame R (raise (A := A) e).
Proof. intros w. apply R_refl. Qed.

Lemma rel_bind {A B} (m : M A) (k : A → M B) :
  frame R m → (∀ a, frame R (k a)) → frame R (bind m k).
Proof.
  intros Hm Hk w. unfold bind. specialize (Hm w).
  destruct (m w) as [[a|e] w0]; [|done].
  eapply R_trans; [exact Hm|apply Hk].
Qed.

Lemma rel_get_bind {A} (k : world → M A) :
  (∀ w0, frame R (k w0)) → frame R (bind get k).
Proof. intros Hk w. unfold bind, get. apply Hk. Qed.

Lemma rel_when {A} c (m : M A) : frame R m → frame R (when c m).
Proof.
  intros Hm. unfold when. destruct c; [|apply rel_ret].
  apply rel_bind; [done|intros; apply rel_ret].
Qed.

Lemma rel_for_each {A} (l : list A) (body : A → M unit) :
  (∀ x, frame R (body x)) → frame R (for_each l body).
Proof.
  intros Hb. induction l as [|x l IH]; simpl; [apply rel_ret|].
  apply rel_bind; [apply Hb|by intros].
Qed.

Lemma rel_as_enumerate v : frame R (as_enumerate v).
Proof.
  intros w. unfold as_enumerate, bind, get.
  destruct v; try apply R_refl.
  destruct (heap w !! r) as [[?|? [?|]]|]; apply R_refl.
Qed.

Lemma rel_as_udev v : frame R (as_udev v).
Proof.
  intros w. unfold as_udev, bind, get.
  destruct v; try apply R_refl.
  destruct (heap w !! r) as [[[?|]|? ?]|]; apply R_refl.
Qed.

Lemma rel_getattr_context self : frame R (getattr_context self).
Proof.
  intros w. unfold getattr_context, bind, get.
  destruct (heap w !! self) as [[?|[?|] ?]|]; apply R_refl.
Qed.

End frame_rel.

(** ** The single-purpose filters, case by case *)

Lemma bind_ok {A B} (m : M A) (k : A → M B) w a w' :
  m w = (Ok a, w') → bind m k w = k a w'.
Proof. intros E. unfold bind. by rewrite E. Qed.

Lemma bind_raised {A B} (m : M A) (k : A → M B) w e w' :
  m w = (Raise e, w') → bind m k w = (Raise e, w').
Proof. intros E. unfold bind. by rewrite E. Qed.

Lemma en_owns_functional w self h h' : en_owns w self h → en_owns w self h' → h = h'.
Proof. intros [c Hc] [c' Hc']. congruence. Qed.

Lemma add_match_cases self p w :
  (∃ h, en_owns w self h
        ∧ libudev.add_match (PyRef self) p w = (Ok tt, added p h w))
  ∨ ((∀ h, ¬ en_owns w self h)
     ∧ libudev.add_match (PyRef self) p w = (Raise InvalidArgument, w)).
Proof.
  destruct (heap w !! self) as [[?|c [h|]]|] eqn:E.
  2:{ left. exists h. split; [by exists c|]. apply add_match_owns. by exists c. }
  all: right; split; [intros h [c' Hc']; congruence|];
    unfold libudev.add_match, as_enumerate, bind, get; cbv beta iota;
    by rewrite E.
Qed.

Lemma add_match_parent_cases self parent w :
  match parent with
  | PyDevice p =>
      (∃ h, en_owns w self h
            ∧ libudev.udev_enumerate_add_match_parent (PyRef self) parent w
              = (Ok tt, added (P_parent p) h w))
      ∨ ((∀ h, ¬ en_owns w self h)
         ∧ libudev.udev_enumerate_add_match_parent (PyRef self) parent w
           = (Raise InvalidArgument, w))
  | _ => libudev.udev_enumerate_add_match_parent (PyRef self) parent w
         = (Raise InvalidArgument, w)
  end.
Proof.
  unfold libudev.udev_enumerate_add_match_parent.
  assert ((∃ h, en_owns w self h ∧ as_enumerate (PyRef self) w = (Ok h, w))
          ∨ ((∀ h, ¬ en_owns w self h)
             ∧ as_enumerate (PyRef self) w = (Raise InvalidArgument, w))) as Hc.
  { destruct (heap w !! self) as [[?|c [h|]]|] eqn:E.
    2:{ left. exists h. split; [by exists c|]. apply as_enumerate_owns. by exists c. }
    all: right; split; [intros h [c' Hc']; congruence|];
      unfold as_enumerate, bind, get; cbv beta iota; by rewrite E. }
  destruct parent; unfold bind;
    destruct Hc as [(h & Ho & ->)|[Hn ->]]; try reflexivity.
  - left. exists h. by split.
  - right. by split.
Qed.

Section single_facts.
Context `{Platform}.

Lemma ensure_byte_string_cases v w :
  match bytes_of v with
  | Some b => util.ensure_byte_string v w = (Ok b, w)
  | None => ∃ e, util.ensure_byte_string v w = (Raise e, w)
  end.
Proof.
  destruct v; simpl; try (by eexists).
  destruct (fs_encode t); [done|by eexists].
Qed.

Lemma property_value_to_bytes_cases v w :
  match value_bytes v with
  | Some b => util.property_value_to_bytes v w = (Ok b, w)
  | None => ∃ e, util.property_value_to_bytes v w = (Raise e, w)
  end.
Proof.
  destruct v; simpl; try done;
    match goal with |- context [fs_encode ?t] => destruct (fs_encode t) end;
    try done; by eexists.
Qed.

(** A single-purpose filter either raises and leaves the world alone,
    or appends its predicate to the match list of the instance. *)
Lemma call_single_cases self op w :
  is_single op = true →
  match predicate_of op with
  | Some p =>
      (∃ h, en_owns w self h
            ∧ call_filter self op w = (Ok (PyRef self), added p h w))
      ∨ ((∀ h, ¬ en_owns w self h)
         ∧ call_filter self op w = (Raise InvalidArgument, w))
  | None => ∃ e, call_filter self op w = (Raise e, w)
  end.
Proof.
  assert (∀ p, (∃ h, en_owns w self h
                     ∧ (libudev.add_match (PyRef self) p;; ret (PyRef self)) w
                       = (Ok (PyRef self), added p h w))
               ∨ ((∀ h, ¬ en_owns w self h)
                  ∧ (libudev.add_match (PyRef self) p;; ret (PyRef self)) w
                    = (Raise InvalidArgument, w))) as Hadd.
  { intros p. unfold bind.
    destruct (add_match_cases self p w) as [(h & Ho & ->)|[Hn ->]]; eauto. }
  intros Hs. destruct op as [kw|v|v|k v|k v|v| |v]; [done|..]; simpl.
  - unfold Enumerator.match_subsystem,
      libudev.udev_enumerate_add_match_subsystem.
    pose proof (ensure_byte_string_cases v w) as Hv.
    destruct (bytes_of v) as [b|]; simpl.
    + rewrite (bind_ok _ _ _ _ _ Hv). apply Hadd.
    + destruct Hv as [e Hv]. rewrite (bind_raised _ _ _ _ _ Hv). by eexists.
  - unfold Enumerator.match_sys_name,
      libudev.udev_enumerate_add_match_sysname.
    pose proof (ensure_byte_string_cases v w) as Hv.
    destruct (bytes_of v) as [b|]; simpl.
    + rewrite (bind_ok _ _ _ _ _ Hv). apply Hadd.
    + destruct Hv as [e Hv]. rewrite (bind_raised _ _ _ _ _ Hv). by eexists.
  - unfold Enumerator.match_property,
      libudev.udev_enumerate_add_match_property.
    pose proof (ensure_byte_string_cases k w) as Hk.
    pose proof (property_value_to_bytes_cases v w) as Hv.
    destruct (bytes_of k) as [kb|].
    + rewrite (bind_ok _ _ _ _ _ Hk).
      destruct (value_bytes v) as [vb|].
      * rewrite (bind_ok _ _ _ _ _ Hv). apply Hadd.
      * destruct Hv as [e Hv]. rewrite (bind_raised _ _ _ _ _ Hv). by eexists.
    + destruct Hk as [e Hk]. rewrite (bind_raised _ _ _ _ _ Hk). by eexists.
  - unfold Enumerator.match_attribute,
      libudev.udev_enumerate_add_match_sysattr.
    pose proof (ensure_byte_string_cases k w) as Hk.
    pose proof (property_value_to_bytes_cases v w) as Hv.
    destruct (bytes_of k) as [kb|].
    + rewrite (bind_ok _ _ _ _ _ Hk).
      destruct (value_bytes v) as [vb|].
      * rewrite (bind_ok _ _ _ _ _ Hv). apply Hadd.
      * destruct Hv as [e Hv]. rewrite (bind_raised _ _ _ _ _ Hv). by eexists.
    + destruct Hk as [e Hk]. rewrite (bind_raised _ _ _ _ _ Hk). by eexists.
  - unfold Enumerator.match_tag, libudev.udev_enumerate_add_match_tag.
    pose proof (ensure_byte_string_cases v w) as Hv.
    destruct (bytes_of v) as [b|]; simpl.
    + rewrite (bind_ok _ _ _ _ _ Hv). apply Hadd.
    + destruct Hv as [e Hv]. rewrite (bind_raised _ _ _ _ _ Hv). by eexists.
  - unfold Enumerator.match_is_initialized,
      libudev.udev_enumerate_add_match_is_initialized. apply Hadd.
  - unfold Enumerator.match_parent.
    pose proof (add_match_parent_cases self v w) as Hp.
    destruct v; try (rewrite (bind_raised _ _ _ _ _ Hp); by eexists).
    destruct Hp as [(h & Ho & Hp)|[Hn Hp]].
    + left. exists h. split; [done|]. by rewrite (bind_ok _ _ _ _ _ Hp).
    + right. split; [done|]. by rewrite (bind_raised _ _ _ _ _ Hp).
Qed.

Lemma call_single_raises self op w e w' :
  is_single op = true → call_filter self op w = (Raise e, w') → w' = w.
Proof.
  intros Hs E. pose proof (call_single_cases self op w Hs) as Hc.
  destruct (predicate_of op) as [p|].
  - destruct Hc as [(h & _ & Hc)|[_ Hc]]; rewrite Hc in E; by simplify_eq.
  - destruct Hc as [e' Hc]. rewrite Hc in E. by simplify_eq.
Qed.

Lemma call_single_adds self op h p w :
  is_single op = true → en_owns w self h → predicate_of op = Some p →
  call_filter self op w = (Ok (PyRef self), added p h w).
Proof.
  intros Hs Ho Hp. pose proof (call_single_cases self op w Hs) as Hc.
  rewrite Hp in Hc. destruct Hc as [(h' & Ho' & ->)|[Hn _]].
  - by rewrite (en_owns_functional _ _ _ _ Ho Ho').
  - by destruct (Hn h).
Qed.

End single_facts.

(** ** The match lists only grow *)

Lemma only_appends_refl self w : only_appends self w w.
Proof.
  do 4 (split; [done|]). intros h e He. exists e, []. by rewrite app_nil_r.
Qed.

Lemma only_appends_trans self w1 w2 w3 :
  only_appends self w1 w2 → only_appends self w2 w3 → only_appends self w1 w3.
Proof.
  intros (Hh & Hr & Hu & Hl & Hg) (Hh' & Hr' & Hu' & Hl' & Hg').
  split; [congruence|]. split; [congruence|]. split; [congruence|]. split.
  - intros h Hn. rewrite Hl', Hl; [done..|].
    intros [c Hc]. apply Hn. exists c. by rewrite <- Hh.
  - intros h e He. destruct (Hg h e He) as (e' & ps & He' & Hf & Hd & Hrf & Hud).
    destruct (Hg' h e' He') as (e'' & ps' & He'' & Hf' & Hd' & Hrf' & Hud').
    exists e'', (ps ++ ps'). split; [done|].
    rewrite Hf', Hf, app_assoc. repeat split; congruence.
Qed.

Lemma only_appends_added self h p w :
  en_owns w self h → only_appends self w (added p h w).
Proof.
  intros Ho. do 3 (split; [done|]). split.
  - intros h' Hn. simpl. rewrite lookup_alter_ne; [done|]. by intros ->.
  - intros h' e He. simpl. destruct (decide (h = h')) as [->|Hne].
    + rewrite lookup_alter_eq, He. simpl. by exists (add_filter p e), [p].
    + rewrite lookup_alter_ne by done. exists e, []. by rewrite app_nil_r.
Qed.

Lemma keeps_filters_refl w : keeps_filters w w.
Proof. intros h e He. by exists e. Qed.

Lemma keeps_filters_trans w1 w2 w3 :
  keeps_filters w1 w2 → keeps_filters w2 w3 → keeps_filters w1 w3.
Proof.
  intros H12 H23 h e He. destruct (H12 h e He) as (e' & He' & ? & ? & ?).
  destruct (H23 h e' He') as (e'' & He'' & ? & ? & ?).
  exists e''. repeat split; congruence.
Qed.

Lemma keeps_filters_log c : frame keeps_filters (modify (log c)).
Proof. intros w h e He. by exists e. Qed.

Lemma keeps_filters_set_devices (f : udev_enumerate → list (bytes * bytes)) h :
  frame keeps_filters (modify (set_enumerates (alter (λ e, set_devices (f e) e) h))).
Proof.
  intros w h' e He. simpl. destruct (decide (h = h')) as [->|Hne].
  - rewrite lookup_alter_eq, He. simpl. by eexists.
  - rewrite lookup_alter_ne by done. by exists e.
Qed.

Section growth_facts.
Context `{Platform}.

Lemma only_appends_single self op :
  is_single op = true → frame (only_appends self) (call_filter self op).
Proof.
  intros Hs w. pose proof (call_single_cases self op w Hs) as Hc.
  destruct (predicate_of op) as [p|].
  - destruct Hc as [(h & Ho & ->)|[_ ->]];
      [by apply only_appends_added|apply only_appends_refl].
  - destruct Hc as [e ->]. apply only_appends_refl.
Qed.

Lemma only_appends_match self (kw : kwargs) :
  frame (only_appends self) (Enumerator.match_ self kw).
Proof.
  pose proof (only_appends_refl self) as Hr.
  pose proof (only_appends_trans self) as Ht.
  unfold Enumerator.match_, dict_pop. cbv beta iota.
  apply rel_bind; [done..| |intros _].
  { apply rel_when; [done..|].
    by apply (only_appends_single self (Op_match_subsystem _)). }
  apply rel_bind; [done..| |intros _].
  { apply rel_when; [done..|].
    by apply (only_appends_single self (Op_match_sys_name _)). }
  apply rel_bind; [done..| |intros _].
  { apply rel_when; [done..|].
    by apply (only_appends_single self (Op_match_tag _)). }
  apply rel_bind; [done..| |intros _].
  { apply rel_when; [done..|].
    by apply (only_appends_single self (Op_match_parent _)). }
  apply rel_bind; [done..| |intros _; by apply rel_ret].
  apply rel_for_each; [done..|]. intros [k v].
  apply rel_bind; [done..| |intros _; by apply rel_ret].
  by apply (only_appends_single self (Op_match_property _ _)).
Qed.

Lemma only_appends_call_filter self op :
  frame (only_appends self) (call_filter self op).
Proof.
  destruct op; try (by apply only_appends_single). apply only_appends_match.
Qed.

Lemma keeps_filters_loop self it : frame keeps_filters (Enumerator.loop self it).
Proof.
  pose proof keeps_filters_refl as Hr. pose proof keeps_filters_trans as Ht.
  assert (∀ entry, frame keeps_filters (util.visit entry)) as Hvisit.
  { intros [|e0 entry]; simpl; [by apply rel_ret|].
    unfold libudev.udev_list_entry_get_name, libudev.udev_list_entry_get_value,
      util.ensure_unicode_string.
    repeat (apply rel_bind; [done..| |intros ?]);
      try apply keeps_filters_log; try (by apply rel_ret).
    destruct (fs_decode _); [by apply rel_ret|by apply rel_raise]. }
  unfold Enumerator.loop. apply rel_bind; [done..| |].
  - destruct it; simpl; [apply Hvisit|].
    unfold libudev.udev_list_entry_get_next.
    apply rel_bind; [done..| |intros ?; apply Hvisit].
    apply rel_bind; [done..|apply keeps_filters_log|intros ?; by apply rel_ret].
  - intros [[[name value] it']|]; [|by apply rel_ret].
    apply rel_bind; [done..|by apply rel_getattr_context|intros ctx].
    apply rel_bind; [done..| |intros ?; by apply rel_ret].
    unfold util.Device_from_sys_path, libudev.udev_device_new_from_syspath.
    apply rel_bind; [done..| |intros b].
    { intros w. simpl. destruct (fs_encode name); apply Hr. }
    apply rel_bind; [done..| |intros [p|]; [by apply rel_ret|by apply rel_raise]].
    apply rel_bind; [done..|by apply rel_as_udev|intros hu].
    apply rel_get_bind; [done..|]. intros w0.
    apply rel_bind; [done..|apply keeps_filters_log|intros ?; by apply rel_ret].
Qed.

Lemma keeps_filters_next g : frame keeps_filters (Enumerator.next g).
Proof.
  pose proof keeps_filters_refl as Hr. pose proof keeps_filters_trans as Ht.
  destruct g as [self|self it|]; simpl;
    [|apply keeps_filters_loop|by apply rel_ret].
  unfold libudev.udev_enumerate_scan_devices,
    libudev.udev_enumerate_get_list_entry.
  apply rel_bind; [done..| |intros _].
  { apply rel_bind; [done..|by apply rel_as_enumerate|intros h].
    apply rel_get_bind; [done..|]. intros w0.
    apply rel_bind; [done..| |intros _; apply keeps_filters_log].
    apply (keeps_filters_set_devices (λ e, scan (registry w0) (en_filters e))). }
  apply rel_bind; [done..| |intros entry; apply keeps_filters_loop].
  apply rel_bind; [done..|by apply rel_as_enumerate|intros h].
  apply rel_get_bind; [done..|]. intros w0.
  apply rel_bind; [done..|apply keeps_filters_log|intros _; by apply rel_ret].
Qed.

End growth_facts.

(** ** What [match] appends *)

Lemma adds_app ps ps' h w : adds (ps ++ ps') h w = adds ps' h (adds ps h w).
Proof. unfold adds. by rewrite fold_left_app. Qed.

Lemma adds_heap ps h w : heap (adds ps h w) = heap w.
Proof. revert w. induction ps as [|p ps IH]; intros w; [done|]. simpl. by rewrite IH. Qed.

Lemma adds_registry ps h w : registry (adds ps h w) = registry w.
Proof. revert w. induction ps as [|p ps IH]; intros w; [done|]. simpl. by rewrite IH. Qed.

Lemma adds_udevs ps h w : udevs (adds ps h w) = udevs w.
Proof. revert w. induction ps as [|p ps IH]; intros w; [done|]. simpl. by rewrite IH. Qed.

Lemma adds_trace ps h w :
  trace (adds ps h w) = trace w ++ map (add_match_call h) ps.
Proof.
  revert w. induction ps as [|p ps IH]; intros w; simpl; [by rewrite app_nil_r|].
  rewrite IH. simpl. by rewrite <- app_assoc.
Qed.

Lemma adds_enumerates ps h e w :
  enumerates w !! h = Some e →
  enumerates (adds ps h w) !! h
  = Some (UdevEnumerate (en_refs e) (en_udev e) (en_filters e ++ ps) (en_devices e)).
Proof.
  revert w e. induction ps as [|p ps IH]; intros w e He; simpl.
  - rewrite He, app_nil_r. by destruct e.
  - rewrite (IH _ (add_filter p e)) by by apply added_enumerates.
    simpl. by rewrite <- app_assoc.
Qed.

Lemma adds_owns ps h w self h' : en_owns w self h' → en_owns (adds ps h w) self h'.
Proof. unfold en_owns. by rewrite adds_heap. Qed.

Section match_effect.
Context `{Platform}.

Lemma string_ok_bytes v : string_ok v = true → is_Some (bytes_of v).
Proof.
  destruct v; simpl; try done; try (by eexists).
  by intros ?%bool_decide_eq_true.
Qed.

Lemma value_ok_bytes v : value_ok v = true → is_Some (value_bytes v).
Proof.
  destruct v; simpl; try (by eexists); by intros ?%bool_decide_eq_true.
Qed.

Lemma routed_adds self h (kw : kwargs) k (op : pyvalue → filter_op) w :
  en_owns w self h → (∀ v, is_single (op v) = true) →
  (∀ v, dict_get k kw = Some v → is_not_None v = true → is_Some (predicate_of (op v))) →
  routed kw k (fun v => call_filter self (op v)) w
  = (Ok tt, adds (routed_filters kw k op) h w).
Proof.
  intros Ho Hs Hok. unfold routed, routed_filters.
  destruct (dict_get k kw) as [v|]; [|done].
  destruct (is_not_None v) eqn:Hv; [|done].
  destruct (Hok v eq_refl Hv) as [p Hp]. rewrite Hp. unfold when.
  by rewrite (bind_ok _ _ _ _ _ (call_single_adds self (op v) h p w (Hs v) Ho Hp)).
Qed.

Lemma properties_adds self h (l : kwargs) :
  ∀ w, en_owns w self h → (∀ kv, kv ∈ l → value_ok (snd kv) = true) →
  for_each l (fun '(property, value) =>
    Enumerator.match_property self (PyBytes property) value;; ret tt) w
  = (Ok tt,
     adds (omap (fun kv => predicate_of (Op_match_property (PyBytes (fst kv)) (snd kv))) l)
          h w).
Proof.
  induction l as [|[k v] l IH]; intros w Ho Hok; [done|].
  destruct (value_ok_bytes v) as [vb Hvb]; [apply (Hok (k, v)); left|].
  assert (predicate_of (Op_match_property (PyBytes k) v) = Some (P_property k vb))
    as Hp by (simpl; by rewrite Hvb).
  cbn [for_each omap list_omap fst snd]. rewrite Hp.
  pose proof (call_single_adds self (Op_match_property (PyBytes k) v) h _ w
                eq_refl Ho Hp) as E. simpl in E.
  rewrite (bind_ok _ _ _ tt (added (P_property k vb) h w)).
  - rewrite IH; [done| |].
    + unfold en_owns in *. done.
    + intros kv Hkv. apply Hok. by right.
  - by rewrite (bind_ok _ _ _ _ _ E).
Qed.

Lemma match_adds self h (kw : kwargs) w :
  en_owns w self h → forallb keyword_ok kw = true →
  Enumerator.match_ self kw w = (Ok (PyRef self), adds (match_filters kw) h w).
Proof.
  intros Ho Hall. rewrite match_routing_eq. unfold match_routing, match_filters.
  rewrite !adds_app.
  rewrite (bind_ok _ _ _ tt (adds (routed_filters kw "subsystem" Op_match_subsystem) h w)).
  2:{ apply (routed_adds self h kw "subsystem" Op_match_subsystem); [done..|].
      intros v Hv Hn. apply dict_get_Some in Hv. simpl.
      destruct (string_ok_bytes v) as [b ->]; [|by eexists].
      apply (keyword_ok_string kw "subsystem"); [done..| |done].
      rewrite !elem_of_cons; tauto. }
  rewrite (bind_ok _ _ _ tt
             (adds (routed_filters kw "sys_name" Op_match_sys_name) h
                (adds (routed_filters kw "subsystem" Op_match_subsystem) h w))).
  2:{ apply (routed_adds self h kw "sys_name" Op_match_sys_name);
        [by apply adds_owns|done|].
      intros v Hv Hn. apply dict_get_Some in Hv. simpl.
      destruct (string_ok_bytes v) as [b ->]; [|by eexists].
      apply (keyword_ok_string kw "sys_name"); [done..| |done].
      rewrite !elem_of_cons; tauto. }
  match goal with |- context [bind (routed kw "tag" _) _ ?w0] =>
    rewrite (bind_ok _ _ _ tt (adds (routed_filters kw "tag" Op_match_tag) h w0))
  end.
  2:{ apply (routed_adds self h kw "tag" Op_match_tag);
        [by do 2 apply adds_owns|done|].
      intros v Hv Hn. apply dict_get_Some in Hv. simpl.
      destruct (string_ok_bytes v) as [b ->]; [|by eexists].
      apply (keyword_ok_string kw "tag"); [done..| |done].
      rewrite !elem_of_cons; tauto. }
  match goal with |- context [bind (routed kw "parent" _) _ ?w0] =>
    rewrite (bind_ok _ _ _ tt (adds (routed_filters kw "parent" Op_match_parent) h w0))
  end.
  2:{ apply (routed_adds self h kw "parent" Op_match_parent);
        [by do 3 apply adds_owns|done|].
      intros v Hv Hn. apply dict_get_Some in Hv. simpl.
      pose proof (keyword_ok_parent kw v Hall Hv Hn) as Hd.
      by destruct v. }
  unfold forward_properties, property_filters.
  match goal with |- context [bind (for_each _ _) _ ?w0] =>
    rewrite (bind_ok _ _ _ tt
               (adds (omap (λ kv, predicate_of
                                    (Op_match_property (PyBytes kv.1) kv.2))
                        (properties_of kw)) h w0))
  end; [done|].
  apply properties_adds; [by do 4 apply adds_owns|].
  intros [k v] Hkv. by apply (keyword_ok_property kw k).
Qed.

End match_effect.

(** ** Iterating again, and after the registry changed *)

Section again_facts.
Context `{Platform}.

Lemma take_created_state self c h hu e n w :
  heap w !! self = Some (EnumeratorObj (Some (PyRef c)) (Some h)) →
  ctx_owns w c hu → enumerates w !! h = Some e →
  forallb (λ d, roundtrips (dev_sys_path d)) (registry w) = true →
  length (registry w) < n →
  ∃ w', take n (GenCreated self) w
        = (Ok (yielded (en_filters e) (registry w), GenFinished), w')
        ∧ registry w' = registry w ∧ heap w' = heap w ∧ udevs w' = udevs w
        ∧ enumerates w' !! h
          = Some (set_devices (scan (registry w) (en_filters e)) e).
Proof.
  intros Hs Hc He Hall Hn.
  destruct n as [|n]; [lia|].
  set (ds := filter (λ d, passes (en_filters e) d = true) (registry w)).
  set (w1 := log (get_list_entry_call h) (log (scan_devices_call h)
               (set_enumerates
                  (alter (λ e0, set_devices (scan (registry w) (en_filters e0)) e0) h) w))).
  assert (en_owns w self h) as Ho by by eexists.
  assert (take (S n) (GenCreated self) w
          = take (S n) (GenSuspended self (LI_start (entries ds))) w1) as ->.
  { simpl. unfold bind at 1 2 3. rewrite (scan_devices_owns _ _ _ Ho).
    rewrite (get_list_entry_owns _ self h) by (by eexists).
    cbn [enumerates set_enumerates log]. rewrite lookup_alter_eq, He.
    reflexivity. }
  destruct (take_suspended self c (Some h) hu ds (LI_start (entries ds)) (S n) w1)
    as (w' & E & Hq).
  - done.
  - done.
  - apply Forall_forall. intros d Hd. subst ds.
    apply list_elem_of_filter in Hd as [_ Hd]. split; [done|].
    rewrite forallb_forall in Hall. apply Hall. by apply list_elem_of_In.
  - done.
  - assert (length ds ≤ length (registry w))%nat by apply length_filter. lia.
  - exists w'. split; [done|]. destruct Hq as (-> & -> & -> & ->).
    do 3 (split; [done|]). subst w1. simpl. by rewrite lookup_alter_eq, He.
Qed.



Lemma list_devices_world c hu (kw : kwargs) w :
  ctx_owns w c hu → forallb keyword_ok kw = true →
  ∃ w1,
    Context.list_devices c kw w
    = (Ok (PyRef (fresh (dom (heap w)))), w1)
    ∧ heap w1 !! fresh (dom (heap w))
      = Some (EnumeratorObj (Some (PyRef c)) (Some (fresh (dom (enumerates w)))))
    ∧ ctx_owns w1 c hu
    ∧ enumerates w1 !! fresh (dom (enumerates w))
      = Some (UdevEnumerate 1 hu (match_filters kw) [])
    ∧ registry w1 = registry w.
Proof.
  intros Hc Hall. unfold Context.list_devices.
  rewrite (bind_ok _ _ _ _ _ (Enumerator_new_world c hu w Hc)).
  set (e := fresh (dom (heap w))). set (h := fresh (dom (enumerates w))).
  set (w0 := World _ _ _ _ _).
  assert (heap w0 !! e = Some (EnumeratorObj (Some (PyRef c)) (Some h))) as He
    by (subst w0; simpl; by rewrite lookup_insert_eq).
  assert (en_owns w0 e h) as Ho by by eexists.
  rewrite (match_adds e h kw w0 Ho Hall).
  eexists. split; [done|]. rewrite adds_heap, adds_registry.
  split; [done|]. split; [|split; [|done]].
  - unfold ctx_owns in *. rewrite adds_heap. subst w0. simpl.
    rewrite lookup_insert_ne; [done|]. intros Heq. rewrite <- Heq in Hc.
    subst e. by rewrite fresh_heap in Hc.
  - rewrite (adds_enumerates _ h (UdevEnumerate 1 hu [] [])); [done|].
    subst w0. simpl. by rewrite lookup_insert_eq.
Qed.

Lemma list_devices_yields c hu (kw : kwargs) n w :
  ctx_owns w c hu → forallb keyword_ok kw = true →
  forallb (λ d, roundtrips (dev_sys_path d)) (registry w) = true →
  length (registry w) < n →
  ∃ w', (let* e := Context.list_devices c kw in islice e n) w
        = (Ok (yielded (match_filters kw) (registry w), GenFinished), w').
Proof.
  intros Hc Hall Hrt Hn.
  destruct (list_devices_world c hu kw w Hc Hall) as (w1 & E & He & Hc1 & Hen & Hr).
  rewrite (bind_ok _ _ _ _ _ E). unfold islice, Enumerator.__iter__.
  rewrite bind_ret_l.
  destruct (take_created_state _ c _ hu _ n w1 He Hc1 Hen) as (w' & E' & _);
    [by rewrite Hr..|].
  exists w'. by rewrite E', Hr.
Qed.

Lemma passes_nil d : passes [] d = true.
Proof. reflexivity. Qed.

Lemma yielded_nil reg : yielded [] reg = map (λ d, PyDevice (dev_sys_path d)) reg.
Proof.
  unfold yielded. f_equal. induction reg as [|d reg IH]; [done|].
  rewrite filter_cons_True by apply passes_nil. by rewrite IH.
Qed.

End again_facts.

(** ** A construction that failed, collected *)

Lemma set_heap_delete_insert r o w :
  heap w !! r = None → set_heap (delete r) (set_heap (insert r o) w) = w.
Proof.
  intros Hr. destruct w as [reg ud en hp tr]. unfold set_heap. simpl in *.
  by rewrite delete_insert_id.
Qed.

Lemma finalize_failed_new arg w :
  is_Context w arg = false →
  finalize (fresh (dom (heap w))) (snd (Enumerator.new arg w)) = (Ok tt, w).
Proof.
  intros Hc. rewrite (Enumerator_new_rejects arg w Hc). simpl.
  set (r := fresh (dom (heap w))).
  set (w1 := set_heap (insert r (EnumeratorObj None None)) w).
  assert (heap w1 !! r = Some (EnumeratorObj None None)) as Hr
    by (subst w1; simpl; by rewrite lookup_insert_eq).
  destruct (finalize_cases r w1) as [(_ & _ & ->)|[(h & Ho & _)|(h & [c Ho] & _)]].
  - subst w1. by rewrite set_heap_delete_insert by apply fresh_heap.
  - unfold ctx_owns in Ho. congruence.
  - congruence.
Qed.

(** ** Laziness and errors of the iteration *)

Section lazy_facts.
Context `{Platform}.

Lemma loop_yields_once self c p hu it d (ds : list device) w :
  heap w !! self = Some (EnumeratorObj (Some (PyRef c)) p) →
  ctx_owns w c hu → d ∈ registry w → roundtrips (dev_sys_path d) = true →
  pending it = entries (d :: ds) →
  ∃ w', Enumerator.loop self it w
        = (Ok (Some (PyDevice (dev_sys_path d)),
               GenSuspended self (LI_yielded (entries (d :: ds)))), w')
        ∧ quiet w w'
        ∧ count is_resolver_call (trace w') = S (count is_resolver_call (trace w)).
Proof.
  intros Hs Hc Hd (t & Hdec & Henc)%roundtrips_inv Hp.
  assert (∃ w0, quiet w w0
            ∧ count is_resolver_call (trace w0) = count is_resolver_call (trace w)
            ∧ ∀ A (k : _ → M A),
                bind (util.udev_list_iterate_next it) k w
                = bind (util.visit (entries (d :: ds))) k w0) as (w0 & Hq0 & Hc0 & E).
  { destruct it as [l|l]; simpl in Hp; subst.
    - exists w. split; [apply quiet_refl|done].
    - exists (log list_entry_get_next_call w). split; [apply quiet_log|].
      split; [simpl; rewrite count_snoc; simpl; lia|].
      intros A k. simpl. unfold libudev.udev_list_entry_get_next.
      unfold bind, modify, ret. cbv beta iota. by rewrite Hp. }
  unfold Enumerator.loop. rewrite E. clear E.
  change (entries (d :: ds)) with ((dev_sys_path d, EmptyString) :: entries ds).
  unfold util.visit, libudev.udev_list_entry_get_name,
    libudev.udev_list_entry_get_value, util.ensure_unicode_string.
  unfold bind, modify, ret. cbv beta iota. cbn [fst snd]. rewrite Hdec.
  cbv beta iota.
  set (w1 := log list_entry_get_value_call (log list_entry_get_name_call w0)).
  assert (quiet w w1) as Hq1.
  { eapply quiet_trans; [done|]. eapply quiet_trans; apply quiet_log. }
  assert (count is_resolver_call (trace w1) = count is_resolver_call (trace w)) as Hc1.
  { subst w1. simpl. rewrite !count_snoc. simpl. lia. }
  destruct Hq1 as (Hreg & Hu & He & Hh).
  rewrite (getattr_context_set w1 self (PyRef c) p) by congruence.
  rewrite (Device_from_sys_path_found c hu t d w1); [| |by rewrite Hreg|done].
  2:{ unfold ctx_owns. by rewrite Hh. }
  eexists. split; [reflexivity|]. split.
  - eapply quiet_trans; [|apply quiet_log]. by repeat split.
  - clear Hc1. subst w1. simpl. rewrite !count_snoc, Hc0. simpl. lia.
Qed.

Lemma take_prefix self c p hu :
  ∀ k (ds : list device) it w,
    heap w !! self = Some (EnumeratorObj (Some (PyRef c)) p) →
    ctx_owns w c hu →
    Forall (λ d, d ∈ registry w ∧ roundtrips (dev_sys_path d) = true) ds →
    pending it = entries ds → (k ≤ length ds)%nat →
    ∃ g' w', take k (GenSuspended self it) w
             = (Ok (map (λ d, PyDevice (dev_sys_path d)) (firstn k ds), g'), w')
             ∧ quiet w w'
             ∧ count is_resolver_call (trace w')
               = count is_resolver_call (trace w) + k.
Proof.
  induction k as [|k IH]; intros ds it w Hs Hc Hall Hp Hk.
  - exists (GenSuspended self it), w. split; [done|].
    split; [apply quiet_refl|lia].
  - destruct ds as [|d ds]; [simpl in Hk; lia|].
    apply Forall_cons in Hall as [[Hd Hr] Hall].
    destruct (loop_yields_once self c p hu it d ds w Hs Hc Hd Hr Hp)
      as (w1 & E & Hq & Hcnt).
    pose proof Hq as (Hreg & Hu & He & Hh).
    destruct (IH ds (LI_yielded (entries (d :: ds))) w1) as (g' & w' & E' & Hq' & Hcnt').
    + by rewrite Hh.
    + unfold ctx_owns. by rewrite Hh.
    + by rewrite Hreg.
    + done.
    + simpl in Hk. lia.
    + exists g', w'. split; [|split; [by eapply quiet_trans|lia]].
      cbn [take firstn map]. unfold bind at 1. cbn [Enumerator.next].
      rewrite E. unfold bind. by rewrite E'.
Qed.

Lemma take_created_prefix self c h hu e k w :
  heap w !! self = Some (EnumeratorObj (Some (PyRef c)) (Some h)) →
  ctx_owns w c hu → enumerates w !! h = Some e →
  forallb (λ d, roundtrips (dev_sys_path d)) (registry w) = true →
  (k ≤ length (yielded (en_filters e) (registry w)))%nat →
  ∃ g' w', take k (GenCreated self) w
           = (Ok (firstn k (yielded (en_filters e) (registry w)), g'), w')
           ∧ count is_resolver_call (trace w')
             = count is_resolver_call (trace w) + k.
Proof.
  intros Hs Hc He Hall Hk.
  destruct k as [|k].
  { exists (GenCreated self), w. split; [done|lia]. }
  set (ds := filter (λ d, passes (en_filters e) d = true) (registry w)).
  set (w1 := log (get_list_entry_call h) (log (scan_devices_call h)
               (set_enumerates
                  (alter (λ e0, set_devices (scan (registry w) (en_filters e0)) e0) h) w))).
  assert (en_owns w self h) as Ho by by eexists.
  assert (take (S k) (GenCreated self) w
          = take (S k) (GenSuspended self (LI_start (entries ds))) w1) as ->.
  { simpl. unfold bind at 1 2 3. rewrite (scan_devices_owns _ _ _ Ho).
    rewrite (get_list_entry_owns _ self h) by (by eexists).
    cbn [enumerates set_enumerates log]. rewrite lookup_alter_eq, He.
    reflexivity. }
  destruct (take_prefix self c (Some h) hu (S k) ds (LI_start (entries ds)) w1)
    as (g' & w' & E & _ & Hcnt).
  - done.
  - done.
  - apply Forall_forall. intros d Hd. subst ds.
    apply list_elem_of_filter in Hd as [_ Hd]. split; [done|].
    rewrite forallb_forall in Hall. apply Hall. by apply list_elem_of_In.
  - done.
  - unfold yielded in Hk. by rewrite length_map in Hk.
  - exists g', w'. split.
    + rewrite E. unfold yielded. fold ds. by rewrite <- firstn_map.
    + rewrite Hcnt. subst w1. simpl. rewrite !count_snoc. simpl. lia.
Qed.


Lemma next_resolution_failure self c ph hu it p v rest t p' w :
  heap w !! self = Some (EnumeratorObj (Some (PyRef c)) ph) →
  ctx_owns w c hu →
  pending it = (p, v) :: rest → fs_decode p = Some t → fs_encode t = Some p' →
  device_at (registry w) p' = None →
  fst (Enumerator.next (GenSuspended self it) w) = Raise ResolutionFailure.
Proof.
  intros Hs Hc Hp Hdec Henc Hgone. simpl. unfold Enumerator.loop.
  assert (∃ w0, quiet w w0 ∧ ∀ A (k : _ → M A),
            bind (util.udev_list_iterate_next it) k w
            = bind (util.visit ((p, v) :: rest)) k w0) as (w0 & Hq0 & E).
  { destruct it as [l|l]; simpl in Hp; subst.
    - exists w. split; [apply quiet_refl|done].
    - exists (log list_entry_get_next_call w). split; [apply quiet_log|].
      intros A k. simpl. unfold libudev.udev_list_entry_get_next.
      unfold bind, modify, ret. cbv beta iota. by rewrite Hp. }
  rewrite E. unfold util.visit, libudev.udev_list_entry_get_name,
    libudev.udev_list_entry_get_value, util.ensure_unicode_string.
  unfold bind, modify, ret. cbv beta iota. cbn [fst snd]. rewrite Hdec.
  cbv beta iota.
  set (w1 := log list_entry_get_value_call (log list_entry_get_name_call w0)).
  assert (quiet w w1) as (Hreg & Hu & He & Hh).
  { eapply quiet_trans; [done|]. eapply quiet_trans; apply quiet_log. }
  rewrite (getattr_context_set w1 self (PyRef c) ph) by congruence.
  unfold util.Device_from_sys_path. simpl. rewrite Henc.
  unfold libudev.udev_device_new_from_syspath, bind, ret, get, modify.
  cbv beta iota. rewrite (as_udev_owns w1 c hu) by (unfold ctx_owns; by rewrite Hh).
  destruct Hq0 as (Hreg0 & _). subst w1. cbn [registry log].
  by rewrite Hreg0, Hgone.
Qed.

End lazy_facts.

(** ** The order of keyword arguments *)

Lemma dict_get_is_Some k (d : kwargs) : k ∈ d.*1 → is_Some (dict_get k d).
Proof.
  unfold dict_get. induction d as [|[k0 v0] d IH]; [by intros ?%elem_of_nil|].
  simpl. intros Hk. case_bool_decide; simpl; [by eexists|].
  apply IH. apply elem_of_cons in Hk as [?|?]; [congruence|done].
Qed.

Lemma dict_get_NoDup k v (d : kwargs) :
  NoDup d.*1 → (k, v) ∈ d → dict_get k d = Some v.
Proof.
  unfold dict_get. induction d as [|[k0 v0] d IH]; [by intros _ ?%elem_of_nil|].
  simpl. intros [Hk0 Hnd]%NoDup_cons [E|Hin]%elem_of_cons.
  - simplify_eq. by rewrite bool_decide_eq_true_2.
  - case_bool_decide as Hk; simpl in *.
    + subst. destruct Hk0. apply list_elem_of_fmap. by exists (k, v).
    + by apply IH.
Qed.

Lemma dict_get_perm k (d d' : kwargs) :
  NoDup d.*1 → d ≡ₚ d' → dict_get k d = dict_get k d'.
Proof.
  intros Hnd Hp.
  assert (NoDup d'.*1) as Hnd' by by rewrite <- Hp.
  destruct (dict_get k d) as [v|] eqn:E.
  - apply dict_get_Some in E. rewrite Hp in E.
    symmetry. by apply dict_get_NoDup.
  - destruct (dict_get k d') as [v'|] eqn:E'; [|done].
    apply dict_get_Some in E'. rewrite <- Hp in E'.
    by rewrite (dict_get_NoDup k v' d) in E.
Qed.

Lemma has_kind_perm fs fs' k : fs ≡ₚ fs' → has_kind fs k ↔ has_kind fs' k.
Proof. intros Hp. unfold has_kind. by setoid_rewrite Hp. Qed.

Lemma some_matches_perm fs fs' d k :
  fs ≡ₚ fs' → some_matches fs d k ↔ some_matches fs' d k.
Proof. intros Hp. unfold some_matches. by setoid_rewrite Hp. Qed.

Lemma passes_perm fs fs' d : fs ≡ₚ fs' → passes fs d = passes fs' d.
Proof.
  intros Hp. apply eq_true_iff_eq. rewrite !passes_combined. unfold combined.
  split; intros Hc k Hk.
  - apply (some_matches_perm fs fs'); [done|]. apply Hc.
    by apply (has_kind_perm fs fs').
  - apply (some_matches_perm fs fs'); [done|]. apply Hc.
    by apply (has_kind_perm fs fs').
Qed.

Lemma yielded_perm fs fs' reg : fs ≡ₚ fs' → yielded fs reg = yielded fs' reg.
Proof.
  intros Hp. unfold yielded. f_equal. apply list_filter_iff. intros d.
  by rewrite (passes_perm fs fs').
Qed.

Section order_facts.
Context `{Platform}.

Lemma match_filters_perm (kw kw' : kwargs) :
  NoDup kw.*1 → kw ≡ₚ kw' → match_filters kw ≡ₚ match_filters kw'.
Proof.
  intros Hnd Hp. unfold match_filters, routed_filters, property_filters, properties_of.
  rewrite !(dict_get_perm _ kw kw') by done.
  by rewrite Hp.
Qed.

Lemma keyword_ok_perm (kw kw' : kwargs) :
  kw ≡ₚ kw' → forallb keyword_ok kw = true → forallb keyword_ok kw' = true.
Proof.
  intros Hp. rewrite !forallb_forall. intros Hall kv Hkv. apply Hall.
  apply list_elem_of_In. rewrite Hp. by apply list_elem_of_In.
Qed.

Lemma match_partial self h (kw : kwargs) v b v' w :
  en_owns w self h →
  dict_get "subsystem" kw = Some v → bytes_of v = Some b →
  dict_get "sys_name" kw = Some v' → is_not_None v' = true → bytes_of v' = None →
  ∃ e, Enumerator.match_ self kw w = (Raise e, added (P_subsystem b) h w).
Proof.
  intros Ho Hv Hb Hv' Hn' Hb'. rewrite match_routing_eq. unfold match_routing.
  assert (is_not_None v = true) as Hn by by destruct v.
  assert (routed kw "subsystem" (Enumerator.match_subsystem self) w
          = (Ok tt, added (P_subsystem b) h w)) as E1.
  { replace (added (P_subsystem b) h w)
      with (adds (routed_filters kw "subsystem" Op_match_subsystem) h w).
    - apply (routed_adds self h kw "subsystem" Op_match_subsystem w Ho); [done|].
      intros v0 E _. simpl. assert (v0 = v) as -> by congruence.
      rewrite Hb. by eexists.
    - unfold routed_filters. rewrite Hv, Hn. simpl. by rewrite Hb. }
  rewrite (bind_ok _ _ _ _ _ E1).
  pose proof (call_single_cases self (Op_match_sys_name v')
                (added (P_subsystem b) h w) eq_refl) as Hc.
  simpl in Hc. rewrite Hb' in Hc. simpl in Hc. destruct Hc as [e Hc].
  exists e. apply bind_raised. unfold routed. rewrite Hv', Hn'. unfold when.
  by apply bind_raised.
Qed.

End order_facts.

(** ** Frames of a partial iteration *)

Section take_frames.
Context `{Platform}.

Lemma keeps_filters_take n : ∀ g, frame keeps_filters (take n g).
Proof.
  pose proof keeps_filters_refl as Hr. pose proof keeps_filters_trans as Ht.
  induction n as [|n IH]; intros g; simpl; [by apply rel_ret|].
  apply rel_bind; [done..|apply keeps_filters_next|].
  intros [[d|] g']; [|by apply rel_ret].
  apply rel_bind; [done..|apply IH|intros ?; by apply rel_ret].
Qed.

Lemma frame_take n : ∀ g, frame (steady is_iteration_call) (take n g).
Proof.
  induction n as [|n IH]; intros g; simpl; [apply frame_ret|].
  apply frame_bind; [apply frame_next|].
  intros [[d|] g']; [|apply frame_ret].
  apply frame_bind; [apply IH|intros ?; apply frame_ret].
Qed.

Lemma property_filter_elem (kw : kwargs) k v p :
  (k, v) ∈ kw → k ∉ recognized →
  predicate_of (Op_match_property (PyBytes k) v) = Some p →
  p ∈ match_filters kw.
Proof.
  intros Hin Hk Hp. unfold match_filters. rewrite !elem_of_app. do 4 right.
  unfold property_filters. apply list_elem_of_omap. exists (k, v).
  split; [|done]. apply list_elem_of_filter. by split.
Qed.

End take_frames.

(** ** Enumerators stay bound to their Contexts *)

Lemma bound_same_heap w w' :
  heap w' = heap w → keeps_connections w w' → bound w → bound w'.
Proof.
  intros Hh Hk Hb e c p He. rewrite Hh in He.
  destruct (Hb e c p He) as (r & hu & -> & Hc & Hen).
  exists r, hu. split; [done|]. split; [unfold ctx_owns; by rewrite Hh|].
  intros h ->. destruct (Hen h eq_refl) as (en & E & Hu).
  destruct (Hk h en E) as (en' & E' & Hu'). exists en'. split; [done|congruence].
Qed.

Lemma bound_initial w : initial w → bound w.
Proof. intros (_ & _ & Hh & _) e c p He. by rewrite Hh in He. Qed.

Lemma bound_Context_new w : bound w → bound (snd (Context.new w)).
Proof.
  intros Hb. rewrite Context_new_world. simpl. intros e c p. simpl.
  pose proof (fresh_heap w) as Hf.
  destruct (decide (e = fresh (dom (heap w)))) as [->|Hne].
  { by rewrite lookup_insert_eq. }
  rewrite lookup_insert_ne by done. intros He.
  destruct (Hb e c p He) as (r & hu & -> & Hc & Hen).
  exists r, hu. split; [done|]. split; [|done].
  unfold ctx_owns in *. simpl. rewrite lookup_insert_ne; [done|].
  intros <-. congruence.
Qed.

Lemma bound_alloc_bare w p0 :
  bound w → bound (set_heap (insert (fresh (dom (heap w))) (EnumeratorObj None p0)) w).
Proof.
  intros Hb e c p. simpl. pose proof (fresh_heap w) as Hf.
  destruct (decide (e = fresh (dom (heap w)))) as [->|Hne].
  { by rewrite lookup_insert_eq. }
  rewrite lookup_insert_ne by done. intros He.
  destruct (Hb e c p He) as (r & hu & -> & Hc & Hen).
  exists r, hu. split; [done|]. split; [|done].
  unfold ctx_owns in *. simpl. rewrite lookup_insert_ne; [done|].
  intros <-. congruence.
Qed.

Lemma bound_Enumerator_new arg w :
  contexts_initialised w → bound w → bound (snd (Enumerator.new arg w)).
Proof.
  intros Hi Hb.
  destruct (Enumerator_new_cases arg w)
    as [[_ ->]|[(c & _ & Hc & _)|(c & hu & -> & Hc & ->)]].
  - by apply bound_alloc_bare.
  - by destruct (Hi c None Hc).
  - pose proof (fresh_heap w) as Hf.
    assert (enumerates w !! fresh (dom (enumerates w)) = None) as Hfe
      by apply not_elem_of_dom, is_fresh.
    intros e c0 p. simpl.
    destruct (decide (e = fresh (dom (heap w)))) as [->|Hne].
    + rewrite lookup_insert_eq. intros [= <- <-]. exists c, hu.
      split; [done|]. split.
      * unfold ctx_owns in *. simpl. rewrite lookup_insert_ne; [done|].
        intros <-. congruence.
      * intros h [= <-]. rewrite lookup_insert_eq. by eexists.
    + rewrite lookup_insert_ne by done. intros He.
      destruct (Hb e c0 p He) as (r & hu' & -> & Hc' & Hen).
      exists r, hu'. split; [done|]. split.
      * unfold ctx_owns in *. simpl. rewrite lookup_insert_ne; [done|].
        intros <-. congruence.
      * intros h ->. destruct (Hen h eq_refl) as (en & E & Hu).
        exists en. split; [|done]. rewrite lookup_insert_ne; [done|].
        intros <-. congruence.
Qed.

Lemma bound_delete w0 w r :
  heap w0 = heap w → keeps_connections w w0 → ¬ referenced w r →
  bound w → bound (set_heap (delete r) w0).
Proof.
  intros Hh Hk Hr Hb e c p. simpl. rewrite Hh.
  intros [Hne He]%lookup_delete_Some.
  destruct (Hb e c p He) as (r' & hu & -> & Hc & Hen).
  exists r', hu. split; [done|]. split.
  - unfold ctx_owns in *. simpl. rewrite Hh, lookup_delete_ne; [done|].
    intros <-. apply Hr. by exists e, p.
  - intros h ->. destruct (Hen h eq_refl) as (en & E & Hu).
    destruct (Hk h en E) as (en' & E' & Hu'). exists en'. split; [done|congruence].
Qed.

Lemma keeps_connections_refl w : keeps_connections w w.
Proof. intros h en E. by exists en. Qed.

Lemma bound_finalize r w : ¬ referenced w r → bound w → bound (snd (finalize r w)).
Proof.
  intros Hr Hb.
  destruct (finalize_cases r w) as [(_ & _ & ->)|[(h & _ & ->)|(h & _ & ->)]]; simpl.
  - by apply (bound_delete w w r); [|apply keeps_connections_refl|..].
  - apply (bound_delete _ w r); [done| |done..].
    intros h' en E. by exists en.
  - apply (bound_delete _ w r); [done| |done..].
    intros h' en E. simpl. destruct (decide (h = h')) as [->|Hne].
    + rewrite lookup_alter_eq, E. by eexists.
    + rewrite lookup_alter_ne by done. by exists en.
Qed.

Section bound_facts.
Context `{Platform}.

Lemma only_appends_connections self w w' :
  only_appends self w w' → heap w' = heap w ∧ keeps_connections w w'.
Proof.
  intros (Hh & _ & _ & _ & Hg). split; [done|]. intros h en E.
  destruct (Hg h en E) as (en' & ps & E' & _ & _ & _ & Hu). by exists en'.
Qed.

Lemma keeps_filters_connections w w' : keeps_filters w w' → keeps_connections w w'.
Proof.
  intros Hk h en E. destruct (Hk h en E) as (en' & E' & _ & _ & Hu). by exists en'.
Qed.

Lemma bound_step w w' : step w w' → sound w → bound w → bound w'.
Proof.
  destruct 1 as [w|w arg|w c kw|w self op|w g|w r Hr|w reg]; intros [_ Hi] Hb.
  - by apply bound_Context_new.
  - by apply bound_Enumerator_new.
  - unfold Context.list_devices, bind.
    pose proof (bound_Enumerator_new (PyRef c) w Hi Hb) as Hn.
    destruct (Enumerator.new (PyRef c) w) as [[e|x] w1]; [|done].
    destruct (only_appends_connections e w1 _ (only_appends_match e kw w1)).
    by eapply bound_same_heap.
  - destruct (only_appends_connections self w _ (only_appends_call_filter self op w)).
    by eapply bound_same_heap.
  - apply (bound_same_heap w); [|by apply keeps_filters_connections, keeps_filters_next|done].
    by destruct (frame_next g w).
  - by apply bound_finalize.
  - exact Hb.
Qed.

Lemma bound_reachable w : reachable w → bound w.
Proof.
  intros (w0 & Hi & Hsteps).
  assert (sound w0 ∧ bound w0) as Hgood
    by (split; [by apply sound_initial|by apply bound_initial]).
  clear Hi. induction Hsteps as [|w1 w2 w3 Hs _ IH]; [by destruct Hgood|].
  apply IH. destruct Hgood as [Hsound Hb].
  split; [by eapply sound_step|by eapply bound_step].
Qed.

End bound_facts.

Lemma context_first_insert w w' r o :
  heap w' = <[r := o]> (heap w) → (∀ h, o ≠ EnumeratorObj None (Some h)) →
  context_first w → context_first w'.
Proof.
  intros Hh Ho Hw e c h. rewrite Hh.
  destruct (decide (e = r)) as [->|Hne].
  - rewrite lookup_insert_eq. intros [= ->]. destruct c; [done|by destruct (Ho h)].
  - rewrite lookup_insert_ne by done. apply Hw.
Qed.

Lemma context_first_delete w w' r :
  heap w' = delete r (heap w) → context_first w → context_first w'.
Proof.
  intros Hh Hw e c h. rewrite Hh. intros [_ He]%lookup_delete_Some. by eapply Hw.
Qed.

Lemma context_first_same w w' : heap w' = heap w → context_first w → context_first w'.
Proof. intros Hh Hw e c h. rewrite Hh. apply Hw. Qed.

Section context_first_facts.
Context `{Platform}.

Lemma context_first_step w w' : step w w' → context_first w → context_first w'.
Proof.
  assert (∀ arg w, context_first w → context_first (snd (Enumerator.new arg w))) as Hnew.
  { intros arg w0 Hw0.
    destruct (Enumerator_new_cases arg w0)
      as [[_ ->]|[(c & _ & _ & ->)|(c & hu & _ & _ & ->)]];
      by eapply context_first_insert. }
  destruct 1 as [w|w arg|w c kw|w self op|w g|w r Hr|w reg]; intros Hw.
  - rewrite Context_new_world. by eapply context_first_insert.
  - by apply Hnew.
  - unfold Context.list_devices, bind. specialize (Hnew (PyRef c) w Hw).
    destruct (Enumerator.new (PyRef c) w) as [[e|x] w1]; [|done].
    apply (context_first_same w1); [|done].
    by destruct (only_appends_match e kw w1).
  - apply (context_first_same w); [|done].
    by destruct (only_appends_call_filter self op w).
  - apply (context_first_same w); [|done]. by destruct (frame_next g w).
  - destruct (finalize_cases r w) as [(_ & _ & ->)|[(h & _ & ->)|(h & _ & ->)]];
      by eapply context_first_delete.
  - exact Hw.
Qed.

Lemma context_first_reachable w : reachable w → context_first w.
Proof.
  intros (w0 & (_ & _ & Hh & _) & Hsteps).
  assert (context_first w0) as Hw0 by (intros e c h; by rewrite Hh).
  clear Hh. induction Hsteps as [|w1 w2 w3 Hs _ IH]; [done|].
  apply IH. by eapply context_first_step.
Qed.

Lemma reachable_enumerator w self h :
  reachable w → en_owns w self h →
  ∃ c hu en,
    heap w !! self = Some (EnumeratorObj (Some (PyRef c)) (Some h))
    ∧ ctx_owns w c hu ∧ enumerates w !! h = Some en ∧ en_udev en = hu.
Proof.
  intros Hr [c0 Hs].
  destruct (context_first_reachable w Hr self c0 h Hs) as [c ->].
  destruct (bound_reachable w Hr self c (Some h) Hs) as (r & hu & -> & Hc & Hen).
  destruct (Hen h eq_refl) as (en & E & Hu). by exists r, hu, en.
Qed.

End context_first_facts.

(** * The claims *)

(** C1: iterating an initialised Enumerator of a Context to the end,
    the sys paths of the registry surviving decoding and encoding,
    yields one device per device of the registry that passes the
    accumulated match list, in registry order; a device passes exactly when, for
    every kind of predicate present in the list, at least one
    predicate of that kind holds of it (OR within a kind, AND across
    kinds).  With the filters subsystem block, property ID_TYPE disk
    and property DEVTYPE disk on a new Enumerator these are the devices
    with subsystem block and (ID_TYPE disk or DEVTYPE disk). *)
Theorem iteration_combines_filters `{Platform}
    (self c : objref) (h hu : handle) (e : udev_enumerate) (n : nat) (w : world) :
  heap w !! self = Some (EnumeratorObj (Some (PyRef c)) (Some h)) →
  ctx_owns w c hu →
  enumerates w !! h = Some e →
  forallb (fun d => roundtrips (dev_sys_path d)) (registry w) = true →
  length (registry w) < n →
  (∃ w', (let* g := Enumerator.__iter__ self in take n g) w
         = (Ok (map (fun d => PyDevice (dev_sys_path d))
                    (filter (fun d => passes (en_filters e) d = true) (registry w)),
                GenFinished), w'))
  ∧ (∀ d, passes (en_filters e) d = true ↔ combined (en_filters e) d)
  ∧ (en_filters e = [] →
     ∃ w', (Enumerator.match_subsystem self (PyBytes "block");;
            Enumerator.match_property self (PyBytes "ID_TYPE") (PyBytes "disk");;
            Enumerator.match_property self (PyBytes "DEVTYPE") (PyBytes "disk");;
            let* g := Enumerator.__iter__ self in take n g) w
           = (Ok (map (fun d => PyDevice (dev_sys_path d))
                      (filter block_disk (registry w)),
                  GenFinished), w')).
Proof.
  intros Hs Hc He Hall Hn. split; [|split].
  - destruct (take_created self c h hu e n w Hs Hc He Hall Hn) as (w' & E & _).
    exists w'. unfold Enumerator.__iter__. by rewrite bind_ret_l.
  - intros d. apply passes_combined.
  - intros Hfs. by apply (take_block_disk self c h hu e).
Qed.

Lemma iteration_combines_filters_witness :
  ∃ w', (Enumerator.match_subsystem (H := ascii_platform) 1 (PyBytes "block");;
         Enumerator.match_property (H := ascii_platform) 1
           (PyBytes "ID_TYPE") (PyBytes "disk");;
         Enumerator.match_property (H := ascii_platform) 1
           (PyBytes "DEVTYPE") (PyBytes "disk");;
         let* g := Enumerator.__iter__ 1 in take (H := ascii_platform) 6 g) world_enum
        = (Ok ([PyDevice "/sys/devices/sda"; PyDevice "/sys/devices/sr0"],
               GenFinished), w').
Proof.
  apply (proj2 (proj2 (iteration_combines_filters (H := ascii_platform)
                         1 0 0 0 (UdevEnumerate 1 0 [] []) 6 world_enum
                         eq_refl eq_refl eq_refl eq_refl
                         ltac:(vm_compute; lia)))).
  reflexivity.
Defined.

(** C2 as stated fails: with [subsystem=None] the keyword is not handed
    to [match_subsystem] (which would reject [None]); the call returns
    normally and adds nothing. *)
Lemma match_forwarding_refuted :
  Enumerator.match_ (H := ascii_platform) 1 [("subsystem", PyNone)] world_enum
  ≠ match_forwarding (H := ascii_platform) 1 [("subsystem", PyNone)] world_enum.
Proof. vm_compute. discriminate. Qed.

(** C2 (amended): [Enumerator.match] hands the keywords [subsystem],
    [sys_name], [tag] and [parent], each when present with a value other
    than [None], to [match_subsystem], [match_sys_name], [match_tag] and
    [match_parent], in that order, and then every other keyword to
    [match_property], the keyword as property name and its value as
    property value; an exception raised on the way ends the call. *)
Theorem match_routes_keywords `{Platform} (self : objref) (kw : kwargs) (w : world) :
  Enumerator.match_ self kw w = match_routing self kw w.
Proof. apply match_routing_eq. Qed.

(** C3: [match()] without keyword arguments returns normally and leaves
    the world as it was: no predicate is added and no state changes; a
    new Enumerator on which it was called yields what a new Enumerator
    without any filter yields. *)
Theorem match_without_keywords_is_noop `{Platform} (self : objref) (w : world) :
  Enumerator.match_ self [] w = (Ok (PyRef self), w)
  ∧ ∀ context n,
      bind (Enumerator.new context) (fun e =>
        Enumerator.match_ e [];;
        let* g := Enumerator.__iter__ e in take n g) w
      = bind (Enumerator.new context) (fun e =>
          let* g := Enumerator.__iter__ e in take n g) w.
Proof.
  split; [reflexivity|].
  intros context n. apply bind_ext. reflexivity.
Qed.

(** C4: [Context.list_devices] constructs a new Enumerator bound to the
    Context, applies [match] with the keyword arguments to it and
    returns that Enumerator: it is [match] called on [Enumerator(c)], the
    value it returns is the instance just constructed, and for a
    Context [c] that instance has [c] as its context and a new native
    enumeration object bound to the registry handle of [c]. *)
Theorem list_devices_is_new_then_match `{Platform} (c : objref) (kw : kwargs) (w : world) :
  Context.list_devices c kw w = list_devices_spec c kw w
  ∧ (∀ v w', Context.list_devices c kw w = (Ok v, w') →
             v = PyRef (fresh (dom (heap w))) ∧ heap w !! fresh (dom (heap w)) = None)
  ∧ (∀ hu, ctx_owns w c hu →
       ∃ h w1,
         Enumerator.new (PyRef c) w = (Ok (fresh (dom (heap w))), w1)
         ∧ heap w1 !! fresh (dom (heap w))
           = Some (EnumeratorObj (Some (PyRef c)) (Some h))
         ∧ enumerates w !! h = None
         ∧ enumerates w1 !! h = Some (UdevEnumerate 1 hu [] [])).
Proof.
  split; [apply list_devices_eq|split].
  - intros v w' E. split; [by eapply list_devices_returns_new|apply fresh_heap].
  - intros hu Hc. by apply Enumerator_new_bound.
Qed.

Lemma list_devices_is_new_then_match_witness :
  ∃ h w1,
    Enumerator.new (PyRef 0) world_ctx = (Ok 1, w1)
    ∧ heap w1 !! 1 = Some (EnumeratorObj (Some (PyRef 0)) (Some h))
    ∧ enumerates world_ctx !! h = None
    ∧ enumerates w1 !! h = Some (UdevEnumerate 1 0 [] []).
Proof.
  apply (proj2 (proj2 (list_devices_is_new_then_match (H := ascii_platform)
                         0 [] world_ctx)) 0).
  reflexivity.
Defined.

(** C10: a recognized keyword passed as [None] is the same as the
    keyword left out: no filter is added for it and it does not reach
    [match_property]. *)
Theorem match_None_is_omitted `{Platform}
    (self : objref) (k : bytes) (kw1 kw2 : kwargs) (w : world) :
  k ∈ recognized → k ∉ (kw1 ++ kw2).*1 →
  Enumerator.match_ self (kw1 ++ (k, PyNone) :: kw2) w
  = Enumerator.match_ self (kw1 ++ kw2) w.
Proof. apply match_None_elided. Qed.

Lemma match_None_is_omitted_witness :
  Enumerator.match_ (H := ascii_platform) 1
    ([("ID_TYPE", PyBytes "disk")] ++ ("subsystem", PyNone) :: [("tag", PyText (u"seat"))])
    world_enum
  = Enumerator.match_ (H := ascii_platform) 1
      ([("ID_TYPE", PyBytes "disk")] ++ [("tag", PyText (u"seat"))]) world_enum.
Proof.
  apply (match_None_is_omitted (H := ascii_platform)).
  - apply (bool_decide_unpack _). vm_compute. exact I.
  - apply (bool_decide_unpack _). vm_compute. exact I.
Defined.

(** C5: constructing an Enumerator from anything that is not a Context
    raises [TypeError] at once: [__init__] leaves the world as it found
    it, so no native enumeration handle is acquired (no native call is
    made, the native tables are unchanged) and the new instance has
    neither of its attributes set. *)
Theorem Enumerator_rejects_non_Context (arg : pyvalue) (w : world) :
  is_Context w arg = false →
  (∀ self, Enumerator.__init__ self arg w
           = (Raise (TypeError "Invalid context object"), w))
  ∧ fst (Enumerator.new arg w) = Raise (TypeError "Invalid context object")
  ∧ trace (snd (Enumerator.new arg w)) = trace w
  ∧ enumerates (snd (Enumerator.new arg w)) = enumerates w
  ∧ udevs (snd (Enumerator.new arg w)) = udevs w
  ∧ heap (snd (Enumerator.new arg w))
    = <[fresh (dom (heap w)) := EnumeratorObj None None]> (heap w).
Proof.
  intros Hc. split.
  - intros self. by apply Enumerator_init_rejects.
  - by rewrite (Enumerator_new_rejects _ _ Hc).
Qed.

Lemma Enumerator_rejects_non_Context_witness :
  fst (Enumerator.new (PyRef 1) world_enum) = Raise (TypeError "Invalid context object")
  ∧ trace (snd (Enumerator.new (PyRef 1) world_enum)) = trace world_enum.
Proof.
  assert (is_Context world_enum (PyRef 1) = false) as Hc by reflexivity.
  destruct (Enumerator_rejects_non_Context (PyRef 1) world_enum Hc)
    as (_ & Hr & Ht & _).
  exact (conj Hr Ht).
Defined.

(** C6 as stated fails: calling [__iter__] creates a generator and
    runs none of its body, so the call itself makes no native call. *)
Lemma iter_call_does_not_scan : ¬ iter_call_scans 1 world_enum.
Proof.
  intros (h & rest & E). simpl in E.
  apply (f_equal length) in E. rewrite length_app in E. simpl in E. lia.
Qed.

(** C6 (amended): the scan and the list-head retrieval happen neither
    at construction nor in the call of [__iter__]; the first [next()]
    of the generator scans once and then retrieves the list head, every
    later [next()] does neither, so an iteration that is advanced
    performs exactly one scan, at its start, and iterating the same
    Enumerator again scans again. *)
Theorem scan_once_per_iteration `{Platform} (self : objref) (h : handle) (w : world) :
  en_owns w self h →
  (∀ arg w0, scan_calls (trace (snd (Enumerator.new arg w0))) = scan_calls (trace w0))
  ∧ Enumerator.__iter__ self w = (Ok (GenCreated self), w)
  ∧ scanned h w (snd (Enumerator.next (GenCreated self) w))
  ∧ (∀ g w0, started g = true → steady is_walk_call w0 (snd (Enumerator.next g w0)))
  ∧ (∀ n, 0 < n → scanned h w (snd (take n (GenCreated self) w)))
  ∧ (∀ n m, 0 < n → 0 < m →
       scan_calls (trace (snd (take m (GenCreated self)
                                 (snd (take n (GenCreated self) w)))))
       = scan_calls (trace w)
         ++ [scan_devices_call h; get_list_entry_call h;
             scan_devices_call h; get_list_entry_call h]).
Proof.
  intros Ho. split; [|split; [|split; [|split; [|split]]]].
  - apply Enumerator_new_no_scan.
  - reflexivity.
  - by apply next_created_scanned.
  - intros g w0 Hg. by apply frame_next_started.
  - intros n Hn. by apply take_created_scanned.
  - intros n m Hn Hm.
    pose proof (take_created_scanned self h n w Ho Hn) as H1.
    pose proof (scanned_owns _ _ _ _ _ H1 Ho) as Ho1.
    pose proof (take_created_scanned self h m _ Ho1 Hm) as H2.
    rewrite (scanned_scan_calls _ _ _ H2), (scanned_scan_calls _ _ _ H1).
    by rewrite <- app_assoc.
Qed.

Lemma scan_once_per_iteration_witness :
  scan_calls (trace (snd (take (H := ascii_platform) 6 (GenCreated 1)
                            (snd (take (H := ascii_platform) 6 (GenCreated 1)
                                    world_enum)))))
  = [scan_devices_call 0; get_list_entry_call 0;
     scan_devices_call 0; get_list_entry_call 0].
Proof.
  assert (en_owns world_enum 1 0) as Ho by (exists (Some (PyRef 0)); reflexivity).
  destruct (scan_once_per_iteration (H := ascii_platform) 1 0 world_enum Ho)
    as (_ & _ & _ & _ & _ & Hre).
  apply (Hre 6 6); lia.
Defined.

(** C7: values that stand for the same text (a boolean for 1 or 0, an
    integer for its decimal text, a byte string for the text it
    encodes) are normalised alike, so [True], [1] and the text 1 reach
    the native layer as the same byte string; [match_property] and
    [match_attribute] hand the same key and value bytes over. *)
Theorem values_normalize_alike `{Platform} (v v' : pyvalue) (t : text) :
  denotes v t → denotes v' t →
  (∀ w, util.property_value_to_bytes v w = util.property_value_to_bytes v' w)
  ∧ (∀ self k w, Enumerator.match_property self k v w
                 = Enumerator.match_property self k v' w)
  ∧ (∀ self k w, Enumerator.match_attribute self k v w
                 = Enumerator.match_attribute self k v' w)
  ∧ (∀ self k w,
       handed (trace (snd (Enumerator.match_property self k v w)))
       = handed (trace (snd (Enumerator.match_attribute self k v' w)))).
Proof.
  intros Hv Hv'. repeat split.
  - intros w. by rewrite (denotes_normal v t), (denotes_normal v' t).
  - intros. by rewrite (match_property_normal _ _ v t), (match_property_normal _ _ v' t).
  - intros. by rewrite (match_attribute_normal _ _ v t), (match_attribute_normal _ _ v' t).
  - intros. rewrite handed_same.
    by rewrite (match_attribute_normal _ _ v t), (match_attribute_normal _ _ v' t).
Qed.

Lemma values_normalize_alike_witness :
  (∀ w, util.property_value_to_bytes (H := ascii_platform) (PyBool true) w
        = util.property_value_to_bytes (H := ascii_platform) (PyText (u"1")) w)
  ∧ (∀ w, util.property_value_to_bytes (H := ascii_platform) (PyInt 1) w
          = util.property_value_to_bytes (H := ascii_platform) (PyBytes "1") w).
Proof.
  split.
  - apply (values_normalize_alike (H := ascii_platform) (PyBool true) (PyText (u"1")) (u"1")).
    + exact (denotes_bool true).
    + exact (denotes_text (u"1")).
  - apply (values_normalize_alike (H := ascii_platform) (PyInt 1) (PyBytes "1") (u"1")).
    + exact (denotes_int 1).
    + apply (denotes_bytes (H := ascii_platform) "1" (u"1")). reflexivity.
Defined.

(** C8: every filter operation that returns, returns the instance it
    was called on; on an initialised Enumerator with acceptable
    arguments it does return; and a call chained on its result is a
    call on the same instance. *)
Theorem filters_return_self `{Platform} (self : objref) (op : filter_op) (w : world) :
  (∀ v w', call_filter self op w = (Ok v, w') → v = PyRef self)
  ∧ (∀ h, en_owns w self h → args_ok op = true →
          ∃ w', call_filter self op w = (Ok (PyRef self), w'))
  ∧ (∀ op', bind (call_filter self op) (fun v => call_method v op') w
            = bind (call_filter self op) (fun _ => call_filter self op') w).
Proof.
  split; [|split].
  - intros v w'. apply call_filter_returns_self.
  - intros h Ho Hok.
    destruct (succeeds_call_filter self h op Hok w Ho) as (v & w' & E & _).
    exists w'. by rewrite (call_filter_returns_self _ _ _ _ _ E) in E.
  - intros op'. apply call_filter_chain.
Qed.

Lemma filters_return_self_witness :
  ∃ w', call_filter (H := ascii_platform) 1
          (Op_match [("subsystem", PyText (u"block")); ("parent", PyNone);
                     ("ID_TYPE", PyBytes "disk"); ("ID_CDROM", PyBool true)])
          world_enum
        = (Ok (PyRef 1), w').
Proof.
  apply (proj1 (proj2 (filters_return_self (H := ascii_platform) 1 _ world_enum)) 0).
  - exists (Some (PyRef 0)). reflexivity.
  - reflexivity.
Defined.

(** C9: in every world a program can reach, each Context instance holds
    a native registry handle with exactly one reference, acquired by
    one call at construction and not released while the instance
    lives, and no other instance holds it; each initialised Enumerator
    likewise holds its own enumeration handle; a handle whose holder is
    gone has no reference left and was released by exactly one call.
    Destroying a Context releases its handle once; destroying an
    Enumerator releases its enumeration handle once and leaves the
    registry handles, and the Contexts holding them, as they were. *)
Theorem native_references_accounted `{Platform} (w : world) :
  reachable w →
  (∀ r p, heap w !! r = Some (ContextObj p) →
     ∃ h, p = Some h ∧ udevs w !! h = Some 1
          ∧ count (acquires_udev h) (trace w) = 1
          ∧ count (releases_udev h) (trace w) = 0
          ∧ ∀ r', ctx_owns w r' h → r' = r)
  ∧ (∀ r h, en_owns w r h →
       refs_of w h = Some 1
       ∧ count (acquires_enumerate h) (trace w) = 1
       ∧ count (releases_enumerate h) (trace w) = 0
       ∧ ∀ r', en_owns w r' h → r' = r)
  ∧ (∀ h n, udevs w !! h = Some n → (∀ r, ¬ ctx_owns w r h) →
       n = 0 ∧ count (acquires_udev h) (trace w) = 1
       ∧ count (releases_udev h) (trace w) = 1)
  ∧ (∀ h n, refs_of w h = Some n → (∀ r, ¬ en_owns w r h) →
       n = 0 ∧ count (acquires_enumerate h) (trace w) = 1
       ∧ count (releases_enumerate h) (trace w) = 1)
  ∧ (∀ r h, ctx_owns w r h →
       udevs (snd (finalize r w)) !! h = Some 0
       ∧ count (releases_udev h) (trace (snd (finalize r w))) = 1
       ∧ heap (snd (finalize r w)) !! r = None)
  ∧ (∀ r h, en_owns w r h →
       refs_of (snd (finalize r w)) h = Some 0
       ∧ count (releases_enumerate h) (trace (snd (finalize r w))) = 1
       ∧ heap (snd (finalize r w)) !! r = None
       ∧ udevs (snd (finalize r w)) = udevs w
       ∧ (∀ hu, count (releases_udev hu) (trace (snd (finalize r w)))
                = count (releases_udev hu) (trace w))
       ∧ (∀ c hu, ctx_owns w c hu → ctx_owns (snd (finalize r w)) c hu)).
Proof.
  intros Hr. destruct (sound_reachable w Hr) as [[Lu Le] Hinit].
  destruct Lu as (Ulive & Uuniq & Udead & _).
  destruct Le as (Elive & Euniq & Edead & _).
  split; [|split; [|split; [|split; [|split]]]].
  - intros r p Hp. destruct (Hinit r p Hp) as [h ->].
    destruct (Ulive r h Hp) as (? & ? & ?).
    exists h. repeat split; try done.
    intros r' Hr'. by apply (Uuniq r' r h).
  - intros r h Ho. destruct (Elive r h Ho) as (? & ? & ?).
    repeat split; try done. intros r' Hr'. by apply (Euniq r' r h).
  - apply Udead.
  - apply Edead.
  - intros r h Ho. destruct (Ulive r h Ho) as (? & ? & ?).
    by apply finalize_Context.
  - intros r h Ho. destruct (Elive r h Ho) as (? & ? & ?).
    by apply finalize_Enumerator.
Qed.

Lemma native_references_accounted_witness :
  udevs world_enum !! 0 = Some 1
  ∧ refs_of world_enum 0 = Some 1
  ∧ refs_of (snd (finalize 1 world_enum)) 0 = Some 0
  ∧ udevs (snd (finalize 1 world_enum)) = udevs world_enum.
Proof.
  destruct (native_references_accounted (H := ascii_platform) world_enum
              reachable_world_enum)
    as (Hctx & Hen & _ & _ & _ & Hdel).
  assert (en_owns world_enum 1 0) as Ho by (exists (Some (PyRef 0)); reflexivity).
  destruct (Hen 1 0 Ho) as (Hrefs & _).
  destruct (Hdel 1 0 Ho) as (Hzero & _ & _ & Hudevs & _).
  split; [reflexivity|]. by split; [|split].
Defined.

(** * Further properties of the filters and of the iteration *)

(** X1: a single-purpose filter that raises has changed nothing: no
    predicate was added and no native call was made. *)
Theorem single_filter_failure_is_clean `{Platform}
    (self : objref) (op : filter_op) (w w' : world) (e : exn) :
  is_single op = true →
  call_filter self op w = (Raise e, w') →
  w' = w.
Proof. apply call_single_raises. Qed.

Lemma single_filter_failure_is_clean_witness :
  snd (call_filter (H := ascii_platform) 1 (Op_match_subsystem (PyInt 5)) world_enum)
  = world_enum.
Proof.
  apply (single_filter_failure_is_clean (H := ascii_platform)
           1 (Op_match_subsystem (PyInt 5)) world_enum _ InvalidArgument).
  - reflexivity.
  - reflexivity.
Defined.

(** X2: on an initialised Enumerator a single-purpose filter whose
    arguments are accepted returns the instance after appending exactly
    one predicate, made of the normalised bytes of its arguments, at the
    end of the match list of its own enumeration object, by one native
    call. *)
Theorem single_filter_appends `{Platform}
    (self : objref) (h : handle) (e : udev_enumerate)
    (op : filter_op) (p : predicate) (w : world) :
  is_single op = true → en_owns w self h → enumerates w !! h = Some e →
  predicate_of op = Some p →
  call_filter self op w = (Ok (PyRef self), added p h w)
  ∧ enumerates (added p h w) !! h
    = Some (UdevEnumerate (en_refs e) (en_udev e) (en_filters e ++ [p]) (en_devices e))
  ∧ trace (added p h w) = trace w ++ [add_match_call h p]
  ∧ heap (added p h w) = heap w.
Proof.
  intros Hs Ho He Hp. split; [by apply call_single_adds|].
  split; [|done]. by rewrite (added_enumerates p h e w He).
Qed.

Lemma single_filter_appends_witness :
  call_filter (H := ascii_platform) 1 (Op_match_attribute (PyText (u"removable")) (PyBool true))
    world_enum
  = (Ok (PyRef 1), added (P_attribute "removable" "1") 0 world_enum).
Proof.
  apply (single_filter_appends (H := ascii_platform) 1 0 (UdevEnumerate 1 0 [] [])).
  - reflexivity.
  - exists (Some (PyRef 0)). reflexivity.
  - reflexivity.
  - reflexivity.
Defined.

(** X3: on an initialised Enumerator, [match] with acceptable keyword
    arguments returns the instance after appending to its match list,
    in this order, the predicates of [subsystem], [sys_name], [tag] and
    [parent] (each when given and not [None]) and then one property
    predicate per other keyword, in the iteration order of the keyword
    dictionary; it makes one native call per predicate and no other. *)
Theorem match_appends_in_order `{Platform}
    (self : objref) (h : handle) (e : udev_enumerate) (kw : kwargs) (w : world) :
  en_owns w self h → enumerates w !! h = Some e →
  forallb keyword_ok kw = true →
  ∃ w', Enumerator.match_ self kw w = (Ok (PyRef self), w')
        ∧ enumerates w' !! h
          = Some (UdevEnumerate (en_refs e) (en_udev e)
                    (en_filters e ++ match_filters kw) (en_devices e))
        ∧ trace w' = trace w ++ map (add_match_call h) (match_filters kw)
        ∧ heap w' = heap w ∧ udevs w' = udevs w ∧ registry w' = registry w.
Proof.
  intros Ho He Hall. exists (adds (match_filters kw) h w).
  split; [by apply match_adds|].
  rewrite (adds_enumerates _ h e w He), adds_trace, adds_heap, adds_udevs,
    adds_registry. done.
Qed.

Lemma match_appends_in_order_witness :
  ∃ w', Enumerator.match_ (H := ascii_platform) 1
          [("ID_TYPE", PyBytes "disk"); ("tag", PyText (u"seat"));
           ("parent", PyNone); ("subsystem", PyBytes "block"); ("ID_CDROM", PyInt 1)]
          world_enum
        = (Ok (PyRef 1), w')
        ∧ enumerates w' !! 0
          = Some (UdevEnumerate 1 0
                    [P_subsystem "block"; P_tag "seat";
                     P_property "ID_TYPE" "disk"; P_property "ID_CDROM" "1"] [])
        ∧ trace w' = trace world_enum
                     ++ [add_match_call 0 (P_subsystem "block");
                         add_match_call 0 (P_tag "seat");
                         add_match_call 0 (P_property "ID_TYPE" "disk");
                         add_match_call 0 (P_property "ID_CDROM" "1")]
        ∧ heap w' = heap world_enum ∧ udevs w' = udevs world_enum
        ∧ registry w' = registry world_enum.
Proof.
  apply (match_appends_in_order (H := ascii_platform) 1 0 (UdevEnumerate 1 0 [] [])).
  - exists (Some (PyRef 0)). reflexivity.
  - reflexivity.
  - reflexivity.
Defined.

(** X4: [match] is not all-or-nothing: when [subsystem] is accepted and
    [sys_name] is given a value that is neither [None] nor a string,
    the call raises and the subsystem predicate stays on the match
    list; nothing else was added. *)
Theorem match_stops_at_first_error `{Platform}
    (self : objref) (h : handle) (kw : kwargs) (v v' : pyvalue) (b : bytes) (w : world) :
  en_owns w self h →
  dict_get "subsystem" kw = Some v → bytes_of v = Some b →
  dict_get "sys_name" kw = Some v' → is_not_None v' = true → bytes_of v' = None →
  ∃ e, Enumerator.match_ self kw w = (Raise e, added (P_subsystem b) h w).
Proof. apply match_partial. Qed.

Lemma match_stops_at_first_error_witness :
  ∃ e, Enumerator.match_ (H := ascii_platform) 1
         [("sys_name", PyInt 3); ("subsystem", PyBytes "block")] world_enum
       = (Raise e, added (P_subsystem "block") 0 world_enum).
Proof.
  apply (match_stops_at_first_error (H := ascii_platform) 1 0 _
           (PyBytes "block") (PyInt 3) "block").
  - exists (Some (PyRef 0)). reflexivity.
  - reflexivity.
  - reflexivity.
  - reflexivity.
  - reflexivity.
  - reflexivity.
Defined.

(** X5: whatever its arguments and whether it returns or raises, a
    filter operation only appends: every enumeration object keeps its
    match list as a prefix and its entry list, reference count and
    connection; only the enumeration object of the instance it is
    called on can change, so the filters of one Enumerator never touch
    another; instances, registry and connections stay as they were. *)
Theorem filters_only_append `{Platform} (self : objref) (op : filter_op) (w : world) :
  only_appends self w (snd (call_filter self op w)).
Proof. apply only_appends_call_filter. Qed.

(** X6: iterating, by one [next()] or by several, never changes a
    match list, a reference count or the connection of any enumeration
    object, nor the instances, the registry or the connections; its
    native calls are scans, list-head retrievals, list walks and
    device resolutions only. *)
Theorem iteration_keeps_filters `{Platform} (g : generator) (n : nat) (w : world) :
  keeps_filters w (snd (Enumerator.next g w))
  ∧ steady is_iteration_call w (snd (Enumerator.next g w))
  ∧ keeps_filters w (snd (take n g w))
  ∧ steady is_iteration_call w (snd (take n g w)).
Proof.
  split; [apply keeps_filters_next|]. split; [apply frame_next|].
  split; [apply keeps_filters_take|apply frame_take].
Qed.



(** X8: for a Context and acceptable keyword arguments, iterating what
    [list_devices] returns to the end yields exactly the devices of the
    registry that pass the predicates of the keywords, in registry
    order. *)
Theorem list_devices_yields_matching `{Platform}
    (c : objref) (hu : handle) (kw : kwargs) (n : nat) (w : world) :
  ctx_owns w c hu → forallb keyword_ok kw = true →
  forallb (fun d => roundtrips (dev_sys_path d)) (registry w) = true →
  length (registry w) < n →
  ∃ w', (let* e := Context.list_devices c kw in islice e n) w
        = (Ok (yielded (match_filters kw) (registry w), GenFinished), w').
Proof. apply list_devices_yields. Qed.

Lemma list_devices_yields_matching_witness :
  ∃ w', (let* e := Context.list_devices (H := ascii_platform) 0
                     [("DEVTYPE", PyBytes "disk"); ("subsystem", PyText (u"block"))]
         in islice (H := ascii_platform) e 6) world_ctx
        = (Ok ([PyDevice "/sys/devices/sr0"], GenFinished), w').
Proof.
  apply (list_devices_yields_matching (H := ascii_platform) 0 0
           [("DEVTYPE", PyBytes "disk"); ("subsystem", PyText (u"block"))] 6 world_ctx).
  - reflexivity.
  - reflexivity.
  - reflexivity.
  - simpl. lia.
Defined.

(** X9: [list_devices] without arguments lists all devices: iterating
    its result to the end yields every device of the registry, in
    registry order. *)
Theorem list_devices_without_arguments_yields_all `{Platform}
    (c : objref) (hu : handle) (n : nat) (w : world) :
  ctx_owns w c hu →
  forallb (fun d => roundtrips (dev_sys_path d)) (registry w) = true →
  length (registry w) < n →
  ∃ w', (let* e := Context.list_devices c [] in islice e n) w
        = (Ok (map (fun d => PyDevice (dev_sys_path d)) (registry w), GenFinished), w').
Proof.
  intros Hc Hall Hn.
  destruct (list_devices_yields c hu [] n w Hc eq_refl Hall Hn) as (w' & E).
  exists w'. rewrite E. by rewrite <- yielded_nil.
Qed.

Lemma list_devices_without_arguments_yields_all_witness :
  ∃ w', (let* e := Context.list_devices (H := ascii_platform) 0 []
         in islice (H := ascii_platform) e 6) world_ctx
        = (Ok ([PyDevice "/sys/devices/sda"; PyDevice "/sys/devices/sda/sda1";
                PyDevice "/sys/devices/sr0"; PyDevice "/sys/devices/eth0";
                PyDevice "/sys/devices/loop0"], GenFinished), w').
Proof.
  apply (list_devices_without_arguments_yields_all (H := ascii_platform) 0 0 6 world_ctx).
  - reflexivity.
  - reflexivity.
  - simpl. lia.
Defined.

(** X10: the order of the keyword arguments does not matter: two calls
    of [list_devices] on the same Context whose acceptable keyword
    dictionaries hold the same items in different iteration orders
    yield the same devices. *)
Theorem keyword_order_is_immaterial `{Platform}
    (c : objref) (hu : handle) (kw kw' : kwargs) (n : nat) (w : world) :
  ctx_owns w c hu → NoDup kw.*1 → kw ≡ₚ kw' →
  forallb keyword_ok kw = true →
  forallb (fun d => roundtrips (dev_sys_path d)) (registry w) = true →
  length (registry w) < n →
  ∃ ds w1 w2,
    (let* e := Context.list_devices c kw in islice e n) w
    = (Ok (ds, GenFinished), w1)
    ∧ (let* e := Context.list_devices c kw' in islice e n) w
      = (Ok (ds, GenFinished), w2).
Proof.
  intros Hc Hnd Hp Hall Hrt Hn.
  destruct (list_devices_yields c hu kw n w Hc Hall Hrt Hn) as (w1 & E1).
  destruct (list_devices_yields c hu kw' n w Hc (keyword_ok_perm kw kw' Hp Hall) Hrt Hn)
    as (w2 & E2).
  exists (yielded (match_filters kw) (registry w)), w1, w2. split; [done|].
  rewrite E2. by rewrite (yielded_perm _ _ _ (match_filters_perm kw kw' Hnd Hp)).
Qed.

Lemma keyword_order_is_immaterial_witness :
  ∃ ds w1 w2,
    (let* e := Context.list_devices (H := ascii_platform) 0
                 [("ID_TYPE", PyBytes "disk"); ("subsystem", PyBytes "block")]
     in islice (H := ascii_platform) e 6) world_ctx
    = (Ok (ds, GenFinished), w1)
    ∧ (let* e := Context.list_devices (H := ascii_platform) 0
                   [("subsystem", PyBytes "block"); ("ID_TYPE", PyBytes "disk")]
       in islice (H := ascii_platform) e 6) world_ctx
      = (Ok (ds, GenFinished), w2).
Proof.
  apply (keyword_order_is_immaterial (H := ascii_platform) 0 0
           [("ID_TYPE", PyBytes "disk"); ("subsystem", PyBytes "block")]
           [("subsystem", PyBytes "block"); ("ID_TYPE", PyBytes "disk")] 6 world_ctx).
  - reflexivity.
  - apply (bool_decide_unpack _). vm_compute. exact I.
  - apply perm_swap.
  - reflexivity.
  - reflexivity.
  - simpl. lia.
Defined.

(** X11: the iteration is lazy: asking an initialised Enumerator for
    its first [k] devices, [k] not above the number it would yield,
    yields those [k] devices and resolves exactly [k] devices. *)
Theorem iteration_is_lazy `{Platform}
    (self c : objref) (h hu : handle) (e : udev_enumerate) (k : nat) (w : world) :
  heap w !! self = Some (EnumeratorObj (Some (PyRef c)) (Some h)) →
  ctx_owns w c hu → enumerates w !! h = Some e →
  forallb (fun d => roundtrips (dev_sys_path d)) (registry w) = true →
  (k ≤ length (yielded (en_filters e) (registry w)))%nat →
  ∃ g' w', take k (GenCreated self) w
           = (Ok (firstn k (yielded (en_filters e) (registry w)), g'), w')
           ∧ count is_resolver_call (trace w')
             = count is_resolver_call (trace w) + k.
Proof. apply take_created_prefix. Qed.

Lemma iteration_is_lazy_witness :
  ∃ g' w', take (H := ascii_platform) 2 (GenCreated 1) world_enum
           = (Ok ([PyDevice "/sys/devices/sda"; PyDevice "/sys/devices/sda/sda1"], g'), w')
           ∧ count is_resolver_call (trace w') = 2.
Proof.
  apply (iteration_is_lazy (H := ascii_platform) 1 0 0 0 (UdevEnumerate 1 0 [] [])
           2 world_enum).
  - reflexivity.
  - reflexivity.
  - reflexivity.
  - reflexivity.
  - vm_compute. lia.
Defined.



(** X13: an entry whose device is no longer in the registry when it is
    reached ends the iteration with a resolution failure; the entry is
    not skipped and the error is not swallowed. *)
Theorem vanished_device_ends_iteration `{Platform}
    (self c : objref) (ph : option handle) (hu : handle) (it : list_iter)
    (p v : bytes) (rest : list (bytes * bytes)) (t : text) (p' : bytes) (w : world) :
  heap w !! self = Some (EnumeratorObj (Some (PyRef c)) ph) →
  ctx_owns w c hu →
  pending it = (p, v) :: rest → fs_decode p = Some t → fs_encode t = Some p' →
  device_at (registry w) p' = None →
  fst (Enumerator.next (GenSuspended self it) w) = Raise ResolutionFailure.
Proof. apply next_resolution_failure. Qed.

Lemma vanished_device_ends_iteration_witness :
  fst (Enumerator.next (H := ascii_platform)
         (GenSuspended 1
            (LI_yielded [("/sys/devices/sda", ""); ("/sys/devices/sda/sda1", "")]))
         (set_registry [Device "/sys/devices/sda" "block" "sda" [] [] [] true]
            world_enum))
  = Raise ResolutionFailure.
Proof.
  apply (vanished_device_ends_iteration (H := ascii_platform) 1 0 (Some 0) 0 _
           "/sys/devices/sda/sda1" "" [] (u"/sys/devices/sda/sda1")
           "/sys/devices/sda/sda1").
  - reflexivity.
  - reflexivity.
  - reflexivity.
  - reflexivity.
  - reflexivity.
  - reflexivity.
Defined.

(** X14: a construction that failed with [TypeError] leaves nothing
    behind: when the instance it had created is destroyed, [__del__]
    makes no native call and the world is exactly as before the
    construction. *)
Theorem failed_construction_leaves_no_trace (arg : pyvalue) (w : world) :
  is_Context w arg = false →
  finalize (fresh (dom (heap w))) (snd (Enumerator.new arg w)) = (Ok tt, w).
Proof. apply finalize_failed_new. Qed.

Lemma failed_construction_leaves_no_trace_witness :
  finalize 1 (snd (Enumerator.new (PyText (u"context")) world_ctx)) = (Ok tt, world_ctx).
Proof.
  apply (failed_construction_leaves_no_trace (PyText (u"context")) world_ctx).
  reflexivity.
Defined.

(** X15: only the four recognized keywords are guarded against [None]:
    any other keyword given as [None] is forwarded to [match_property]
    and adds a property predicate whose value is the bytes of the text
    None. *)
Theorem unrecognized_None_is_forwarded `{Platform}
    (self : objref) (h : handle) (e : udev_enumerate) (kw : kwargs) (k : bytes)
    (w : world) :
  en_owns w self h → enumerates w !! h = Some e →
  forallb keyword_ok kw = true →
  (k, PyNone) ∈ kw → k ∉ recognized →
  ∃ b w' e',
    fs_encode (u"None") = Some b
    ∧ Enumerator.match_ self kw w = (Ok (PyRef self), w')
    ∧ enumerates w' !! h = Some e'
    ∧ P_property k b ∈ en_filters e'.
Proof.
  intros Ho He Hall Hin Hk.
  pose proof (keyword_ok_property kw k PyNone Hall) as Hv.
  destruct (value_ok_bytes PyNone) as [b Hb].
  { apply Hv. apply list_elem_of_filter. by split. }
  simpl in Hb. exists b, (adds (match_filters kw) h w). eexists.
  split; [done|]. split; [by apply match_adds|].
  split; [by apply adds_enumerates|]. simpl.
  apply elem_of_app. right. apply (property_filter_elem kw k PyNone); [done..|].
  simpl. by rewrite Hb.
Qed.

Lemma unrecognized_None_is_forwarded_witness :
  ∃ b w' e',
    ascii_encode (u"None") = Some b
    ∧ Enumerator.match_ (H := ascii_platform) 1
        [("subsystem", PyNone); ("ID_BUS", PyNone)] world_enum
      = (Ok (PyRef 1), w')
    ∧ enumerates w' !! 0 = Some e'
    ∧ P_property "ID_BUS" b ∈ en_filters e'.
Proof.
  apply (unrecognized_None_is_forwarded (H := ascii_platform) 1 0
           (UdevEnumerate 1 0 [] [])).
  - exists (Some (PyRef 0)). reflexivity.
  - reflexivity.
  - reflexivity.
  - apply (bool_decide_unpack _). vm_compute. exact I.
  - apply (bool_decide_unpack _). vm_compute. exact I.
Defined.

(** X16: in every world a program can reach, an Enumerator that has its
    native handle has a Context as its [context], that Context holds a
    registry handle, and the enumeration object is bound to that very
    handle; so iterating it to the end, the sys paths of the registry
    surviving decoding and encoding, always succeeds and yields the
    devices that pass its match list. *)
Theorem reachable_enumerator_iterates `{Platform}
    (self : objref) (h : handle) (n : nat) (w : world) :
  reachable w → en_owns w self h →
  ∃ c hu en,
    heap w !! self = Some (EnumeratorObj (Some (PyRef c)) (Some h))
    ∧ ctx_owns w c hu
    ∧ enumerates w !! h = Some en
    ∧ en_udev en = hu
    ∧ (forallb (fun d => roundtrips (dev_sys_path d)) (registry w) = true →
       length (registry w) < n →
       ∃ w', take n (GenCreated self) w
             = (Ok (yielded (en_filters en) (registry w), GenFinished), w')).
Proof.
  intros Hr Ho.
  destruct (reachable_enumerator w self h Hr Ho) as (c & hu & en & Hs & Hc & He & Hu).
  exists c, hu, en. do 4 (split; [done|]). intros Hall Hn.
  destruct (take_created self c h hu en n w Hs Hc He Hall Hn) as (w' & E & _).
  by exists w'.
Qed.

Lemma reachable_enumerator_iterates_witness :
  ∃ c hu en,
    heap world_enum !! 1 = Some (EnumeratorObj (Some (PyRef c)) (Some 0))
    ∧ ctx_owns world_enum c hu
    ∧ enumerates world_enum !! 0 = Some en
    ∧ en_udev en = hu
    ∧ (forallb (fun d => roundtrips (H := ascii_platform) (dev_sys_path d))
         (registry world_enum) = true →
       length (registry world_enum) < 6 →
       ∃ w', take (H := ascii_platform) 6 (GenCreated 1) world_enum
             = (Ok (yielded (en_filters en) (registry world_enum), GenFinished), w')).
Proof.
  apply (reachable_enumerator_iterates (H := ascii_platform) 1 0 6 world_enum).
  - exact reachable_world_enum.
  - exists (Some (PyRef 0)). reflexivity.
Defined.
